(** * CHWordleBot: the constraint model, the candidate pool and the loader

    A shallow embedding of [chwordlebot.cpp] and the properties of its
    constraint derivation, constraint ledger, candidate filtering and guess
    selection.

    Conventions of the embedding:
    - [std::string] is [string], [char] is [ascii];
    - [unsigned short] and [std::size_t] values are [N], with the wrap-around
      of every increment and addition written out;
    - [std::unordered_set<T>] is [gset T]; the order in which such a set is
      traversed is not fixed by the language, so it is a parameter
      ([SetOrder]) of which only "every element exactly once" is known;
    - a failed [assert] and an uncaught [std::out_of_range] end the program:
      they are the failures that the program raises. A remainder by zero has
      undefined behaviour: the language says nothing of what the program
      does from there on. It is the third [failure] of the [result] monad,
      which stands for "no defined behaviour" and not for an error. *)

From Stdlib Require Import NArith Ascii String Lia.
From stdpp Require Import base numbers list gmap strings sets fin_sets.

Set Warnings "-clear-no-such-hyp".

Local Open Scope string_scope.
Local Open Scope N_scope.

(** ** Failures *)

Inductive failure : Type :=
  | AssertionFailure     (* an [assert] that does not hold: [abort ()] *)
  | OutOfRange           (* [std::string::at] past the end: an exception *)
  | UndefinedBehaviour.  (* [x % 0]: the program has no defined behaviour *)

(** The failures that the program raises itself. *)
Definition raised (e : failure) : Prop :=
  match e with
  | AssertionFailure | OutOfRange => True
  | UndefinedBehaviour => False
  end.

Inductive result (A : Type) : Type :=
  | Ok (a : A)
  | Fail (e : failure).
Arguments Ok {A} a.
Arguments Fail {A} e.

#[global] Instance failure_eq_dec : EqDecision failure.
Proof. solve_decision. Defined.

#[global] Instance result_eq_dec `{EqDecision A} : EqDecision (result A).
Proof. solve_decision. Defined.

#[global] Instance result_ret : MRet result := λ A a, Ok a.
#[global] Instance result_bind : MBind result := λ A B f m,
  match m with
  | Ok a => f a
  | Fail e => Fail e
  end.

Definition assert (b : bool) : result unit :=
  if b then Ok tt else Fail AssertionFailure.

(** ** Machine integers *)

Definition USHRT_MODULUS : N := 65536.
Definition SIZE_MODULUS : N := 18446744073709551616.

(** [++x] on an [unsigned short]. *)
Definition ushort_incr (x : N) : N := (x + 1) mod USHRT_MODULUS.
(** [++x] and [x += y] on a [std::size_t]. *)
Definition size_incr (x : N) : N := (x + 1) mod SIZE_MODULUS.
Definition size_add (x y : N) : N := (x + y) mod SIZE_MODULUS.

(** ** Constants of the program *)

Definition WORD_LENGTH : N := 5.
Definition NOT_THERE : ascii := "W"%char.
Definition WRONG_SPOT : ascii := "Y"%char.
Definition RIGHT_SPOT : ascii := "G"%char.

(** ** Characters and strings *)

Definition char_le (a b : ascii) : bool := N_of_ascii a <=? N_of_ascii b.

(** [c >= 'A' && c <= 'Z'] *)
Definition isCapital (c : ascii) : bool :=
  char_le "A" c && char_le c "Z".

(** [<cctype>] in the "C" locale, the only one the program runs in. *)
Definition islower (c : ascii) : bool := char_le "a" c && char_le c "z".
Definition isalpha (c : ascii) : bool := isCapital c || islower c.
Definition toupper (c : ascii) : ascii :=
  if islower c then ascii_of_N (N_of_ascii c - 32) else c.

(** The characters of a string, as [for (char c : str)] visits them. *)
Definition chars (s : string) : list ascii := list_ascii_of_string s.

(** [str.length ()] *)
Definition strlen (s : string) : N := N.of_nat (String.length s).

(** [str[i]]: defined for [i <= str.length ()], where [str[str.length ()]] is
    the terminating NUL. Every use below is preceded by a check of the
    length. *)
Definition char_at (s : string) (i : N) : ascii :=
  default zero (chars s !! N.to_nat i).

(** [str.at (i)], which throws [std::out_of_range] when [i >= str.length ()]. *)
Definition checked_at (s : string) (i : N) : result ascii :=
  match chars s !! N.to_nat i with
  | Some c => Ok c
  | None => Fail OutOfRange
  end.

(** The values [0, 1, ..., n-1] of a loop counter. *)
Definition indices (n : N) : list N := N.of_nat <$> seq 0 (N.to_nat n).

(** ** The order of traversal of an unordered set *)

Class SetOrder : Type := {
  iterate : ∀ {A} `{Countable A}, gset A → list A;
  iterate_perm : ∀ {A} `{Countable A} (X : gset A), iterate X ≡ₚ elements X
}.

(** One such order, used to run the definitions on concrete inputs. *)
Definition elements_order : SetOrder :=
  {| iterate := λ A _ _ X, elements X;
     iterate_perm := λ A _ _ X, reflexivity (elements X) |}.

(** ** Position constraints *)

Module PositionConstraint.

Record t : Type := Build {
  m_index : N;
  m_letter : ascii;
  m_shouldMatch : bool
}.

#[global] Instance position_eq_dec : EqDecision t.
Proof. solve_decision. Defined.

#[global] Instance position_countable : Countable t.
Proof.
  refine (inj_countable'
            (λ c, (m_index c, m_letter c, m_shouldMatch c))
            (λ p, Build p.1.1 p.1.2 p.2) _).
  by intros [].
Defined.

(** The constructor, with its two assertions. *)
Definition new (index : N) (letter : ascii) (shouldMatch : bool) : result t :=
  _ ← assert (index <? WORD_LENGTH);
  _ ← assert (isCapital letter);
  Ok (Build index letter shouldMatch).

(** [(str.at (m_index) == m_letter) == m_shouldMatch] *)
Definition satisfies (c : t) (str : string) : result bool :=
  x ← checked_at str (m_index c);
  Ok (Bool.eqb (bool_decide (x = m_letter c)) (m_shouldMatch c)).

End PositionConstraint.

(** ** Letter-count constraints *)

Module LetterCountConstraint.

Record t : Type := Build {
  m_count : N;
  m_letter : ascii;
  m_min : bool
}.

#[global] Instance letterCount_eq_dec : EqDecision t.
Proof. solve_decision. Defined.

#[global] Instance letterCount_countable : Countable t.
Proof.
  refine (inj_countable'
            (λ c, (m_count c, m_letter c, m_min c))
            (λ p, Build p.1.1 p.1.2 p.2) _).
  by intros [].
Defined.

(** The constructor, with its two assertions. *)
Definition new (count : N) (letter : ascii) (min : bool) : result t :=
  _ ← assert (count <? WORD_LENGTH);
  _ ← assert (isCapital letter);
  Ok (Build count letter min).

(** The loop [for (char c : str) if (c == m_letter) ++amt;], from [amt]. *)
Definition countLetter (letter : ascii) (str : list ascii) (amt : N) : N :=
  foldl (λ amt c, if bool_decide (c = letter) then ushort_incr amt else amt)
        amt str.

Definition satisfies (c : t) (str : string) : bool :=
  let amt := countLetter (m_letter c) (chars str) 0 in
  if m_min c then m_count c <=? amt else amt <=? m_count c.

End LetterCountConstraint.

(** ** Loops in the [result] monad *)

(** [for (x : l) body (x);] where the body may fail. *)
Fixpoint forEach {A} (body : A → result unit) (l : list A) : result unit :=
  match l with
  | [] => Ok tt
  | x :: l' => _ ← body x; forEach body l'
  end.

(** The same loop with a variable [s] that the body updates. *)
Fixpoint foldM {A S} (body : S → A → result S) (s : S) (l : list A) : result S :=
  match l with
  | [] => Ok s
  | x :: l' => s' ← body s x; foldM body s' l'
  end.

(** [target.merge (source)] of [std::unordered_set]: every element of
    [source] whose value is not yet in [target] moves to [target]; the others
    stay in [source]. The pair is the two sets after the call. *)
Definition merge `{Countable A} (target source : gset A) : gset A * gset A :=
  (target ∪ source, source ∩ target).

(** ** The constraint collection *)

Module ConstraintCollection.

Definition isFeedback (c : ascii) : bool :=
  bool_decide (c = NOT_THERE) || bool_decide (c = WRONG_SPOT)
  || bool_decide (c = RIGHT_SPOT).

(** The three assertions that open both derivations. *)
Definition checkInput (guess feedback : string) : result unit :=
  _ ← assert ((strlen guess =? WORD_LENGTH) && (strlen feedback =? WORD_LENGTH));
  _ ← forEach (λ c, assert (isCapital c)) (chars guess);
  forEach (λ c, assert (isFeedback c)) (chars feedback).

(** The body of the loop of [generatePositionConstraints]. *)
Definition positionStep (guess feedback : string)
    (constraints : gset PositionConstraint.t) (index : N)
  : result (gset PositionConstraint.t) :=
  constraints ←
    (if bool_decide (char_at feedback index = RIGHT_SPOT)
     then c ← PositionConstraint.new index (char_at guess index) true;
          Ok ({[c]} ∪ constraints)
     else Ok constraints);
  (if bool_decide (char_at feedback index = WRONG_SPOT)
   then c ← PositionConstraint.new index (char_at guess index) false;
        Ok ({[c]} ∪ constraints)
   else Ok constraints).

Definition generatePositionConstraints (guess feedback : string)
  : result (gset PositionConstraint.t) :=
  _ ← checkInput guess feedback;
  foldM (positionStep guess feedback) ∅ (indices WORD_LENGTH).

(** The inner loop of [generateLetterCountConstraints], the same in both
    branches: it tests the feedback at [index], the position of the outer
    loop, for every character [c] of the guess. *)
Definition confirmedCopies (guess feedback : string) (index : N) : N :=
  foldl (λ count c,
           if bool_decide (c = char_at guess index)
              && (bool_decide (char_at feedback index = WRONG_SPOT)
                  || bool_decide (char_at feedback index = RIGHT_SPOT))
           then ushort_incr count else count)
        0 (chars guess).

(** The body of the outer loop of [generateLetterCountConstraints]. *)
Definition letterCountStep (guess feedback : string)
    (constraints : gset LetterCountConstraint.t) (index : N)
  : result (gset LetterCountConstraint.t) :=
  if bool_decide (char_at feedback index = WRONG_SPOT)
  then let count := confirmedCopies guess feedback index in
       c ← LetterCountConstraint.new count (char_at guess index) true;
       Ok ({[c]} ∪ constraints)
  else if bool_decide (char_at feedback index = NOT_THERE)
  then let count := confirmedCopies guess feedback index in
       c ← LetterCountConstraint.new count (char_at guess index) false;
       Ok ({[c]} ∪ constraints)
  else Ok constraints.

Definition generateLetterCountConstraints (guess feedback : string)
  : result (gset LetterCountConstraint.t) :=
  _ ← checkInput guess feedback;
  foldM (letterCountStep guess feedback) ∅ (indices WORD_LENGTH).

Record t : Type := Build {
  m_finishedPositionConstraints : gset PositionConstraint.t;
  m_finishedLetterCountConstraints : gset LetterCountConstraint.t;
  m_newPositionConstraints : gset PositionConstraint.t;
  m_newLetterCountConstraints : gset LetterCountConstraint.t
}.

#[global] Instance collection_eq_dec : EqDecision t.
Proof. solve_decision. Defined.

(** The default-constructed collection. *)
Definition empty : t := Build ∅ ∅ ∅ ∅.

Definition addPositionConstraint (c : PositionConstraint.t) (L : t) : t :=
  if decide (c ∈ m_finishedPositionConstraints L) then L
  else Build (m_finishedPositionConstraints L)
             (m_finishedLetterCountConstraints L)
             ({[c]} ∪ m_newPositionConstraints L)
             (m_newLetterCountConstraints L).

Definition addLetterCountConstraint (c : LetterCountConstraint.t) (L : t) : t :=
  if decide (c ∈ m_finishedLetterCountConstraints L) then L
  else Build (m_finishedPositionConstraints L)
             (m_finishedLetterCountConstraints L)
             (m_newPositionConstraints L)
             ({[c]} ∪ m_newLetterCountConstraints L).

(** The first inner loop of [processNewConstraints]: it runs while
    constraints remain and [good] holds. *)
Fixpoint checkPositions (cs : list PositionConstraint.t) (word : string)
    (good : bool) : result bool :=
  match cs with
  | [] => Ok good
  | c :: cs' =>
      if good
      then b ← PositionConstraint.satisfies c word;
           checkPositions cs' word (if negb b then false else good)
      else Ok good
  end.

(** The second inner loop. *)
Fixpoint checkLetterCounts (cs : list LetterCountConstraint.t) (word : string)
    (good : bool) : bool :=
  match cs with
  | [] => good
  | c :: cs' =>
      if good
      then checkLetterCounts cs' word
             (if negb (LetterCountConstraint.satisfies c word) then false else good)
      else good
  end.

Section Process.
Context `{SetOrder}.

(** The body of the outer loop: decide whether [word] stays. *)
Definition keeps (L : t) (word : string) : result bool :=
  good ← checkPositions (iterate (m_newPositionConstraints L)) word true;
  Ok (checkLetterCounts (iterate (m_newLetterCountConstraints L)) word good).

(** [if (!good) candidates.erase (iter)] *)
Definition eraseUnless (L : t) (candidates : gset string) (word : string)
  : result (gset string) :=
  good ← keeps L word;
  Ok (if negb good then candidates ∖ {[word]} else candidates).

Definition processNewConstraints (candidates : gset string) (L : t)
  : result (gset string * t) :=
  candidates' ← foldM (eraseUnless L) candidates (iterate candidates);
  let '(finishedP, newP) :=
    merge (m_finishedPositionConstraints L) (m_newPositionConstraints L) in
  _ ← assert (N.of_nat (size newP) =? 0);
  let '(finishedL, newL) :=
    merge (m_finishedLetterCountConstraints L) (m_newLetterCountConstraints L) in
  _ ← assert (N.of_nat (size newL) =? 0);
  Ok (candidates', Build finishedP finishedL newP newL).
End Process.

End ConstraintCollection.

(** ** The word collection *)

Module WordCollection.

(** The loop over the characters of one token: a lower-case letter is
    replaced by its capital, any other character that is not a letter
    clears [good]. *)
Definition normalize (temp : list ascii) : list ascii * bool :=
  foldl (λ '(temp, good) index,
           let c := default zero (temp !! N.to_nat index) in
           if islower c then (<[N.to_nat index := toupper c]> temp, good)
           else if negb (isalpha c) then (temp, false)
           else (temp, good))
        (temp, true) (indices WORD_LENGTH).

(** The body of the reading loop for one token [temp]. *)
Definition addToken (m_possibleWords : gset string) (temp : string)
  : result (gset string) :=
  if strlen temp =? WORD_LENGTH
  then let '(temp', good) := normalize (chars temp) in
       let word := string_of_list_ascii temp' in
       if good
       then _ ← assert (bool_decide (word ∉ m_possibleWords));
            Ok ({[word]} ∪ m_possibleWords)
       else Ok m_possibleWords
  else Ok m_possibleWords.

(** The constructor, on the tokens that [in >> temp] extracts. *)
Definition new (tokens : list string) : result (gset string) :=
  foldM addToken ∅ tokens.

(** The values of [for (char c = 'A'; c <= 'Z'; ++c)]. *)
Definition capitals : list ascii :=
  (λ n, ascii_of_N (65 + n)) <$> indices 26.

(** [letterFrequencies[c]]: a key that is absent reads as zero. *)
Definition frequency (letterFrequencies : gmap ascii N) (c : ascii) : N :=
  default 0 (letterFrequencies !! c).

(** The inner loop of the second pass: the score of one word. *)
Definition wordScore (letterFrequencies : gmap ascii N) (word : string) : N :=
  fst (foldl (λ '(score, alreadySeen) c,
                ((if bool_decide (c ∉ alreadySeen)
                  then size_add score (frequency letterFrequencies c)
                  else score),
                 ({[c]} ∪ alreadySeen : gset ascii)))
             (0, ∅) (chars word)).

(** One step of the second pass on [bestOptions] and [bestScore]. *)
Definition consider (letterFrequencies : gmap ascii N)
    (best : gset string * N) (word : string) : gset string * N :=
  let '(bestOptions, bestScore) := best in
  let score := wordScore letterFrequencies word in
  if bestScore <? score then ({[word]}, score)
  else if score =? bestScore then ({[word]} ∪ bestOptions, bestScore)
  else (bestOptions, bestScore).

Section Best.
Context `{SetOrder}.

(** The first pass: every character of every word is counted. *)
Definition letterFrequencies (m_possibleWords : gset string) : gmap ascii N :=
  foldl (λ freqs word,
           foldl (λ freqs c, <[c := size_incr (frequency freqs c)]> freqs)
                 freqs (chars word))
        (foldl (λ freqs c, <[c := 0]> freqs) ∅ capitals)
        (iterate m_possibleWords).

Definition bestOptions (m_possibleWords : gset string) : gset string * N :=
  foldl (consider (letterFrequencies m_possibleWords)) (∅, 0)
        (iterate m_possibleWords).

(** [bestWord], where [rnd] is the value that [rand ()] returns: an [int]
    between 0 and [RAND_MAX], which [%] converts to [std::size_t] unchanged.
    The function tests nothing: when [bestOptions] is empty,
    [rand () % bestOptions.size ()] is a remainder by zero, of undefined
    behaviour. Otherwise the index is below the size, and [std::advance]
    stays inside the set (going past its end would be undefined as well). *)
Definition bestWord (m_possibleWords : gset string) (rnd : N) : result string :=
  let options := fst (bestOptions m_possibleWords) in
  let size := N.of_nat (size options) in
  if size =? 0 then Fail UndefinedBehaviour
  else let randomIndex := rnd mod size in
       match iterate options !! N.to_nat randomIndex with
       | Some word => Ok word
       | None => Fail UndefinedBehaviour
       end.
End Best.

End WordCollection.

(** ** The main loop *)

Module Main.

Record state : Type := Build {
  words : gset string;
  constraints : ConstraintCollection.t;
  numGuesses : Z
}.

(** How one turn of the [while (true)] loop ends. *)
Inductive turn : Type :=
  | NoWordLeft                        (* the pool is empty: message, [break] *)
  | Solved (guess : string) (numGuesses : Z)   (* feedback "GGGGG": [break] *)
  | Next (guess : string) (s : state).         (* the loop goes on *)

Section Turn.
Context `{SetOrder}.

(** The two [for] loops that admit the derived constraints. *)
Definition admitAll (current_guess current_feedback : string)
    (L : ConstraintCollection.t) : result ConstraintCollection.t :=
  pcs ← ConstraintCollection.generatePositionConstraints current_guess current_feedback;
  let L := foldl (λ L c, ConstraintCollection.addPositionConstraint c L) L (iterate pcs) in
  lcs ← ConstraintCollection.generateLetterCountConstraints current_guess current_feedback;
  Ok (foldl (λ L c, ConstraintCollection.addLetterCountConstraint c L) L (iterate lcs)).

(** One turn: [rnd] is what [rand ()] returns and [current_feedback] what
    the user types. *)
Definition step (s : state) (rnd : N) (current_feedback : string) : result turn :=
  let numGuesses := (numGuesses s + 1)%Z in
  if bool_decide (words s = ∅) then Ok NoWordLeft
  else
    current_guess ← WordCollection.bestWord (words s) rnd;
    if bool_decide (current_feedback = "GGGGG")
    then Ok (Solved current_guess numGuesses)
    else
      L ← admitAll current_guess current_feedback (constraints s);
      '(candidates, L) ← ConstraintCollection.processNewConstraints (words s) L;
      Ok (Next current_guess (Build candidates L numGuesses)).
End Turn.

End Main.

(** * What the properties are stated with *)

(** ** Input of the derivations *)

(** The precondition of both derivations: a guess and a feedback of
    [WORD_LENGTH] characters, the guess in A–Z, the feedback over the three
    symbols. *)
Definition validInput (guess feedback : string) : Prop :=
  strlen guess = WORD_LENGTH ∧ strlen feedback = WORD_LENGTH
  ∧ Forall (λ c, isCapital c) (chars guess)
  ∧ Forall (λ c, ConstraintCollection.isFeedback c) (chars feedback).

(** What one index contributes to the derived position constraints. *)
Definition positionOf (guess feedback : string) (index : N)
    (c : PositionConstraint.t) : Prop :=
  (char_at feedback index = RIGHT_SPOT
   ∧ c = PositionConstraint.Build index (char_at guess index) true)
  ∨ (char_at feedback index = WRONG_SPOT
     ∧ c = PositionConstraint.Build index (char_at guess index) false).

(** The count of the specification: the positions of the guess that hold the
    letter of [index] and whose own feedback is Misplaced or Exact. *)
Definition spec_confirmedCopies (guess feedback : string) (index : N) : N :=
  N.of_nat (length (filter
    (λ j, char_at guess j = char_at guess index
          ∧ (char_at feedback j = WRONG_SPOT ∨ char_at feedback j = RIGHT_SPOT))
    (indices WORD_LENGTH))).

(** The number of characters of [str] equal to [letter]. *)
Definition occurrences (letter : ascii) (str : list ascii) : N :=
  N.of_nat (length (filter (λ c, c = letter) str)).

(** ** The ledger and the pool *)

(** A constraint that was admitted is in New or in Finished. *)
Definition admittedPosition (c : PositionConstraint.t)
    (L : ConstraintCollection.t) : Prop :=
  c ∈ ConstraintCollection.m_newPositionConstraints L
  ∨ c ∈ ConstraintCollection.m_finishedPositionConstraints L.

Definition admittedLetterCount (c : LetterCountConstraint.t)
    (L : ConstraintCollection.t) : Prop :=
  c ∈ ConstraintCollection.m_newLetterCountConstraints L
  ∨ c ∈ ConstraintCollection.m_finishedLetterCountConstraints L.

(** Every word of the pool satisfies every Finished constraint. *)
Definition sound (pool : gset string) (L : ConstraintCollection.t) : Prop :=
  ∀ word, word ∈ pool →
    (∀ c, c ∈ ConstraintCollection.m_finishedPositionConstraints L →
          PositionConstraint.satisfies c word = Ok true)
    ∧ (∀ c, c ∈ ConstraintCollection.m_finishedLetterCountConstraints L →
            LetterCountConstraint.satisfies c word = true).

(** The calls that a client makes on a pool and its collection. *)
Inductive action : Type :=
  | AdmitPosition (c : PositionConstraint.t)
  | AdmitLetterCount (c : LetterCountConstraint.t)
  | ApplyPending.

Definition act `{SetOrder} (s : gset string * ConstraintCollection.t) (a : action)
  : result (gset string * ConstraintCollection.t) :=
  match a with
  | AdmitPosition c => Ok (s.1, ConstraintCollection.addPositionConstraint c s.2)
  | AdmitLetterCount c => Ok (s.1, ConstraintCollection.addLetterCountConstraint c s.2)
  | ApplyPending => ConstraintCollection.processNewConstraints s.1 s.2
  end.

(** A sequence of such calls. *)
Definition run `{SetOrder} (actions : list action)
    (s : gset string * ConstraintCollection.t)
  : result (gset string * ConstraintCollection.t) :=
  foldM act s actions.

(** Words of [WORD_LENGTH] characters, as the constructor of the word
    collection stores them. *)
Definition wordsOfLength (pool : gset string) : Prop :=
  ∀ word, word ∈ pool → strlen word = WORD_LENGTH.

(** Position constraints as their constructor lets them be. *)
Definition constructible (a : action) : Prop :=
  match a with
  | AdmitPosition c => PositionConstraint.m_index c < WORD_LENGTH
  | _ => True
  end.

(** The states in which [processNewConstraints] runs to its end: the words
    have [WORD_LENGTH] characters, the position constraints are as their
    constructor lets them be, and no constraint is both New and Finished. *)
Definition consistent (pool : gset string) (L : ConstraintCollection.t) : Prop :=
  wordsOfLength pool
  ∧ (∀ c, admittedPosition c L → PositionConstraint.m_index c < WORD_LENGTH)
  ∧ ConstraintCollection.m_newPositionConstraints L
    ## ConstraintCollection.m_finishedPositionConstraints L
  ∧ ConstraintCollection.m_newLetterCountConstraints L
    ## ConstraintCollection.m_finishedLetterCountConstraints L.

(** ** Scores *)

Definition sumN (l : list N) : N := foldr N.add 0 l.

(** The letters of a word, each once. *)
Definition distinctLetters (word : string) : gset ascii :=
  list_to_set (chars word).

(** The occurrences of a letter in all the words of the pool. *)
Definition poolOccurrences (pool : gset string) (c : ascii) : N :=
  sumN ((λ word, occurrences c (chars word)) <$> elements pool).

(** The sum of [poolOccurrences] over the distinct letters of a word. *)
Definition occurrenceSum (pool : gset string) (word : string) : N :=
  sumN (poolOccurrences pool <$> elements (distinctLetters word)).

(** The same sum as a [std::size_t]. *)
Definition occurrenceScore (pool : gset string) (word : string) : N :=
  occurrenceSum pool word mod SIZE_MODULUS.

(** The number of characters that the pool holds. *)
Definition poolLetters (pool : gset string) : N :=
  sumN (strlen <$> elements pool).

(** The frequency of the specification: the words of the pool that contain
    the letter at least once. *)
Definition spec_frequency (pool : gset string) (c : ascii) : N :=
  N.of_nat (size (filter (λ word, c ∈ chars word) pool)).

(** The score of the specification: the sum of [spec_frequency] over the
    distinct letters of the word. *)
Definition spec_score (pool : gset string) (word : string) : N :=
  sumN (spec_frequency pool <$> elements (distinctLetters word)).

(** The score that [bestWord] computes for a word of the pool. *)
Definition score `{SetOrder} (pool : gset string) (word : string) : N :=
  WordCollection.wordScore (WordCollection.letterFrequencies pool) word.

(** The words of the pool that no word of the pool beats. *)
Definition maximal `{SetOrder} (pool : gset string) (word : string) : Prop :=
  word ∈ pool ∧ ∀ word', word' ∈ pool → score pool word' ≤ score pool word.

(** The selection of the specification: on a pool that is not empty,
    [bestWord] returns a word of the pool whose [spec_score] no word of the
    pool beats. *)
Definition spec_bestWord_maximizes : Prop :=
  ∀ (order : SetOrder) (pool : gset string) (rnd : N),
    pool ≠ ∅ →
    ∃ word, WordCollection.bestWord pool rnd = Ok word
            ∧ word ∈ pool
            ∧ ∀ word', word' ∈ pool → spec_score pool word' ≤ spec_score pool word.

(** The empty pool in the specification: the call fails with an error
    that the function raises. *)
Definition spec_bestWord_EmptyPoolError : Prop :=
  ∀ (order : SetOrder) (rnd : N),
    ∃ e, WordCollection.bestWord ∅ rnd = Fail e ∧ raised e.

(** The words of the pool that no word of the pool beats, by the
    occurrences of their letters in the pool. *)
Definition occurrenceMaximal (pool : gset string) (word : string) : Prop :=
  word ∈ pool
  ∧ ∀ word', word' ∈ pool → occurrenceScore pool word' ≤ occurrenceScore pool word.

(** The same by the score of the specification: the words that tie for its
    maximum. *)
Definition spec_maximal (pool : gset string) (word : string) : Prop :=
  word ∈ pool
  ∧ ∀ word', word' ∈ pool → spec_score pool word' ≤ spec_score pool word.

(** The tie-break of the specification: every word that ties for the maximum
    [spec_score] is returned for some value of [rand ()]. *)
Definition spec_bestWord_tie_break : Prop :=
  ∀ (order : SetOrder) (pool : gset string) (word : string),
    spec_maximal pool word →
    ∃ rnd, WordCollection.bestWord pool rnd = Ok word.

(** The values that [rand ()] can return: 0, ..., [RAND_MAX], where
    [RAND_MAX] is a constant of the C library, at least 32767. *)
Definition randValues (RAND_MAX : N) : list N := indices (RAND_MAX + 1).

(** The values of [rand ()] for which [bestWord] returns [word]. *)
Definition selecting `{SetOrder} (RAND_MAX : N) (pool : gset string)
    (word : string) : list N :=
  filter (λ rnd, WordCollection.bestWord pool rnd = Ok word)
         (randValues RAND_MAX).

(** The uniform draw of the specification: when [rand ()] is uniform on
    0, ..., [RAND_MAX], the words that tie for the maximum [spec_score] are
    returned for the same number of values each. *)
Definition spec_bestWord_uniform : Prop :=
  ∀ (order : SetOrder) (RAND_MAX : N) (pool : gset string) (word1 word2 : string),
    spec_maximal pool word1 → spec_maximal pool word2 →
    length (selecting RAND_MAX pool word1) = length (selecting RAND_MAX pool word2).

(** ** Tokens *)

(** A token of exactly [WORD_LENGTH] alphabetic characters. *)
Definition acceptable (token : string) : Prop :=
  strlen token = WORD_LENGTH ∧ Forall (λ c, isalpha c) (chars token).

#[global] Instance acceptable_dec token : Decision (acceptable token).
Proof. unfold acceptable. apply _. Defined.

Definition uppercase (token : string) : string :=
  string_of_list_ascii (toupper <$> chars token).

(** The normalized forms of the acceptable tokens, in the order of the
    stream. *)
Definition keptWords (tokens : list string) : list string :=
  uppercase <$> filter acceptable tokens.


(** * The rest of the program *)

(** ** Equality and hashing of the constraints *)

(** The value of a [char] in an arithmetic expression, where [char] is a
    signed byte. For the letters A–Z, the only ones that the constructors let
    in, it is the code of the letter whatever the signedness of [char]. *)
Definition char_value (c : ascii) : Z :=
  let n := Z.of_N (N_of_ascii c) in
  if (n <? 128)%Z then n else (n - 256)%Z.

(** The conversion of an [int] to [std::size_t]. *)
Definition to_size (z : Z) : N := Z.to_N (z mod Z.of_N SIZE_MODULUS).

(** [PositionConstraint::operator==] *)
Definition position_equal (c other : PositionConstraint.t) : bool :=
  (PositionConstraint.m_index c =? PositionConstraint.m_index other)
  && bool_decide (PositionConstraint.m_letter c = PositionConstraint.m_letter other)
  && Bool.eqb (PositionConstraint.m_shouldMatch c)
              (PositionConstraint.m_shouldMatch other).

(** [LetterCountConstraint::operator==] *)
Definition letterCount_equal (c other : LetterCountConstraint.t) : bool :=
  (LetterCountConstraint.m_count c =? LetterCountConstraint.m_count other)
  && bool_decide (LetterCountConstraint.m_letter c
                  = LetterCountConstraint.m_letter other)
  && Bool.eqb (LetterCountConstraint.m_min c) (LetterCountConstraint.m_min other).

(** [std::hash<PositionConstraint>::operator()] *)
Definition position_hash (c : PositionConstraint.t) : N :=
  to_size (Z.of_N (PositionConstraint.m_index c)
           + char_value (PositionConstraint.m_letter c) * 5
           + (if PositionConstraint.m_shouldMatch c then 1000 else 0))%Z.

(** [std::hash<LetterCountConstraint>::operator()] *)
Definition letterCount_hash (c : LetterCountConstraint.t) : N :=
  to_size (Z.of_N (LetterCountConstraint.m_count c)
           + char_value (LetterCountConstraint.m_letter c) * 5
           + (if LetterCountConstraint.m_min c then 1000 else 0))%Z.

(** The constraints that the constructors return. *)
Definition constructedPosition (c : PositionConstraint.t) : Prop :=
  PositionConstraint.m_index c < WORD_LENGTH
  ∧ isCapital (PositionConstraint.m_letter c).

Definition constructedLetterCount (c : LetterCountConstraint.t) : Prop :=
  LetterCountConstraint.m_count c < WORD_LENGTH
  ∧ isCapital (LetterCountConstraint.m_letter c).

(** ** The derivation of the letter-count constraints *)

(** What one index contributes to the derived letter-count constraints. *)
Definition letterCountOf (guess feedback : string) (index : N)
    (c : LetterCountConstraint.t) : Prop :=
  (char_at feedback index = WRONG_SPOT
   ∧ c = LetterCountConstraint.Build
           (occurrences (char_at guess index) (chars guess))
           (char_at guess index) true)
  ∨ (char_at feedback index = NOT_THERE
     ∧ c = LetterCountConstraint.Build 0 (char_at guess index) false).

(** A Misplaced index whose letter fills the whole guess. *)
Definition overfull (guess feedback : string) : Prop :=
  ∃ index, index < WORD_LENGTH
           ∧ char_at feedback index = WRONG_SPOT
           ∧ occurrences (char_at guess index) (chars guess) = WORD_LENGTH.

(** ** Filtering *)

(** A word that satisfies all the constraints of two sets. *)
Definition satisfiesAll (positions : gset PositionConstraint.t)
    (letterCounts : gset LetterCountConstraint.t) (word : string) : Prop :=
  (∀ c, c ∈ positions → PositionConstraint.satisfies c word = Ok true)
  ∧ (∀ c, c ∈ letterCounts → LetterCountConstraint.satisfies c word = true).

(** ** Games *)

(** The main loop on the values of [rand ()] and the feedbacks of the
    successive turns: it stops at the first turn that ends the game, or waits
    in a state when the inputs are used up. *)
Fixpoint turns `{SetOrder} (s : Main.state) (inputs : list (N * string))
  : result (Main.state + Main.turn) :=
  match inputs with
  | [] => Ok (inl s)
  | (rnd, current_feedback) :: inputs' =>
      t ← Main.step s rnd current_feedback;
      match t with
      | Main.Next _ s' => turns s' inputs'
      | _ => Ok (inr t)
      end
  end.

(** A word of [WORD_LENGTH] letters in A–Z that are not all the same. *)
Definition mixedWord (word : string) : Prop :=
  strlen word = WORD_LENGTH
  ∧ Forall (λ c, isCapital c) (chars word)
  ∧ ∀ c, occurrences c (chars word) < WORD_LENGTH.

(** A feedback that the derivations accept. *)
Definition validFeedback (feedback : string) : Prop :=
  strlen feedback = WORD_LENGTH
  ∧ Forall (λ c, ConstraintCollection.isFeedback c) (chars feedback).

(** The states of a game on a dictionary of mixed words. *)
Definition playable (s : Main.state) : Prop :=
  (∀ word, word ∈ Main.words s → mixedWord word)
  ∧ consistent (Main.words s) (Main.constraints s).

#[global] Instance state_eq_dec : EqDecision Main.state.
Proof. solve_decision. Defined.

#[global] Instance turn_eq_dec : EqDecision Main.turn.
Proof. solve_decision. Defined.

(** Another order of traversal: the reverse of the first. *)
Definition reverse_order : SetOrder :=
  {| iterate := λ A _ _ X, reverse (elements X);
     iterate_perm := λ A _ _ X, reverse_Permutation (elements X) |}.

(** * Properties *)

(** ** Strings, characters and loop counters *)

Lemma chars_length s : length (chars s) = String.length s.
Proof. induction s as [|a s IH]; simpl; [done | by rewrite IH]. Qed.

Lemma elem_of_indices n i : i ∈ indices n ↔ i < n.
Proof.
  unfold indices. rewrite list_elem_of_fmap. split.
  - intros (k & -> & Hk). apply elem_of_seq in Hk. lia.
  - intros Hi. exists (N.to_nat i). split; [lia |]. apply elem_of_seq. lia.
Qed.

Lemma char_at_lookup s i c : chars s !! N.to_nat i = Some c → char_at s i = c.
Proof. unfold char_at. by intros ->. Qed.

Lemma char_at_elem_of s i : i < strlen s → char_at s i ∈ chars s.
Proof.
  unfold strlen. intros Hi.
  destruct (lookup_lt_is_Some_2 (chars s) (N.to_nat i)) as [c Hc].
  { rewrite chars_length. lia. }
  rewrite (char_at_lookup _ _ _ Hc). by eapply list_elem_of_lookup_2.
Qed.

(** ** Loops *)

Lemma foldM_cons {A S} (body : S → A → result S) (s : S) (x : A) (l : list A) :
  foldM body s (x :: l) = body s x ≫= λ s', foldM body s' l.
Proof. reflexivity. Qed.

Lemma foldM_app {A S} (body : S → A → result S) (s : S) (l1 l2 : list A) :
  foldM body s (l1 ++ l2) = foldM body s l1 ≫= λ s', foldM body s' l2.
Proof.
  revert s. induction l1 as [|x l1 IH]; intros s; simpl; [done |].
  destruct (body s x) as [s' | e]; simpl; [apply IH | done].
Qed.

(** ** The assertions on the input of the derivations *)

Lemma forEach_assert {A} (P : A → bool) (l : list A) :
  forEach (λ x, assert (P x)) l
  = if forallb P l then Ok tt else Fail AssertionFailure.
Proof.
  induction l as [|x l IH]; simpl; [done |].
  destruct (P x); simpl; [exact IH | done].
Qed.

Lemma checkInput_spec guess feedback :
  ConstraintCollection.checkInput guess feedback
  = if decide (validInput guess feedback) then Ok tt else Fail AssertionFailure.
Proof.
  unfold ConstraintCollection.checkInput, validInput.
  rewrite !forEach_assert.
  destruct (strlen guess =? WORD_LENGTH) eqn:E1; simpl;
    [apply N.eqb_eq in E1 | apply N.eqb_neq in E1];
    [| by rewrite decide_False by tauto].
  destruct (strlen feedback =? WORD_LENGTH) eqn:E2; simpl;
    [apply N.eqb_eq in E2 | apply N.eqb_neq in E2];
    [| by rewrite decide_False by tauto].
  destruct (forallb isCapital (chars guess)) eqn:E3; simpl.
  - destruct (forallb ConstraintCollection.isFeedback (chars feedback)) eqn:E4.
    + rewrite decide_True; [done |].
      repeat split; try done; apply Forall_forall; intros c Hc;
        apply Is_true_true; eapply forallb_forall; eauto; by apply list_elem_of_In.
    + rewrite decide_False; [done |]. intros (_ & _ & _ & HF).
      assert (forallb ConstraintCollection.isFeedback (chars feedback) = true);
        [| congruence].
      apply forallb_forall. intros c Hc. apply Is_true_true.
      eapply Forall_forall in HF; [done |]. by apply list_elem_of_In.
  - rewrite decide_False; [done |]. intros (_ & _ & HF & _).
    assert (forallb isCapital (chars guess) = true); [| congruence].
    apply forallb_forall. intros c Hc. apply Is_true_true.
    eapply Forall_forall in HF; [done |]. by apply list_elem_of_In.
Qed.

Lemma validInput_capital guess feedback i :
  validInput guess feedback → i < WORD_LENGTH → isCapital (char_at guess i).
Proof.
  intros (Hg & _ & HF & _) Hi.
  eapply Forall_forall in HF; [done |]. apply char_at_elem_of. by rewrite Hg.
Qed.

(** ** Derivation of the position constraints *)

Lemma PositionConstraint_new_Ok index letter shouldMatch :
  index < WORD_LENGTH → isCapital letter →
  PositionConstraint.new index letter shouldMatch
  = Ok (PositionConstraint.Build index letter shouldMatch).
Proof.
  intros Hi Hc. unfold PositionConstraint.new.
  apply N.ltb_lt in Hi. rewrite Hi. apply Is_true_true in Hc. by rewrite Hc.
Qed.

Lemma positionStep_spec guess feedback constraints index :
  index < WORD_LENGTH → isCapital (char_at guess index) →
  ∃ S, ConstraintCollection.positionStep guess feedback constraints index = Ok S
       ∧ ∀ c, c ∈ S ↔ c ∈ constraints ∨ positionOf guess feedback index c.
Proof.
  intros Hi Hc. unfold ConstraintCollection.positionStep, positionOf.
  rewrite !PositionConstraint_new_Ok by done.
  assert (RIGHT_SPOT ≠ WRONG_SPOT) as Hne by done.
  do 2 case_bool_decide; simpl; eexists; (split; [done |]); intros c;
    set_solver.
Qed.

Lemma generatePositionConstraints_loop guess feedback l constraints :
  (∀ i, i ∈ l → i < WORD_LENGTH ∧ isCapital (char_at guess i)) →
  ∃ S, foldM (ConstraintCollection.positionStep guess feedback) constraints l = Ok S
       ∧ ∀ c, c ∈ S ↔
              c ∈ constraints ∨ ∃ i, i ∈ l ∧ positionOf guess feedback i c.
Proof.
  revert constraints. induction l as [|i l IH]; intros constraints Hl; simpl.
  - exists constraints. split; [done |]. intros c. set_solver.
  - destruct (Hl i) as [Hi Hc]; [by left |].
    destruct (positionStep_spec guess feedback constraints i Hi Hc)
      as (S1 & -> & HS1).
    destruct (IH S1) as (S2 & HS2 & Hmem).
    { intros j Hj. apply Hl. by right. }
    exists S2. split; [exact HS2 |]. intros c. rewrite Hmem, HS1.
    set_solver.
Qed.

(** C4. On a guess and a feedback of length [WORD_LENGTH], with the guess in
    A–Z and the feedback over the three symbols, [generatePositionConstraints]
    returns exactly the set that holds [(index, guess[index], true)] for each
    index with Exact feedback and [(index, guess[index], false)] for each
    index with Misplaced feedback, and nothing for an Absent index; "CRANE"
    with Exact, Absent, Absent, Absent, Absent gives the single must-equal
    constraint at index 0 for the letter C. *)
Theorem generatePositionConstraints_exact :
  (∀ guess feedback,
     validInput guess feedback →
     ∃ S, ConstraintCollection.generatePositionConstraints guess feedback = Ok S
          ∧ ∀ c, c ∈ S ↔
                 ∃ index, index < WORD_LENGTH
                          ∧ positionOf guess feedback index c)
  ∧ ConstraintCollection.generatePositionConstraints "CRANE" "GWWWW"
    = Ok {[ PositionConstraint.Build 0 "C" true ]}.
Proof.
  split; [| compute_done].
  intros guess feedback Hvalid.
  unfold ConstraintCollection.generatePositionConstraints.
  rewrite checkInput_spec, decide_True by done. simpl.
  destruct (generatePositionConstraints_loop guess feedback
              (indices WORD_LENGTH) ∅) as (S & HS & Hmem).
  { intros i Hi. apply elem_of_indices in Hi.
    split; [done |]. by eapply validInput_capital. }
  exists S. split; [exact HS |]. intros c. rewrite Hmem.
  setoid_rewrite elem_of_indices. set_solver.
Qed.

Lemma generatePositionConstraints_exact_witness :
  validInput "CRANE" "GWWWW"
  ∧ ∃ S, ConstraintCollection.generatePositionConstraints "CRANE" "GWWWW" = Ok S
         ∧ ∀ c, c ∈ S ↔
                ∃ index, index < WORD_LENGTH
                         ∧ positionOf "CRANE" "GWWWW" index c.
Proof.
  assert (validInput "CRANE" "GWWWW") as Hvalid by compute_done.
  split; [exact Hvalid |].
  exact (proj1 generatePositionConstraints_exact "CRANE" "GWWWW" Hvalid).
Defined.

(** ** Derivation of the letter-count constraints *)

Lemma occurrences_cons letter c str :
  occurrences letter (c :: str)
  = (if decide (c = letter) then 1 else 0) + occurrences letter str.
Proof.
  unfold occurrences. rewrite filter_cons.
  destruct (decide (c = letter)); simpl; lia.
Qed.

Lemma occurrences_le_length letter str :
  occurrences letter str ≤ N.of_nat (length str).
Proof.
  unfold occurrences. pose proof (length_filter (λ c, c = letter) str). lia.
Qed.

(** The counter of [satisfies] is the number of occurrences, reduced as an
    [unsigned short]. *)
Lemma countLetter_mod letter str amt :
  amt < USHRT_MODULUS →
  LetterCountConstraint.countLetter letter str amt
  = (amt + occurrences letter str) mod USHRT_MODULUS.
Proof.
  unfold LetterCountConstraint.countLetter. revert amt.
  induction str as [|c str IH]; intros amt Hamt; simpl.
  - unfold occurrences. simpl. rewrite N.add_0_r. by rewrite N.mod_small.
  - rewrite occurrences_cons. case_bool_decide.
    + rewrite decide_True by done. rewrite IH.
      * unfold ushort_incr. rewrite N.Div0.add_mod_idemp_l. f_equal. lia.
      * unfold ushort_incr. by apply N.mod_lt.
    + rewrite decide_False by done. by rewrite IH.
Qed.

Lemma countLetter_small letter str :
  N.of_nat (length str) < USHRT_MODULUS →
  LetterCountConstraint.countLetter letter str 0 = occurrences letter str.
Proof.
  intros Hlen. rewrite countLetter_mod by done. simpl.
  apply N.mod_small. pose proof (occurrences_le_length letter str). lia.
Qed.

Lemma foldl_gate (P : ascii → bool) (gate : bool) (l : list ascii) (amt : N) :
  foldl (λ count c, if P c && gate then ushort_incr count else count) amt l
  = if gate
    then foldl (λ count c, if P c then ushort_incr count else count) amt l
    else amt.
Proof.
  revert amt. induction l as [|c l IH]; intros amt; simpl.
  - by destruct gate.
  - rewrite IH. destruct gate; [by rewrite andb_true_r | by rewrite andb_false_r].
Qed.

(** What the inner loop of the derivation computes: it looks at the feedback
    of [index] alone, so it counts every copy of the letter when that feedback
    is Misplaced or Exact, and none otherwise. *)
Lemma confirmedCopies_eq guess feedback index :
  ConstraintCollection.confirmedCopies guess feedback index
  = if bool_decide (char_at feedback index = WRONG_SPOT)
       || bool_decide (char_at feedback index = RIGHT_SPOT)
    then LetterCountConstraint.countLetter (char_at guess index) (chars guess) 0
    else 0.
Proof.
  unfold ConstraintCollection.confirmedCopies, LetterCountConstraint.countLetter.
  exact (foldl_gate (λ c, bool_decide (c = char_at guess index)) _ _ _).
Qed.

(** At an Absent index the count is zero, whatever the other positions say. *)
Lemma confirmedCopies_absent guess feedback index :
  char_at feedback index = NOT_THERE →
  ConstraintCollection.confirmedCopies guess feedback index = 0.
Proof. intros Hfb. rewrite confirmedCopies_eq, Hfb. reflexivity. Qed.

(** At a Misplaced index the count is the number of copies of the letter in
    the whole guess. *)
Lemma confirmedCopies_misplaced guess feedback index :
  strlen guess = WORD_LENGTH →
  char_at feedback index = WRONG_SPOT →
  ConstraintCollection.confirmedCopies guess feedback index
  = occurrences (char_at guess index) (chars guess).
Proof.
  intros Hlen Hfb. rewrite confirmedCopies_eq, Hfb. simpl.
  apply countLetter_small. rewrite chars_length.
  unfold strlen in Hlen. rewrite Hlen. reflexivity.
Qed.

Lemma confirmedCopies_le guess feedback index :
  strlen guess = WORD_LENGTH →
  ConstraintCollection.confirmedCopies guess feedback index ≤ WORD_LENGTH.
Proof.
  intros Hlen. rewrite confirmedCopies_eq.
  destruct (_ || _); [| by vm_compute].
  rewrite countLetter_small.
  - pose proof (occurrences_le_length (char_at guess index) (chars guess)) as Hle.
    rewrite chars_length in Hle. unfold strlen in Hlen. lia.
  - rewrite chars_length. unfold strlen in Hlen. rewrite Hlen. reflexivity.
Qed.

(** C1. For "ALLOW" with the feedback Misplaced, Absent, Exact, Absent,
    Absent the specification counts one confirmed L, from the Exact L at
    index 2, and asks for the maximum constraint with count 1 at the Absent L
    of index 1. The derivation counts zero there and returns the maximum
    constraint with count 0 for L, which "BELAY", a word that answers "ALLOW"
    with this very feedback, does not satisfy. *)
Theorem generateLetterCountConstraints_ALLOW :
  validInput "ALLOW" "YWGWW"
  ∧ spec_confirmedCopies "ALLOW" "YWGWW" 1 = 1
  ∧ ConstraintCollection.confirmedCopies "ALLOW" "YWGWW" 1 = 0
  ∧ ConstraintCollection.generateLetterCountConstraints "ALLOW" "YWGWW"
    = Ok {[ LetterCountConstraint.Build 1 "A" true;
            LetterCountConstraint.Build 0 "L" false;
            LetterCountConstraint.Build 0 "O" false;
            LetterCountConstraint.Build 0 "W" false ]}
  ∧ LetterCountConstraint.satisfies (LetterCountConstraint.Build 0 "L" false) "BELAY"
    = false.
Proof. compute_done. Qed.

(** C10. The guess "AAAAA" with the feedback Misplaced at every index
    passes the assertions on the input of the derivation; the count at index 0
    is [WORD_LENGTH], the constructor of the letter-count constraint refuses
    it, and the derivation ends on the failed assertion. *)
Theorem generateLetterCountConstraints_AAAAA :
  validInput "AAAAA" "YYYYY"
  ∧ ConstraintCollection.confirmedCopies "AAAAA" "YYYYY" 0 = WORD_LENGTH
  ∧ LetterCountConstraint.new WORD_LENGTH "A" true = Fail AssertionFailure
  ∧ ConstraintCollection.generateLetterCountConstraints "AAAAA" "YYYYY"
    = Fail AssertionFailure.
Proof. compute_done. Qed.

(** ** Traversals *)

Section Traversal.
Context `{SetOrder} `{Countable A}.

Lemma elem_of_iterate (X : gset A) (x : A) : x ∈ iterate X ↔ x ∈ X.
Proof. rewrite (iterate_perm X). apply elem_of_elements. Qed.

Lemma NoDup_iterate (X : gset A) : NoDup (iterate X).
Proof. rewrite (iterate_perm X). apply NoDup_elements. Qed.

Lemma length_iterate (X : gset A) : length (iterate X) = size X.
Proof. by rewrite (iterate_perm X). Qed.

End Traversal.

(** ** Filtering of the pool *)

Lemma checkPositions_false cs word :
  ConstraintCollection.checkPositions cs word false = Ok false.
Proof. by destruct cs. Qed.

Lemma checkPositions_true cs word :
  ConstraintCollection.checkPositions cs word true = Ok true
  ↔ ∀ c, c ∈ cs → PositionConstraint.satisfies c word = Ok true.
Proof.
  induction cs as [|c cs IH]; simpl.
  - split; [| done]. intros _ c Hc. by apply elem_of_nil in Hc.
  - destruct (PositionConstraint.satisfies c word) as [[] | e] eqn:Hsat; simpl.
    + rewrite IH. split.
      * intros Hcs c' [-> | Hc']%elem_of_cons; [done | by apply Hcs].
      * intros Hcs c' Hc'. apply Hcs. by right.
    + rewrite checkPositions_false. split; [done |].
      intros Hcs. specialize (Hcs c (list_elem_of_here _ _)). congruence.
    + split; [done |].
      intros Hcs. specialize (Hcs c (list_elem_of_here _ _)). congruence.
Qed.

Lemma checkPositions_Ok cs word :
  (∀ c, c ∈ cs → PositionConstraint.m_index c < strlen word) →
  ∃ good, ConstraintCollection.checkPositions cs word true = Ok good.
Proof.
  induction cs as [|c cs IH]; intros Hcs; simpl; [by eexists |].
  unfold PositionConstraint.satisfies, checked_at.
  destruct (lookup_lt_is_Some_2 (chars word) (N.to_nat (PositionConstraint.m_index c)))
    as [x ->].
  { rewrite chars_length. specialize (Hcs c (list_elem_of_here _ _)).
    unfold strlen in Hcs. lia. }
  simpl. destruct (Bool.eqb _ _); simpl.
  - apply IH. intros c' Hc'. apply Hcs. by right.
  - rewrite checkPositions_false. by eexists.
Qed.

Lemma checkLetterCounts_false cs word :
  ConstraintCollection.checkLetterCounts cs word false = false.
Proof. by destruct cs. Qed.

Lemma checkLetterCounts_true cs word :
  ConstraintCollection.checkLetterCounts cs word true = true
  ↔ ∀ c, c ∈ cs → LetterCountConstraint.satisfies c word = true.
Proof.
  induction cs as [|c cs IH]; simpl.
  - split; [| done]. intros _ c Hc. by apply elem_of_nil in Hc.
  - destruct (LetterCountConstraint.satisfies c word) eqn:Hsat; simpl.
    + rewrite IH. split.
      * intros Hcs c' [-> | Hc']%elem_of_cons; [done | by apply Hcs].
      * intros Hcs c' Hc'. apply Hcs. by right.
    + rewrite checkLetterCounts_false. split; [done |].
      intros Hcs. specialize (Hcs c (list_elem_of_here _ _)). congruence.
Qed.

Section Ledger.
Context `{SetOrder}.

(** A word stays exactly when it satisfies every New constraint. *)
Lemma keeps_true L word :
  ConstraintCollection.keeps L word = Ok true
  ↔ (∀ c, c ∈ ConstraintCollection.m_newPositionConstraints L →
          PositionConstraint.satisfies c word = Ok true)
    ∧ (∀ c, c ∈ ConstraintCollection.m_newLetterCountConstraints L →
            LetterCountConstraint.satisfies c word = true).
Proof.
  unfold ConstraintCollection.keeps.
  setoid_rewrite <- elem_of_iterate.
  rewrite <- checkPositions_true, <- checkLetterCounts_true.
  destruct (ConstraintCollection.checkPositions _ word true) as [[] | e]; simpl.
  - split; [intros [= ->]; done | intros [_ ->]; done].
  - rewrite checkLetterCounts_false. split; [done | by intros [? _]].
  - split; [done | by intros [? _]].
Qed.

Lemma keeps_Ok L word :
  (∀ c, c ∈ ConstraintCollection.m_newPositionConstraints L →
        PositionConstraint.m_index c < strlen word) →
  ∃ good, ConstraintCollection.keeps L word = Ok good.
Proof.
  intros HL. unfold ConstraintCollection.keeps.
  destruct (checkPositions_Ok
              (iterate (ConstraintCollection.m_newPositionConstraints L)) word)
    as [good ->].
  { intros c Hc. apply HL. by apply elem_of_iterate. }
  simpl. by eexists.
Qed.

Lemma eraseUnless_eq L candidates word :
  ConstraintCollection.eraseUnless L candidates word
  = match ConstraintCollection.keeps L word with
    | Ok good => Ok (if negb good then candidates ∖ {[word]} else candidates)
    | Fail e => Fail e
    end.
Proof. reflexivity. Qed.

Lemma eraseUnless_loop L l candidates candidates' :
  foldM (ConstraintCollection.eraseUnless L) candidates l = Ok candidates' →
  ∀ word, word ∈ candidates'
          ↔ word ∈ candidates
            ∧ (word ∈ l → ConstraintCollection.keeps L word = Ok true).
Proof.
  revert candidates. induction l as [|x l IH]; intros candidates.
  - simpl. intros [= ->] word. split; [| tauto]. intros Hw. split; [done |].
    intros Hnil. by apply elem_of_nil in Hnil.
  - rewrite foldM_cons, eraseUnless_eq.
    destruct (ConstraintCollection.keeps L x) as [good | e] eqn:Hkeeps;
      simpl; [| done].
    intros Hrest word. rewrite (IH _ Hrest), elem_of_cons.
    destruct good; simpl.
    + split.
      * intros [Hw Hl]. split; [done |]. intros [-> | Hin]; [done | by apply Hl].
      * intros [Hw Hl]. split; [done |]. intros Hin. apply Hl. by right.
    + rewrite elem_of_difference, elem_of_singleton. split.
      * intros [[Hw Hne] Hl]. split; [done |].
        intros [-> | Hin]; [done | by apply Hl].
      * intros [Hw Hl]. split; [split; [done |] |].
        -- intros ->. specialize (Hl (or_introl eq_refl)). congruence.
        -- intros Hin. apply Hl. by right.
Qed.

Lemma eraseUnless_loop_Ok L l candidates :
  (∀ word, word ∈ l → ∃ good, ConstraintCollection.keeps L word = Ok good) →
  ∃ candidates',
    foldM (ConstraintCollection.eraseUnless L) candidates l = Ok candidates'.
Proof.
  revert candidates. induction l as [|x l IH]; intros candidates Hl.
  - by eexists.
  - rewrite foldM_cons, eraseUnless_eq.
    destruct (Hl x) as [good ->]; [by left |]. simpl.
    apply IH. intros word Hword. apply Hl. by right.
Qed.

(** The effect of a call that returns. *)
Lemma processNewConstraints_Ok candidates L candidates' L' :
  ConstraintCollection.processNewConstraints candidates L = Ok (candidates', L') →
  (∀ word, word ∈ candidates'
           ↔ word ∈ candidates ∧ ConstraintCollection.keeps L word = Ok true)
  ∧ L' = ConstraintCollection.Build
           (ConstraintCollection.m_finishedPositionConstraints L
            ∪ ConstraintCollection.m_newPositionConstraints L)
           (ConstraintCollection.m_finishedLetterCountConstraints L
            ∪ ConstraintCollection.m_newLetterCountConstraints L)
           ∅ ∅.
Proof.
  unfold ConstraintCollection.processNewConstraints, merge.
  destruct (foldM _ candidates _) as [cands | e] eqn:Hloop; simpl; [| done].
  destruct (N.of_nat (size (ConstraintCollection.m_newPositionConstraints L ∩ _)) =? 0)
    eqn:HsizeP; simpl; [| done].
  destruct (N.of_nat (size (ConstraintCollection.m_newLetterCountConstraints L ∩ _)) =? 0)
    eqn:HsizeL; simpl; [| done].
  intros [= <- <-]. split.
  - intros word. rewrite (eraseUnless_loop _ _ _ _ Hloop word).
    rewrite elem_of_iterate. tauto.
  - apply N.eqb_eq in HsizeP, HsizeL.
    assert (∀ `{Countable B} (X : gset B), N.of_nat (size X) = 0 → X = ∅) as Hempty.
    { intros B ?? X HX. apply leibniz_equiv, size_empty_inv. lia. }
    apply Hempty in HsizeP, HsizeL. by rewrite HsizeP, HsizeL.
Qed.

End Ledger.

(** ** Admission *)

Lemma addPositionConstraint_admitted c L :
  admittedPosition c L → ConstraintCollection.addPositionConstraint c L = L.
Proof.
  unfold admittedPosition, ConstraintCollection.addPositionConstraint.
  intros Hc. case_decide; [done |]. destruct Hc as [Hc | Hc]; [| done].
  destruct L as [fP fL nP nL]; simpl in *. f_equal. set_solver.
Qed.

Lemma addLetterCountConstraint_admitted c L :
  admittedLetterCount c L → ConstraintCollection.addLetterCountConstraint c L = L.
Proof.
  unfold admittedLetterCount, ConstraintCollection.addLetterCountConstraint.
  intros Hc. case_decide; [done |]. destruct Hc as [Hc | Hc]; [| done].
  destruct L as [fP fL nP nL]; simpl in *. f_equal. set_solver.
Qed.

Lemma admittedPosition_add c L :
  admittedPosition c (ConstraintCollection.addPositionConstraint c L).
Proof.
  unfold admittedPosition, ConstraintCollection.addPositionConstraint.
  case_decide; simpl; [by right | left; set_solver].
Qed.

Lemma admittedLetterCount_add c L :
  admittedLetterCount c (ConstraintCollection.addLetterCountConstraint c L).
Proof.
  unfold admittedLetterCount, ConstraintCollection.addLetterCountConstraint.
  case_decide; simpl; [by right | left; set_solver].
Qed.

(** Admissions keep what was admitted, of both kinds. *)
Lemma admittedPosition_addPosition c c' L :
  admittedPosition c L →
  admittedPosition c (ConstraintCollection.addPositionConstraint c' L).
Proof.
  unfold admittedPosition, ConstraintCollection.addPositionConstraint.
  case_decide; simpl; [done |]. set_solver.
Qed.

Lemma admittedPosition_addLetterCount c c' L :
  admittedPosition c L →
  admittedPosition c (ConstraintCollection.addLetterCountConstraint c' L).
Proof.
  unfold admittedPosition, ConstraintCollection.addLetterCountConstraint.
  by case_decide.
Qed.

Lemma admittedLetterCount_addLetterCount c c' L :
  admittedLetterCount c L →
  admittedLetterCount c (ConstraintCollection.addLetterCountConstraint c' L).
Proof.
  unfold admittedLetterCount, ConstraintCollection.addLetterCountConstraint.
  case_decide; simpl; [done |]. set_solver.
Qed.

Lemma admittedLetterCount_addPosition c c' L :
  admittedLetterCount c L →
  admittedLetterCount c (ConstraintCollection.addPositionConstraint c' L).
Proof.
  unfold admittedLetterCount, ConstraintCollection.addPositionConstraint.
  by case_decide.
Qed.

Section LedgerRuns.
Context `{SetOrder}.

(** Promotion moves what was admitted into Finished. *)
Lemma processNewConstraints_finished pool L pool' L' :
  ConstraintCollection.processNewConstraints pool L = Ok (pool', L') →
  (∀ c, admittedPosition c L →
        c ∈ ConstraintCollection.m_finishedPositionConstraints L')
  ∧ (∀ c, admittedLetterCount c L →
          c ∈ ConstraintCollection.m_finishedLetterCountConstraints L').
Proof.
  intros (_ & ->)%processNewConstraints_Ok.
  unfold admittedPosition, admittedLetterCount. simpl. set_solver.
Qed.

Lemma run_nil s : run [] s = Ok s.
Proof. reflexivity. Qed.

Lemma run_cons a actions s :
  run (a :: actions) s = act s a ≫= run actions.
Proof. reflexivity. Qed.

Lemma run_app actions1 actions2 s :
  run (actions1 ++ actions2) s = run actions1 s ≫= run actions2.
Proof. apply foldM_app. Qed.

(** An induction principle for the runs that return: a property of the
    state that every call preserves holds at the end. *)
Lemma run_invariant (P : gset string → ConstraintCollection.t → Prop) :
  (∀ pool L c, P pool L → P pool (ConstraintCollection.addPositionConstraint c L)) →
  (∀ pool L c, P pool L → P pool (ConstraintCollection.addLetterCountConstraint c L)) →
  (∀ pool L pool' L',
     P pool L →
     ConstraintCollection.processNewConstraints pool L = Ok (pool', L') →
     P pool' L') →
  ∀ actions pool L pool' L',
    P pool L → run actions (pool, L) = Ok (pool', L') → P pool' L'.
Proof.
  intros HaddP HaddL Hprocess actions.
  induction actions as [|a actions IH]; intros pool L pool' L' HP.
  - rewrite run_nil. by intros [= <- <-].
  - rewrite run_cons. destruct a as [c | c |]; simpl.
    + apply IH, HaddP, HP.
    + apply IH, HaddL, HP.
    + destruct (ConstraintCollection.processNewConstraints pool L)
        as [[pool1 L1] | e] eqn:Hcall; simpl; [| done].
      apply IH. by eapply Hprocess.
Qed.

Lemma run_retiredPosition c actions pool L pool' L' :
  c ∈ ConstraintCollection.m_finishedPositionConstraints L
  ∧ c ∉ ConstraintCollection.m_newPositionConstraints L →
  run actions (pool, L) = Ok (pool', L') →
  c ∈ ConstraintCollection.m_finishedPositionConstraints L'
  ∧ c ∉ ConstraintCollection.m_newPositionConstraints L'.
Proof.
  apply (run_invariant (λ _ L,
    c ∈ ConstraintCollection.m_finishedPositionConstraints L
    ∧ c ∉ ConstraintCollection.m_newPositionConstraints L)).
  - intros _ L1 c' [Hfin Hnew].
    unfold ConstraintCollection.addPositionConstraint.
    case_decide; simpl; [done |]. set_solver.
  - intros _ L1 c' HP. unfold ConstraintCollection.addLetterCountConstraint.
    by case_decide.
  - intros pool1 L1 pool2 L2 [Hfin Hnew] (_ & ->)%processNewConstraints_Ok.
    simpl. set_solver.
Qed.

Lemma run_retiredLetterCount c actions pool L pool' L' :
  c ∈ ConstraintCollection.m_finishedLetterCountConstraints L
  ∧ c ∉ ConstraintCollection.m_newLetterCountConstraints L →
  run actions (pool, L) = Ok (pool', L') →
  c ∈ ConstraintCollection.m_finishedLetterCountConstraints L'
  ∧ c ∉ ConstraintCollection.m_newLetterCountConstraints L'.
Proof.
  apply (run_invariant (λ _ L,
    c ∈ ConstraintCollection.m_finishedLetterCountConstraints L
    ∧ c ∉ ConstraintCollection.m_newLetterCountConstraints L)).
  - intros _ L1 c' HP. unfold ConstraintCollection.addPositionConstraint.
    by case_decide.
  - intros _ L1 c' [Hfin Hnew].
    unfold ConstraintCollection.addLetterCountConstraint.
    case_decide; simpl; [done |]. set_solver.
  - intros pool1 L1 pool2 L2 [Hfin Hnew] (_ & ->)%processNewConstraints_Ok.
    simpl. set_solver.
Qed.

Lemma run_admittedPosition c actions pool L pool' L' :
  admittedPosition c L →
  run actions (pool, L) = Ok (pool', L') →
  admittedPosition c L'
  ∧ (ApplyPending ∈ actions →
     c ∈ ConstraintCollection.m_finishedPositionConstraints L'
     ∧ c ∉ ConstraintCollection.m_newPositionConstraints L').
Proof.
  revert pool L. induction actions as [|a actions IH]; intros pool L Hc.
  - rewrite run_nil. intros [= <- <-]. split; [done |].
    intros Hin. by apply elem_of_nil in Hin.
  - rewrite run_cons. destruct a as [c' | c' |]; simpl.
    + intros Hrun.
      destruct (IH _ _ (admittedPosition_addPosition c c' L Hc) Hrun) as [Hadm Hret].
      split; [done |]. intros [[=] | Hin]%elem_of_cons. by apply Hret.
    + intros Hrun.
      destruct (IH _ _ (admittedPosition_addLetterCount c c' L Hc) Hrun)
        as [Hadm Hret].
      split; [done |]. intros [[=] | Hin]%elem_of_cons. by apply Hret.
    + destruct (ConstraintCollection.processNewConstraints pool L)
        as [[pool1 L1] | e] eqn:Hcall; simpl; [| done].
      intros Hrun.
      pose proof (proj1 (processNewConstraints_finished _ _ _ _ Hcall) c Hc) as Hfin.
      apply processNewConstraints_Ok in Hcall as (_ & ->).
      assert (c ∈ ConstraintCollection.m_finishedPositionConstraints L'
              ∧ c ∉ ConstraintCollection.m_newPositionConstraints L') as Hret.
      { eapply run_retiredPosition; [| exact Hrun]. simpl. set_solver. }
      split; [right; apply Hret | done].
Qed.

Lemma run_admittedLetterCount c actions pool L pool' L' :
  admittedLetterCount c L →
  run actions (pool, L) = Ok (pool', L') →
  admittedLetterCount c L'
  ∧ (ApplyPending ∈ actions →
     c ∈ ConstraintCollection.m_finishedLetterCountConstraints L'
     ∧ c ∉ ConstraintCollection.m_newLetterCountConstraints L').
Proof.
  revert pool L. induction actions as [|a actions IH]; intros pool L Hc.
  - rewrite run_nil. intros [= <- <-]. split; [done |].
    intros Hin. by apply elem_of_nil in Hin.
  - rewrite run_cons. destruct a as [c' | c' |]; simpl.
    + intros Hrun.
      destruct (IH _ _ (admittedLetterCount_addPosition c c' L Hc) Hrun)
        as [Hadm Hret].
      split; [done |]. intros [[=] | Hin]%elem_of_cons. by apply Hret.
    + intros Hrun.
      destruct (IH _ _ (admittedLetterCount_addLetterCount c c' L Hc) Hrun)
        as [Hadm Hret].
      split; [done |]. intros [[=] | Hin]%elem_of_cons. by apply Hret.
    + destruct (ConstraintCollection.processNewConstraints pool L)
        as [[pool1 L1] | e] eqn:Hcall; simpl; [| done].
      intros Hrun.
      pose proof (proj2 (processNewConstraints_finished _ _ _ _ Hcall) c Hc) as Hfin.
      apply processNewConstraints_Ok in Hcall as (_ & ->).
      assert (c ∈ ConstraintCollection.m_finishedLetterCountConstraints L'
              ∧ c ∉ ConstraintCollection.m_newLetterCountConstraints L') as Hret.
      { eapply run_retiredLetterCount; [| exact Hrun]. simpl. set_solver. }
      split; [right; apply Hret | done].
Qed.

(** C6. Admission is idempotent, for both kinds of constraint. Admitting a
    constraint again right away changes nothing. More generally a constraint
    that is New or Finished is admitted without any change of the four sets.
    Through any later calls that return, an admitted constraint stays
    admitted, so admitting it again still changes nothing; once a promotion
    is among these calls, the constraint is Finished and is not in New. *)
Theorem admission_idempotent :
  (∀ c L, ConstraintCollection.addPositionConstraint c
            (ConstraintCollection.addPositionConstraint c L)
          = ConstraintCollection.addPositionConstraint c L)
  ∧ (∀ c L, ConstraintCollection.addLetterCountConstraint c
              (ConstraintCollection.addLetterCountConstraint c L)
            = ConstraintCollection.addLetterCountConstraint c L)
  ∧ (∀ c L, admittedPosition c L →
            ConstraintCollection.addPositionConstraint c L = L)
  ∧ (∀ c L, admittedLetterCount c L →
            ConstraintCollection.addLetterCountConstraint c L = L)
  ∧ (∀ c L actions pool pool' L',
       run actions (pool, ConstraintCollection.addPositionConstraint c L)
       = Ok (pool', L') →
       ConstraintCollection.addPositionConstraint c L' = L'
       ∧ (ApplyPending ∈ actions →
          c ∈ ConstraintCollection.m_finishedPositionConstraints L'
          ∧ c ∉ ConstraintCollection.m_newPositionConstraints L'))
  ∧ (∀ c L actions pool pool' L',
       run actions (pool, ConstraintCollection.addLetterCountConstraint c L)
       = Ok (pool', L') →
       ConstraintCollection.addLetterCountConstraint c L' = L'
       ∧ (ApplyPending ∈ actions →
          c ∈ ConstraintCollection.m_finishedLetterCountConstraints L'
          ∧ c ∉ ConstraintCollection.m_newLetterCountConstraints L')).
Proof.
  split_and!.
  - intros c L. apply addPositionConstraint_admitted, admittedPosition_add.
  - intros c L. apply addLetterCountConstraint_admitted, admittedLetterCount_add.
  - apply addPositionConstraint_admitted.
  - apply addLetterCountConstraint_admitted.
  - intros c L actions pool pool' L' Hrun.
    destruct (run_admittedPosition c _ _ _ _ _ (admittedPosition_add c L) Hrun)
      as [Hadm Hret].
    split; [by apply addPositionConstraint_admitted | done].
  - intros c L actions pool pool' L' Hrun.
    destruct (run_admittedLetterCount c _ _ _ _ _ (admittedLetterCount_add c L) Hrun)
      as [Hadm Hret].
    split; [by apply addLetterCountConstraint_admitted | done].
Qed.

End LedgerRuns.

(** ** Soundness and monotonicity of the filtering *)

Section PoolRuns.
Context `{SetOrder}.

Lemma processNewConstraints_subseteq pool L pool' L' :
  ConstraintCollection.processNewConstraints pool L = Ok (pool', L') →
  pool' ⊆ pool.
Proof.
  intros [Hpool _]%processNewConstraints_Ok word Hword. by apply Hpool in Hword as [? _].
Qed.

Lemma run_subseteq actions pool L pool' L' :
  run actions (pool, L) = Ok (pool', L') → pool' ⊆ pool.
Proof.
  revert pool' L'.
  cut (∀ pool0 L0 pool' L', pool0 ⊆ pool →
         run actions (pool0, L0) = Ok (pool', L') → pool' ⊆ pool).
  { intros Hcut pool' L'. by apply Hcut. }
  apply (run_invariant (λ pool0 _, pool0 ⊆ pool)); try done.
  intros pool1 L1 pool2 L2 Hsub Hcall.
  apply processNewConstraints_subseteq in Hcall. set_solver.
Qed.

(** The words that a call keeps satisfy the constraints that it promotes. *)
Lemma processNewConstraints_promoted pool L pool' L' :
  ConstraintCollection.processNewConstraints pool L = Ok (pool', L') →
  ∀ word, word ∈ pool' →
    (∀ c, c ∈ ConstraintCollection.m_newPositionConstraints L →
          PositionConstraint.satisfies c word = Ok true)
    ∧ (∀ c, c ∈ ConstraintCollection.m_newLetterCountConstraints L →
            LetterCountConstraint.satisfies c word = true).
Proof.
  intros [Hpool _]%processNewConstraints_Ok word Hword.
  apply Hpool in Hword as [_ Hkeeps]. by apply keeps_true.
Qed.

Lemma processNewConstraints_keeps_sound pool L pool' L' :
  sound pool L →
  ConstraintCollection.processNewConstraints pool L = Ok (pool', L') →
  sound pool' L'.
Proof.
  intros Hsound Hcall word Hword.
  destruct (processNewConstraints_promoted _ _ _ _ Hcall word Hword) as [HnewP HnewL].
  apply processNewConstraints_Ok in Hcall as (Hpool & ->).
  apply Hpool in Hword as [Hword _].
  destruct (Hsound word Hword) as [HfinP HfinL]. simpl.
  split; intros c [Hc | Hc]%elem_of_union; auto.
Qed.

Lemma addPositionConstraint_sound pool L c :
  sound pool L → sound pool (ConstraintCollection.addPositionConstraint c L).
Proof. unfold ConstraintCollection.addPositionConstraint. by case_decide. Qed.

Lemma addLetterCountConstraint_sound pool L c :
  sound pool L → sound pool (ConstraintCollection.addLetterCountConstraint c L).
Proof. unfold ConstraintCollection.addLetterCountConstraint. by case_decide. Qed.

Lemma run_sound actions pool L pool' L' :
  sound pool L → run actions (pool, L) = Ok (pool', L') → sound pool' L'.
Proof.
  apply (run_invariant sound).
  - intros pool1 L1 c. apply addPositionConstraint_sound.
  - intros pool1 L1 c. apply addLetterCountConstraint_sound.
  - apply processNewConstraints_keeps_sound.
Qed.

(** The admissions of a turn of the main loop leave the Finished sets as
    they are. *)
Lemma admitAll_sound pool guess feedback L L' :
  sound pool L → Main.admitAll guess feedback L = Ok L' → sound pool L'.
Proof.
  intros Hsound. unfold Main.admitAll.
  destruct (ConstraintCollection.generatePositionConstraints guess feedback)
    as [pcs | e]; simpl; [| done].
  destruct (ConstraintCollection.generateLetterCountConstraints guess feedback)
    as [lcs | e]; simpl; [| done].
  intros [= <-].
  assert (∀ cs L0, sound pool L0 →
            sound pool (foldl (λ L c, ConstraintCollection.addPositionConstraint c L)
                              L0 cs)) as HfoldP.
  { induction cs as [|c cs IH]; intros L0 HL0; simpl; [done |].
    by apply IH, addPositionConstraint_sound. }
  assert (∀ cs L0, sound pool L0 →
            sound pool (foldl (λ L c, ConstraintCollection.addLetterCountConstraint c L)
                              L0 cs)) as HfoldL.
  { induction cs as [|c cs IH]; intros L0 HL0; simpl; [done |].
    by apply IH, addLetterCountConstraint_sound. }
  by apply HfoldL, HfoldP.
Qed.

Lemma sound_empty pool : sound pool ConstraintCollection.empty.
Proof. intros word _. simpl. split; intros c Hc; by apply elem_of_empty in Hc. Qed.

(** *** The calls return *)

Lemma consistent_empty pool :
  wordsOfLength pool → consistent pool ConstraintCollection.empty.
Proof.
  intros Hpool. unfold consistent, admittedPosition. simpl.
  split_and!; [done | | |]; set_solver.
Qed.

Lemma processNewConstraints_total pool L :
  consistent pool L →
  ∃ pool' L', ConstraintCollection.processNewConstraints pool L = Ok (pool', L')
              ∧ consistent pool' L'.
Proof.
  intros (Hwords & Hindex & HdisjP & HdisjL).
  assert (∃ pool' L',
            ConstraintCollection.processNewConstraints pool L = Ok (pool', L'))
    as (pool' & L' & Hcall).
  { unfold ConstraintCollection.processNewConstraints, merge.
    destruct (eraseUnless_loop_Ok L (iterate pool) pool) as [cands ->].
    { intros word Hword%elem_of_iterate. apply keeps_Ok. intros c Hc.
      rewrite (Hwords word Hword). apply Hindex. by left. }
    simpl.
    assert (ConstraintCollection.m_newPositionConstraints L
            ∩ ConstraintCollection.m_finishedPositionConstraints L = ∅) as ->
      by set_solver.
    assert (ConstraintCollection.m_newLetterCountConstraints L
            ∩ ConstraintCollection.m_finishedLetterCountConstraints L = ∅) as ->
      by set_solver.
    rewrite !size_empty. simpl. by do 2 eexists. }
  exists pool', L'. split; [done |].
  pose proof (processNewConstraints_subseteq _ _ _ _ Hcall) as Hsub.
  apply processNewConstraints_Ok in Hcall as (_ & ->).
  unfold consistent, admittedPosition in *. simpl. split_and!.
  - intros word Hword. apply Hwords. by apply Hsub.
  - intros c [Hc | Hc]; [by apply elem_of_empty in Hc |].
    apply Hindex. set_solver.
  - set_solver.
  - set_solver.
Qed.

Lemma addPositionConstraint_consistent pool L c :
  PositionConstraint.m_index c < WORD_LENGTH →
  consistent pool L →
  consistent pool (ConstraintCollection.addPositionConstraint c L).
Proof.
  intros Hc (Hwords & Hindex & HdisjP & HdisjL).
  unfold consistent, admittedPosition, ConstraintCollection.addPositionConstraint in *.
  case_decide; simpl; [done |]. split_and!; [done | | set_solver | done].
  intros c' [[->%elem_of_singleton | Hc']%elem_of_union | Hc']; auto.
Qed.

Lemma addLetterCountConstraint_consistent pool L c :
  consistent pool L →
  consistent pool (ConstraintCollection.addLetterCountConstraint c L).
Proof.
  intros (Hwords & Hindex & HdisjP & HdisjL).
  unfold consistent, admittedPosition, ConstraintCollection.addLetterCountConstraint in *.
  case_decide; simpl; [done |]. split_and!; [done | done | done | set_solver].
Qed.

Lemma run_total actions pool L :
  consistent pool L → Forall constructible actions →
  ∃ pool' L', run actions (pool, L) = Ok (pool', L') ∧ consistent pool' L'.
Proof.
  revert pool L. induction actions as [|a actions IH]; intros pool L Hcons Hact.
  - exists pool, L. by rewrite run_nil.
  - apply Forall_cons in Hact as [Ha Hact]. rewrite run_cons.
    destruct a as [c | c |]; simpl.
    + apply IH; [| done]. by apply addPositionConstraint_consistent.
    + apply IH; [| done]. by apply addLetterCountConstraint_consistent.
    + destruct (processNewConstraints_total pool L Hcons)
        as (pool1 & L1 & -> & Hcons1). simpl. by apply IH.
Qed.

(** C5. After a call of [processNewConstraints] every word that remains in
    the pool satisfies every Finished constraint, of both kinds. A call that
    returns leaves New empty and keeps only words that satisfy the constraints
    it promotes, so it keeps the property; hence the property holds after
    every sequence of calls on a pool and a collection that starts empty.
    On a pool of words of [WORD_LENGTH] characters and with constraints that
    pass their constructor, every such sequence of calls returns. A turn of
    the main loop that goes on keeps the property. *)
Theorem processNewConstraints_sound :
  (∀ pool L pool' L',
     ConstraintCollection.processNewConstraints pool L = Ok (pool', L') →
     ConstraintCollection.m_newPositionConstraints L' = ∅
     ∧ ConstraintCollection.m_newLetterCountConstraints L' = ∅
     ∧ (∀ word, word ∈ pool' →
          (∀ c, c ∈ ConstraintCollection.m_newPositionConstraints L →
                PositionConstraint.satisfies c word = Ok true)
          ∧ (∀ c, c ∈ ConstraintCollection.m_newLetterCountConstraints L →
                  LetterCountConstraint.satisfies c word = true))
     ∧ (sound pool L → sound pool' L'))
  ∧ (∀ pool actions pool' L',
       run actions (pool, ConstraintCollection.empty) = Ok (pool', L') →
       sound pool' L')
  ∧ (∀ pool actions,
       wordsOfLength pool → Forall constructible actions →
       ∃ pool' L',
         run actions (pool, ConstraintCollection.empty) = Ok (pool', L')
         ∧ sound pool' L')
  ∧ (∀ s rnd current_feedback guess s',
       Main.step s rnd current_feedback = Ok (Main.Next guess s') →
       sound (Main.words s) (Main.constraints s) →
       sound (Main.words s') (Main.constraints s')).
Proof.
  split_and!.
  - intros pool L pool' L' Hcall. split_and!.
    + by apply processNewConstraints_Ok in Hcall as (_ & ->).
    + by apply processNewConstraints_Ok in Hcall as (_ & ->).
    + by eapply processNewConstraints_promoted.
    + intros Hsound. by eapply processNewConstraints_keeps_sound.
  - intros pool actions pool' L'. apply run_sound, sound_empty.
  - intros pool actions Hwords Hact.
    destruct (run_total actions pool ConstraintCollection.empty
                (consistent_empty pool Hwords) Hact) as (pool' & L' & Hrun & _).
    exists pool', L'. split; [done |]. by eapply run_sound, Hrun; apply sound_empty.
  - intros s rnd fb guess s'. unfold Main.step.
    case_bool_decide; [done |].
    destruct (WordCollection.bestWord _ _) as [g | e]; simpl; [| done].
    case_bool_decide; [done |].
    destruct (Main.admitAll _ _ _) as [L | e] eqn:Hadmit; simpl; [| done].
    destruct (ConstraintCollection.processNewConstraints _ _)
      as [[pool' L'] | e] eqn:Hcall; simpl; [| done].
    intros [= _ <-] Hsound. simpl.
    eapply processNewConstraints_keeps_sound; [| exact Hcall].
    by eapply admitAll_sound.
Qed.

(** C7. The pool only loses words. A call of [processNewConstraints] that
    returns leaves a subset of the pool, of no greater size; so does every
    sequence of admissions and calls, from any state; a word that is gone
    after a first part of the calls is still gone after the rest; and a turn
    of the main loop that goes on leaves a subset of its pool. *)
Theorem pool_monotone :
  (∀ pool L pool' L',
     ConstraintCollection.processNewConstraints pool L = Ok (pool', L') →
     pool' ⊆ pool ∧ (size pool' ≤ size pool)%nat)
  ∧ (∀ actions pool L pool' L',
       run actions (pool, L) = Ok (pool', L') →
       pool' ⊆ pool ∧ (size pool' ≤ size pool)%nat)
  ∧ (∀ actions1 actions2 s s1 s2,
       run actions1 s = Ok s1 → run actions2 s1 = Ok s2 →
       run (actions1 ++ actions2) s = Ok s2
       ∧ ∀ word, word ∉ s1.1 → word ∉ s2.1)
  ∧ (∀ s rnd current_feedback guess s',
       Main.step s rnd current_feedback = Ok (Main.Next guess s') →
       Main.words s' ⊆ Main.words s
       ∧ (size (Main.words s') ≤ size (Main.words s))%nat).
Proof.
  split_and!.
  - intros pool L pool' L' Hsub%processNewConstraints_subseteq.
    split; [done | by apply subseteq_size].
  - intros actions pool L pool' L' Hsub%run_subseteq.
    split; [done | by apply subseteq_size].
  - intros actions1 actions2 [pool L] [pool1 L1] [pool2 L2] Hrun1 Hrun2.
    rewrite run_app, Hrun1. split; [done |].
    apply run_subseteq in Hrun2. simpl. set_solver.
  - intros s rnd fb guess s'. unfold Main.step.
    case_bool_decide; [done |].
    destruct (WordCollection.bestWord _ _) as [g | e]; simpl; [| done].
    case_bool_decide; [done |].
    destruct (Main.admitAll _ _ _) as [L | e]; simpl; [| done].
    destruct (ConstraintCollection.processNewConstraints _ _)
      as [[pool' L'] | e] eqn:Hcall; simpl; [| done].
    intros [= _ <-]. simpl. apply processNewConstraints_subseteq in Hcall.
    split; [done | by apply subseteq_size].
Qed.

End PoolRuns.

(** ** The loader *)

Lemma char_cases (c : ascii) :
  (islower c = true ∧ isalpha c = true)
  ∨ (islower c = false ∧ isalpha c = true ∧ toupper c = c)
  ∨ (islower c = false ∧ isalpha c = false ∧ toupper c = c).
Proof.
  unfold toupper, isalpha. destruct (islower c).
  - left. by rewrite orb_true_r.
  - right. rewrite orb_false_r. destruct (isCapital c); tauto.
Qed.

Lemma toupper_capital (c : ascii) : isalpha c → isCapital (toupper c).
Proof. destruct c as [[] [] [] [] [] [] [] []]; vm_compute; tauto. Qed.

(** The loop of the constructor over the characters of a token, at any
    length. *)
Lemma indices_succ (n : nat) :
  indices (N.of_nat (S n)) = (indices (N.of_nat n) ++ [N.of_nat n])%list.
Proof.
  unfold indices. rewrite !Nat2N.id, seq_S, fmap_app. reflexivity.
Qed.

Lemma insert_take_drop {A} (f : A → A) (l : list A) (n : nat) (x : A) :
  l !! n = Some x →
  <[n := f x]> ((f <$> take n l) ++ drop n l)%list
  = ((f <$> take (S n) l) ++ drop (S n) l)%list.
Proof.
  intros Hx. pose proof (lookup_lt_Some _ _ _ Hx) as Hn.
  rewrite insert_app_r_alt by (rewrite length_fmap, length_take; lia).
  rewrite length_fmap, length_take, Nat.min_l, Nat.sub_diag by lia.
  rewrite (drop_S _ _ _ Hx), (take_S_r _ _ _ Hx), fmap_app. simpl.
  by rewrite <- app_assoc.
Qed.

Lemma normalize_loop (temp : list ascii) (n : nat) :
  (n ≤ length temp)%nat →
  foldl (λ '(temp, good) index,
           let c := default zero (temp !! N.to_nat index) in
           if islower c then (<[N.to_nat index := toupper c]> temp, good)
           else if negb (isalpha c) then (temp, false)
           else (temp, good))
        (temp, true) (indices (N.of_nat n))
  = (((toupper <$> take n temp) ++ drop n temp)%list,
     forallb isalpha (take n temp)).
Proof.
  induction n as [|n IH]; intros Hn.
  - simpl. by rewrite drop_0.
  - rewrite indices_succ, foldl_app, IH by lia. simpl. rewrite Nat2N.id.
    destruct (lookup_lt_is_Some_2 temp n) as [c Hc]; [lia |].
    rewrite lookup_app_r by (rewrite length_fmap, length_take; lia).
    rewrite length_fmap, length_take, Nat.min_l, Nat.sub_diag by lia.
    rewrite (drop_S _ _ _ Hc). simpl.
    rewrite (take_S_r _ _ _ Hc), forallb_app. simpl. rewrite andb_true_r.
    rewrite <- (drop_S _ _ _ Hc), <- (take_S_r _ _ _ Hc).
    rewrite <- (insert_take_drop toupper temp n c Hc).
    destruct (char_cases c) as [[-> ->] | [(-> & -> & Hup) | (-> & -> & Hup)]];
      simpl.
    + by rewrite andb_true_r.
    + rewrite andb_true_r, Hup. f_equal. symmetry. apply list_insert_id.
      rewrite lookup_app_r by (rewrite length_fmap, length_take; lia).
      rewrite length_fmap, length_take, Nat.min_l, Nat.sub_diag by lia.
      by rewrite (drop_S _ _ _ Hc).
    + rewrite andb_false_r, Hup. f_equal. symmetry. apply list_insert_id.
      rewrite lookup_app_r by (rewrite length_fmap, length_take; lia).
      rewrite length_fmap, length_take, Nat.min_l, Nat.sub_diag by lia.
      by rewrite (drop_S _ _ _ Hc).
Qed.

(** The loop over one token of [WORD_LENGTH] characters puts every letter in
    upper case and reports whether all the characters are letters. *)
Lemma normalize_eq (temp : list ascii) :
  length temp = N.to_nat WORD_LENGTH →
  WordCollection.normalize temp = (toupper <$> temp, forallb isalpha temp).
Proof.
  intros Hlen. unfold WordCollection.normalize.
  rewrite <- (N2Nat.id WORD_LENGTH), normalize_loop by lia.
  rewrite <- Hlen, firstn_all, drop_all. by rewrite app_nil_r.
Qed.

Lemma acceptable_forallb token :
  strlen token = WORD_LENGTH →
  forallb isalpha (chars token) = true ↔ acceptable token.
Proof.
  intros Hlen. unfold acceptable. rewrite forallb_forall, Forall_forall. split.
  - intros Hall. split; [done |]. intros c Hc. apply Is_true_true, Hall.
    by apply list_elem_of_In.
  - intros [_ Hall] c Hc. apply Is_true_true, Hall. by apply list_elem_of_In.
Qed.

(** What the loader does with one token. *)
Lemma addToken_eq words token :
  WordCollection.addToken words token
  = if decide (acceptable token)
    then if decide (uppercase token ∈ words) then Fail AssertionFailure
         else Ok ({[uppercase token]} ∪ words)
    else Ok words.
Proof.
  unfold WordCollection.addToken.
  destruct (strlen token =? WORD_LENGTH) eqn:Hlen.
  - apply N.eqb_eq in Hlen.
    rewrite normalize_eq by (rewrite chars_length; unfold strlen in Hlen; lia).
    pose proof (acceptable_forallb token Hlen) as Hacc.
    destruct (forallb isalpha (chars token)).
    + rewrite decide_True by by apply Hacc.
      fold (uppercase token).
      destruct (decide (uppercase token ∈ words)).
      * by rewrite bool_decide_eq_false_2 by tauto.
      * by rewrite bool_decide_eq_true_2.
    + rewrite decide_False; [done |]. intros Hno. by apply Hacc in Hno.
  - apply N.eqb_neq in Hlen. rewrite decide_False; [done |]. by intros [? _].
Qed.

Lemma keptWords_cons token tokens :
  keptWords (token :: tokens)
  = if decide (acceptable token) then uppercase token :: keptWords tokens
    else keptWords tokens.
Proof. unfold keptWords. rewrite filter_cons. by case_decide. Qed.

Lemma addToken_loop tokens words :
  foldM WordCollection.addToken words tokens
  = if decide (NoDup (keptWords tokens)
               ∧ Forall (λ word, word ∉ words) (keptWords tokens))
    then Ok (list_to_set (keptWords tokens) ∪ words)
    else Fail AssertionFailure.
Proof.
  revert words. induction tokens as [|token tokens IH]; intros words.
  - simpl. f_equal. set_solver.
  - rewrite foldM_cons, addToken_eq, keptWords_cons.
    destruct (decide (acceptable token)) as [Hacc | Hacc]; [| apply IH].
    destruct (decide (uppercase token ∈ words)) as [Hin | Hin]; simpl.
    + rewrite decide_False; [done |].
      intros [_ Hall]. by apply Forall_cons in Hall as [? _].
    + rewrite IH. destruct (decide _) as [[Hnodup Hall] | Hno].
      * rewrite decide_True.
        -- f_equal. set_solver.
        -- split.
           ++ constructor; [| done]. intros Hdup.
              eapply Forall_forall in Hall; [| exact Hdup]. set_solver.
           ++ constructor; [done |].
              eapply Forall_impl; [exact Hall |]. set_solver.
      * rewrite decide_False; [done |]. intros [Hnodup Hall]. apply Hno.
        apply NoDup_cons in Hnodup as [Hfresh Hnodup].
        apply Forall_cons in Hall as [_ Hall]. split; [done |].
        apply Forall_forall. intros word Hword.
        eapply Forall_forall in Hall; [| exact Hword].
        intros [->%elem_of_singleton | ?]%elem_of_union; done.
Qed.

Lemma uppercase_wellformed token :
  acceptable token →
  strlen (uppercase token) = WORD_LENGTH
  ∧ Forall (λ c, isCapital c) (chars (uppercase token)).
Proof.
  intros [Hlen Hall]. unfold uppercase, strlen, chars in *.
  rewrite <- chars_length. unfold chars.
  rewrite list_ascii_of_string_of_list_ascii, length_fmap.
  rewrite <- Hlen, <- chars_length. split; [done |].
  apply Forall_fmap. eapply Forall_impl; [exact Hall |].
  intros c Hc. by apply toupper_capital.
Qed.




(** ** Letter frequencies and scores *)

Lemma sumN_perm (l1 l2 : list N) : l1 ≡ₚ l2 → sumN l1 = sumN l2.
Proof.
  induction 1 as [| x l1 l2 _ IH | x y l | l1 l2 l3 _ IH1 _ IH2]; simpl;
    [done | by rewrite IH | lia | congruence].
Qed.

Lemma sumN_cons (x : N) (l : list N) : sumN (x :: l) = x + sumN l.
Proof. reflexivity. Qed.

Lemma sumN_mod {A} (f : A → N) (l : list A) :
  sumN ((λ x, f x mod SIZE_MODULUS) <$> l) mod SIZE_MODULUS
  = sumN (f <$> l) mod SIZE_MODULUS.
Proof.
  induction l as [|x l IH]; [done |].
  rewrite !fmap_cons, !sumN_cons.
  rewrite N.Div0.add_mod_idemp_l, <- N.Div0.add_mod_idemp_r, IH.
  by rewrite N.Div0.add_mod_idemp_r.
Qed.

Lemma frequency_insert m c v x :
  WordCollection.frequency (<[c := v]> m) x
  = if decide (c = x) then v else WordCollection.frequency m x.
Proof.
  unfold WordCollection.frequency. rewrite lookup_insert.
  by destruct (decide (c = x)).
Qed.

Lemma frequency_init l m x :
  WordCollection.frequency m x = 0 →
  WordCollection.frequency (foldl (λ freqs c, <[c := 0]> freqs) m l) x = 0.
Proof.
  revert m. induction l as [|c l IH]; intros m Hm; simpl; [done |].
  apply IH. rewrite frequency_insert. by case_decide.
Qed.

(** The counting of the characters of one word. *)
Lemma frequency_word l m x k :
  WordCollection.frequency m x = k mod SIZE_MODULUS →
  WordCollection.frequency
    (foldl (λ freqs c, <[c := size_incr (WordCollection.frequency freqs c)]> freqs)
           m l) x
  = (k + occurrences x l) mod SIZE_MODULUS.
Proof.
  revert m k. induction l as [|c l IH]; intros m k Hm; simpl.
  - unfold occurrences. simpl. by rewrite N.add_0_r.
  - rewrite occurrences_cons. destruct (decide (c = x)) as [-> | Hne].
    + rewrite (IH _ (k + 1)); [f_equal; lia |].
      rewrite frequency_insert, decide_True by done.
      unfold size_incr. by rewrite Hm, N.Div0.add_mod_idemp_l.
    + rewrite (IH _ k); [done |].
      by rewrite frequency_insert, decide_False.
Qed.

(** The counting over a list of words. *)
Lemma frequency_words words m x k :
  WordCollection.frequency m x = k mod SIZE_MODULUS →
  WordCollection.frequency
    (foldl (λ freqs word,
              foldl (λ freqs c,
                       <[c := size_incr (WordCollection.frequency freqs c)]> freqs)
                    freqs (chars word))
           m words) x
  = (k + sumN ((λ word, occurrences x (chars word)) <$> words)) mod SIZE_MODULUS.
Proof.
  revert m k. induction words as [|word words IH]; intros m k Hm.
  - simpl. by rewrite N.add_0_r.
  - rewrite fmap_cons, sumN_cons, N.add_assoc. simpl.
    apply IH. by apply frequency_word.
Qed.

(** The score of a word from accumulators [score] and [alreadySeen]: the
    frequencies of the letters not yet seen are added, each once. *)
Lemma wordScore_loop (freqs : gmap ascii N) l (score0 : N) (alreadySeen : gset ascii) :
  score0 < SIZE_MODULUS →
  fst (foldl (λ '(score, alreadySeen) c,
                ((if bool_decide (c ∉ alreadySeen)
                  then size_add score (WordCollection.frequency freqs c)
                  else score),
                 ({[c]} ∪ alreadySeen : gset ascii)))
             (score0, alreadySeen) l)
  = (score0 + sumN (WordCollection.frequency freqs
                      <$> elements (list_to_set l ∖ alreadySeen : gset ascii)))
    mod SIZE_MODULUS.
Proof.
  revert score0 alreadySeen.
  induction l as [|c l IH]; intros score0 alreadySeen Hscore; simpl.
  - assert ((∅ : gset ascii) ∖ alreadySeen = ∅) as -> by set_solver.
    rewrite elements_empty. simpl. rewrite N.add_0_r. by rewrite N.mod_small.
  - case_bool_decide as Hseen.
    + rewrite IH by (unfold size_add; by apply N.mod_lt).
      assert (({[c]} ∪ list_to_set l) ∖ alreadySeen
              = {[c]} ∪ (list_to_set l ∖ ({[c]} ∪ alreadySeen) : gset ascii)) as ->.
      { apply set_eq. intros x. destruct (decide (x = c)) as [-> | Hne]; set_solver. }
      pose proof (elements_union_singleton
                    (list_to_set l ∖ ({[c]} ∪ alreadySeen) : gset ascii) c) as Hperm.
      rewrite (sumN_perm _ _ (fmap_Permutation (WordCollection.frequency freqs) _ _
                 (Hperm ltac:(set_solver)))).
      rewrite fmap_cons, sumN_cons. unfold size_add. rewrite N.Div0.add_mod_idemp_l. f_equal. lia.
    + rewrite IH by done.
      assert (({[c]} ∪ list_to_set l) ∖ alreadySeen
              = list_to_set l ∖ ({[c]} ∪ alreadySeen)) as -> by set_solver.
      done.
Qed.

Lemma wordScore_eq freqs word :
  WordCollection.wordScore freqs word
  = sumN (WordCollection.frequency freqs <$> elements (distinctLetters word))
    mod SIZE_MODULUS.
Proof.
  unfold WordCollection.wordScore. rewrite wordScore_loop by done.
  unfold distinctLetters. rewrite N.add_0_l.
  by assert (list_to_set (chars word) ∖ ∅ = (list_to_set (chars word) : gset ascii))
    as -> by set_solver.
Qed.

(** *** The sums stay below the number of characters of the pool *)

Lemma sumN_add {A} (f g : A → N) (l : list A) :
  sumN ((λ x, f x + g x) <$> l) = sumN (f <$> l) + sumN (g <$> l).
Proof.
  induction l as [|x l IH]; [done |].
  rewrite !fmap_cons, !sumN_cons, IH. lia.
Qed.

Lemma sumN_le {A} (f g : A → N) (l : list A) :
  (∀ x, x ∈ l → f x ≤ g x) → sumN (f <$> l) ≤ sumN (g <$> l).
Proof.
  induction l as [|x l IH]; intros Hle; [done |].
  rewrite !fmap_cons, !sumN_cons.
  pose proof (Hle x (list_elem_of_here _ _)).
  assert (sumN (f <$> l) ≤ sumN (g <$> l)); [| lia].
  apply IH. intros y Hy. apply Hle. by right.
Qed.

(** The order of two sums can be exchanged. *)
Lemma sumN_exchange {A B} (f : A → B → N) (la : list A) (lb : list B) :
  sumN ((λ a, sumN (f a <$> lb)) <$> la)
  = sumN ((λ b, sumN ((λ a, f a b) <$> la)) <$> lb).
Proof.
  induction la as [|a la IH].
  - simpl. induction lb as [|b lb IHb]; [done |].
    by rewrite fmap_cons, sumN_cons, <- IHb.
  - rewrite fmap_cons, sumN_cons, IH.
    rewrite <- sumN_add. f_equal.
Qed.

(** A character is at most one of pairwise different letters. *)
Lemma sumN_indicator (x : ascii) (letters : list ascii) :
  NoDup letters →
  sumN ((λ c, if decide (x = c) then 1 else 0) <$> letters) ≤ 1.
Proof.
  induction 1 as [|c letters Hfresh _ IH]; [done |].
  rewrite fmap_cons, sumN_cons. destruct (decide (x = c)) as [-> | Hne]; [| lia].
  assert (sumN ((λ c0, if decide (c = c0) then 1 else 0) <$> letters) = 0) as ->;
    [| lia].
  clear IH. induction letters as [|c' letters IH]; [done |].
  rewrite fmap_cons, sumN_cons.
  rewrite decide_False by (intros ->; apply Hfresh; by left).
  rewrite IH; [done |]. intros Hin. apply Hfresh. by right.
Qed.

(** The occurrences of pairwise different letters in a string add up to at
    most its length. *)
Lemma occurrences_distinct (letters : list ascii) (str : list ascii) :
  NoDup letters →
  sumN ((λ c, occurrences c str) <$> letters) ≤ N.of_nat (length str).
Proof.
  intros Hnodup. induction str as [|x str IH]; simpl.
  - assert (sumN ((λ c, occurrences c []) <$> letters) = 0) as ->; [| done].
    induction letters as [|c letters IHl]; [done |].
    rewrite fmap_cons, sumN_cons, IHl; [done |]. by apply NoDup_cons in Hnodup as [_ ?].
  - erewrite (list_fmap_ext (λ c, occurrences c (x :: str))
                (λ c, (if decide (x = c) then 1 else 0) + occurrences c str));
      [| intros _ c _; apply occurrences_cons].
    rewrite sumN_add. pose proof (sumN_indicator x letters Hnodup). lia.
Qed.

Lemma occurrenceSum_le pool word : occurrenceSum pool word ≤ poolLetters pool.
Proof.
  unfold occurrenceSum, poolOccurrences, poolLetters.
  rewrite (sumN_exchange (λ c word, occurrences c (chars word))).
  apply sumN_le. intros w _. unfold strlen. rewrite <- chars_length.
  apply occurrences_distinct, NoDup_elements.
Qed.

Lemma poolOccurrences_le pool c : poolOccurrences pool c ≤ poolLetters pool.
Proof.
  unfold poolOccurrences, poolLetters. apply sumN_le. intros w _.
  unfold strlen. rewrite <- chars_length. apply occurrences_le_length.
Qed.

Section Scores.
Context `{SetOrder}.

(** The frequency of a letter is the number of its occurrences in the words
    of the pool, every occurrence counted, as a [std::size_t]. *)
Lemma letterFrequencies_eq pool c :
  WordCollection.frequency (WordCollection.letterFrequencies pool) c
  = poolOccurrences pool c mod SIZE_MODULUS.
Proof.
  unfold WordCollection.letterFrequencies, poolOccurrences.
  rewrite (frequency_words _ _ c 0).
  - rewrite N.add_0_l. f_equal. apply sumN_perm, fmap_Permutation, iterate_perm.
  - by apply frequency_init.
Qed.

(** The score of a word is the sum of these frequencies over its distinct
    letters. *)
Lemma score_eq pool word : score pool word = occurrenceScore pool word.
Proof.
  unfold score, occurrenceScore, occurrenceSum. rewrite wordScore_eq.
  rewrite <- (sumN_mod (poolOccurrences pool)). f_equal. f_equal.
  apply list_fmap_ext. intros _ c _. apply letterFrequencies_eq.
Qed.

End Scores.

(** ** The failures that a turn can end on *)

Lemma assert_raised b e : assert b = Fail e → raised e.
Proof. destruct b; [done | by intros [= <-]]. Qed.

Lemma bind_raised {A B} (m : result A) (f : A → result B) e :
  (∀ e', m = Fail e' → raised e') →
  (∀ a, m = Ok a → f a = Fail e → raised e) →
  m ≫= f = Fail e → raised e.
Proof.
  destruct m as [a | e']; simpl; intros Hm Hf Hbind; [by eapply Hf |].
  injection Hbind as <-. by apply Hm.
Qed.

Lemma forEach_raised {A} (body : A → result unit) l e :
  (∀ x e', body x = Fail e' → raised e') →
  forEach body l = Fail e → raised e.
Proof.
  intros Hbody. induction l as [|x l IH]; simpl; [done |].
  apply bind_raised; [apply Hbody | by intros _ _].
Qed.

Lemma foldM_raised {A S} (body : S → A → result S) s l e :
  (∀ s' x e', body s' x = Fail e' → raised e') →
  foldM body s l = Fail e → raised e.
Proof.
  intros Hbody. revert s. induction l as [|x l IH]; intros s; simpl; [done |].
  apply bind_raised; [apply Hbody | intros s' _; apply IH].
Qed.

Lemma PositionConstraint_new_raised index letter shouldMatch e :
  PositionConstraint.new index letter shouldMatch = Fail e → raised e.
Proof.
  unfold PositionConstraint.new.
  apply bind_raised; [intros e'; apply assert_raised | intros _ _].
  apply bind_raised; [intros e'; apply assert_raised | by intros _ _].
Qed.

Lemma LetterCountConstraint_new_raised count letter min e :
  LetterCountConstraint.new count letter min = Fail e → raised e.
Proof.
  unfold LetterCountConstraint.new.
  apply bind_raised; [intros e'; apply assert_raised | intros _ _].
  apply bind_raised; [intros e'; apply assert_raised | by intros _ _].
Qed.

Lemma checkInput_raised guess feedback e :
  ConstraintCollection.checkInput guess feedback = Fail e → raised e.
Proof.
  unfold ConstraintCollection.checkInput.
  apply bind_raised; [intros e'; apply assert_raised | intros _ _].
  apply bind_raised.
  - intros e'. apply forEach_raised. intros c e''. apply assert_raised.
  - intros _ _. apply forEach_raised. intros c e''. apply assert_raised.
Qed.

Lemma generatePositionConstraints_raised guess feedback e :
  ConstraintCollection.generatePositionConstraints guess feedback = Fail e →
  raised e.
Proof.
  unfold ConstraintCollection.generatePositionConstraints.
  apply bind_raised; [intros e'; apply checkInput_raised | intros _ _].
  apply foldM_raised. intros constraints index e'.
  unfold ConstraintCollection.positionStep.
  apply bind_raised.
  - intros e''. case_bool_decide; [| done].
    apply bind_raised; [intros e3; apply PositionConstraint_new_raised | done].
  - intros constraints' _. case_bool_decide; [| done].
    apply bind_raised; [intros e3; apply PositionConstraint_new_raised | done].
Qed.

Lemma generateLetterCountConstraints_raised guess feedback e :
  ConstraintCollection.generateLetterCountConstraints guess feedback = Fail e →
  raised e.
Proof.
  unfold ConstraintCollection.generateLetterCountConstraints.
  apply bind_raised; [intros e'; apply checkInput_raised | intros _ _].
  apply foldM_raised. intros constraints index e'.
  unfold ConstraintCollection.letterCountStep.
  case_bool_decide.
  - apply bind_raised; [intros e3; apply LetterCountConstraint_new_raised | done].
  - case_bool_decide; [| done].
    apply bind_raised; [intros e3; apply LetterCountConstraint_new_raised | done].
Qed.

Lemma checkPositions_raised cs word good e :
  ConstraintCollection.checkPositions cs word good = Fail e → raised e.
Proof.
  revert good. induction cs as [|c cs IH]; intros good; simpl; [done |].
  destruct good; [| done].
  apply bind_raised; [| intros b _; apply IH].
  intros e'. unfold PositionConstraint.satisfies, checked_at.
  destruct (chars word !! _); simpl; [done | by intros [= <-]].
Qed.

Section Raised.
Context `{SetOrder}.

Lemma admitAll_raised guess feedback L e :
  Main.admitAll guess feedback L = Fail e → raised e.
Proof.
  unfold Main.admitAll.
  apply bind_raised; [intros e'; apply generatePositionConstraints_raised |].
  intros pcs _.
  apply bind_raised; [intros e'; apply generateLetterCountConstraints_raised |].
  by intros lcs _.
Qed.

Lemma processNewConstraints_raised candidates L e :
  ConstraintCollection.processNewConstraints candidates L = Fail e → raised e.
Proof.
  unfold ConstraintCollection.processNewConstraints, merge.
  apply bind_raised.
  - intros e'. apply foldM_raised. intros pool word e''.
    unfold ConstraintCollection.eraseUnless, ConstraintCollection.keeps.
    apply bind_raised; [| by intros good _].
    intros e3. apply bind_raised; [| by intros good _].
    intros e4. apply checkPositions_raised.
  - intros candidates' _.
    apply bind_raised; [intros e'; apply assert_raised | intros _ _].
    apply bind_raised; [intros e'; apply assert_raised | by intros _ _].
Qed.

End Raised.

(** ** Residues *)

(** Among the numbers below [m], those that are [k] modulo [n]. *)
Lemma count_residue (n k : N) (m : nat) :
  k < n →
  N.of_nat (length (filter (λ rnd : N, rnd mod n = k) (N.of_nat <$> seq 0 m)))
  = N.of_nat m / n + (if k <? N.of_nat m mod n then 1 else 0).
Proof.
  intros Hk. assert (n ≠ 0) as Hn by lia.
  induction m as [|m IH].
  - simpl. rewrite N.Div0.div_0_l, N.Div0.mod_0_l.
    destruct (k <? 0) eqn:Hlt; [apply N.ltb_lt in Hlt; lia | done].
  - rewrite seq_S, fmap_app, filter_app, length_app, Nat2N.inj_add, IH.
    simpl. rewrite filter_cons, filter_nil.
    pose proof (N.div_mod (N.of_nat m) n Hn) as Hdiv.
    pose proof (N.mod_upper_bound (N.of_nat m) n Hn) as Hmod.
    replace (N.of_nat (S m)) with (N.of_nat m + 1) by lia.
    destruct (decide (N.of_nat m mod n + 1 = n)) as [Hlast | Hlast].
    + rewrite <- (N.div_unique (N.of_nat m + 1) n (N.of_nat m / n + 1) 0)
        by lia.
      rewrite <- (N.mod_unique (N.of_nat m + 1) n (N.of_nat m / n + 1) 0)
        by lia.
      destruct (k <? 0) eqn:Hlt0; [apply N.ltb_lt in Hlt0; lia |].
      destruct (k <? N.of_nat m mod n) eqn:Hlt;
        [apply N.ltb_lt in Hlt | apply N.ltb_ge in Hlt];
        case_decide; simpl; lia.
    + rewrite <- (N.div_unique (N.of_nat m + 1) n (N.of_nat m / n)
                    (N.of_nat m mod n + 1)) by lia.
      rewrite <- (N.mod_unique (N.of_nat m + 1) n (N.of_nat m / n)
                    (N.of_nat m mod n + 1)) by lia.
      destruct (k <? N.of_nat m mod n + 1) eqn:Hlt1;
        [apply N.ltb_lt in Hlt1 | apply N.ltb_ge in Hlt1];
        (destruct (k <? N.of_nat m mod n) eqn:Hlt;
          [apply N.ltb_lt in Hlt | apply N.ltb_ge in Hlt]);
        case_decide; simpl; lia.
Qed.

(** ** Selection of the guess *)

Lemma consider_eq freqs (options0 : gset string) (score0 : N) word :
  WordCollection.consider freqs (options0, score0) word
  = if score0 <? WordCollection.wordScore freqs word
    then ({[word]}, WordCollection.wordScore freqs word)
    else if WordCollection.wordScore freqs word =? score0
         then ({[word]} ∪ options0, score0)
         else (options0, score0).
Proof. reflexivity. Qed.

(** The second pass, from any [bestOptions] and [bestScore]: the score that
    results is the greatest one met, and the options are the words that reach
    it. *)
Lemma consider_loop (freqs : gmap ascii N) l (options0 : gset string) (score0 : N) :
  ∃ options best,
    foldl (WordCollection.consider freqs) (options0, score0) l = (options, best)
    ∧ score0 ≤ best
    ∧ (∀ word, word ∈ l → WordCollection.wordScore freqs word ≤ best)
    ∧ (best = score0 ∨ ∃ word, word ∈ l ∧ WordCollection.wordScore freqs word = best)
    ∧ (∀ word, word ∈ options
               ↔ (word ∈ options0 ∧ best = score0)
                 ∨ (word ∈ l ∧ WordCollection.wordScore freqs word = best)).
Proof.
  revert options0 score0.
  induction l as [|x l IH]; intros options0 score0.
  - exists options0, score0. split_and!; [done | done | | by left |].
    + intros word Hword. by apply elem_of_nil in Hword.
    + intros word. split; [intros ?; by left |].
      intros [[? _] | [Hword _]]; [done | by apply elem_of_nil in Hword].
  - change (foldl (WordCollection.consider freqs) (options0, score0) (x :: l))
      with (foldl (WordCollection.consider freqs)
                  (WordCollection.consider freqs (options0, score0) x) l).
    rewrite consider_eq.
    destruct (score0 <? WordCollection.wordScore freqs x) eqn:Hlt;
      [apply N.ltb_lt in Hlt | apply N.ltb_ge in Hlt].
    + destruct (IH {[x]} (WordCollection.wordScore freqs x))
        as (options & best & -> & Hle & Hub & Hreach & Hmem).
      exists options, best. split_and!; [done | lia | | |].
      * intros word [-> | Hword]%elem_of_cons; [done | by apply Hub].
      * right. destruct Hreach as [-> | (word & Hword & Hbest)].
        -- exists x. split; [by left | done].
        -- exists word. split; [by right | done].
      * intros word. rewrite Hmem, elem_of_singleton, elem_of_cons. split.
        -- intros [[-> ->] | [Hword Hbest]]; right; [split; [by left | done] |].
           split; [by right | done].
        -- intros [[_ ->] | [[-> | Hword] Hbest]]; [lia | | by right].
           left. by split.
    + destruct (WordCollection.wordScore freqs x =? score0) eqn:Heq;
        [apply N.eqb_eq in Heq | apply N.eqb_neq in Heq].
      * destruct (IH ({[x]} ∪ options0) score0)
          as (options & best & -> & Hle & Hub & Hreach & Hmem).
        exists options, best. split_and!; [done | done | | |].
        -- intros word [-> | Hword]%elem_of_cons; [lia | by apply Hub].
        -- destruct Hreach as [-> | (word & Hword & Hbest)]; [by left |].
           right. exists word. split; [by right | done].
        -- intros word. rewrite Hmem, elem_of_union, elem_of_singleton, elem_of_cons.
           split.
           ++ intros [[[-> | Hword] ->] | [Hword Hbest]].
              ** right. split; [by left | done].
              ** by left.
              ** right. split; [by right | done].
           ++ intros [[Hword ->] | [[-> | Hword] Hbest]].
              ** left. split; [by right | done].
              ** left. split; [by left | congruence].
              ** by right.
      * destruct (IH options0 score0)
          as (options & best & -> & Hle & Hub & Hreach & Hmem).
        exists options, best. split_and!; [done | done | | |].
        -- intros word [-> | Hword]%elem_of_cons; [lia | by apply Hub].
        -- destruct Hreach as [-> | (word & Hword & Hbest)]; [by left |].
           right. exists word. split; [by right | done].
        -- intros word. rewrite Hmem, elem_of_cons. split.
           ++ intros [? | [Hword Hbest]]; [by left |].
              right. split; [by right | done].
           ++ intros [? | [[-> | Hword] Hbest]]; [by left | lia | by right].
Qed.

Section Selection.
Context `{SetOrder}.

(** The options among which [bestWord] draws are the maximal words. *)
Lemma bestOptions_maximal pool word :
  word ∈ (WordCollection.bestOptions pool).1 ↔ maximal pool word.
Proof.
  unfold WordCollection.bestOptions, maximal, score.
  destruct (consider_loop (WordCollection.letterFrequencies pool) (iterate pool) ∅ 0)
    as (options & best & -> & _ & Hub & Hreach & Hmem).
  simpl. rewrite Hmem. setoid_rewrite elem_of_iterate in Hub.
  setoid_rewrite elem_of_iterate in Hreach. rewrite elem_of_iterate. split.
  - intros [[Hword _] | [Hword Hbest]]; [by apply elem_of_empty in Hword |].
    split; [done |]. intros word' Hword'. rewrite Hbest. by apply Hub.
  - intros [Hword Hmax]. right. split; [done |].
    destruct Hreach as [-> | (word' & Hword' & <-)].
    + specialize (Hub word Hword). lia.
    + apply N.le_antisymm; [by apply Hub | by apply Hmax].
Qed.

Lemma bestOptions_nonempty pool :
  pool ≠ ∅ → (WordCollection.bestOptions pool).1 ≠ ∅.
Proof.
  intros [word Hword]%set_choose_L.
  unfold WordCollection.bestOptions.
  destruct (consider_loop (WordCollection.letterFrequencies pool) (iterate pool) ∅ 0)
    as (options & best & Heq & _ & Hub & Hreach & Hmem).
  rewrite Heq. simpl.
  setoid_rewrite elem_of_iterate in Hub. setoid_rewrite elem_of_iterate in Hreach.
  setoid_rewrite elem_of_iterate in Hmem.
  destruct Hreach as [-> | (word' & Hword' & Hbest)].
  - assert (word ∈ options); [| set_solver].
    apply Hmem. right. split; [done |]. specialize (Hub word Hword). lia.
  - assert (word' ∈ options); [| set_solver]. apply Hmem. by right.
Qed.

Lemma bestOptions_empty : (WordCollection.bestOptions ∅).1 = ∅.
Proof.
  apply set_eq. intros word. rewrite bestOptions_maximal. unfold maximal.
  set_solver.
Qed.

(** The value of [bestWord] on a pool that is not empty: the option at the
    position [rnd mod n] of the traversal of the [n] options. *)
Lemma bestWord_Ok pool rnd :
  pool ≠ ∅ →
  ∃ word,
    WordCollection.bestWord pool rnd = Ok word
    ∧ iterate (WordCollection.bestOptions pool).1
        !! N.to_nat (rnd mod N.of_nat (size (WordCollection.bestOptions pool).1))
      = Some word
    ∧ maximal pool word.
Proof.
  intros Hpool. unfold WordCollection.bestWord.
  pose proof (bestOptions_nonempty pool Hpool) as Hne.
  assert (size (WordCollection.bestOptions pool).1 ≠ 0%nat) as Hsize.
  { intros Hsize. by apply size_empty_inv, leibniz_equiv in Hsize. }
  destruct (N.of_nat (size (WordCollection.bestOptions pool).1) =? 0) eqn:Hzero;
    [apply N.eqb_eq in Hzero; lia |].
  destruct (lookup_lt_is_Some_2 (iterate (WordCollection.bestOptions pool).1)
              (N.to_nat (rnd mod N.of_nat (size (WordCollection.bestOptions pool).1))))
    as [word Hword].
  { rewrite length_iterate.
    pose proof (N.mod_upper_bound rnd
                  (N.of_nat (size (WordCollection.bestOptions pool).1))). lia. }
  exists word. rewrite Hword. split_and!; [done | done |].
  apply bestOptions_maximal, elem_of_iterate. by eapply list_elem_of_lookup_2.
Qed.

(** Every word returned is one of the options. *)
Lemma bestWord_in_options pool rnd word :
  WordCollection.bestWord pool rnd = Ok word →
  word ∈ (WordCollection.bestOptions pool).1.
Proof.
  intros Hbest. destruct (decide (pool = ∅)) as [-> | Hpool].
  - unfold WordCollection.bestWord in Hbest.
    by rewrite bestOptions_empty, size_empty in Hbest.
  - destruct (bestWord_Ok pool rnd Hpool) as (word' & Hbest' & _ & Hmax).
    apply bestOptions_maximal. congruence.
Qed.

(** The options are empty on the empty pool only. *)
Lemma bestOptions_empty_iff pool :
  (WordCollection.bestOptions pool).1 = ∅ ↔ pool = ∅.
Proof.
  split; [| intros ->; apply bestOptions_empty].
  intros Hoptions. destruct (decide (pool = ∅)) as [| Hpool]; [done |].
  by apply bestOptions_nonempty in Hpool.
Qed.

Lemma bestWord_empty rnd :
  WordCollection.bestWord ∅ rnd = Fail UndefinedBehaviour.
Proof.
  unfold WordCollection.bestWord. by rewrite bestOptions_empty, size_empty.
Qed.

(** A turn of the main loop ends on no undefined behaviour. *)
Lemma step_raised s rnd current_feedback e :
  Main.step s rnd current_feedback = Fail e → raised e.
Proof.
  unfold Main.step. case_bool_decide as Hpool; [done |].
  destruct (bestWord_Ok (Main.words s) rnd Hpool) as (guess & -> & _).
  simpl. case_bool_decide; [done |].
  apply bind_raised; [intros e'; apply admitAll_raised | intros L _].
  apply bind_raised; [intros e'; apply processNewConstraints_raised |].
  by intros [candidates L'] _.
Qed.

(** C3, as [bestWord] has it. The requirement of a pool that is not empty
    is met by the caller: the main loop tests the pool before the call and
    ends the game on an empty pool, whatever the other inputs, so that no
    turn ends on undefined behaviour. [bestWord] itself tests nothing and
    raises no error: its options are empty exactly on the empty pool, where
    the call ends on a remainder by zero, of undefined behaviour, and on
    every other pool it returns a word of the pool. *)
Theorem bestWord_empty_pool :
  (∀ pool, (WordCollection.bestOptions pool).1 = ∅ ↔ pool = ∅)
  ∧ (∀ pool rnd,
       WordCollection.bestWord pool rnd = Fail UndefinedBehaviour ↔ pool = ∅)
  ∧ (∀ pool rnd e, WordCollection.bestWord pool rnd = Fail e → ¬ raised e)
  ∧ (∀ pool rnd,
       (∃ word, WordCollection.bestWord pool rnd = Ok word ∧ word ∈ pool)
       ↔ pool ≠ ∅)
  ∧ (∀ L numGuesses rnd current_feedback,
       Main.step (Main.Build ∅ L numGuesses) rnd current_feedback
       = Ok Main.NoWordLeft)
  ∧ (∀ s rnd current_feedback e,
       Main.step s rnd current_feedback = Fail e → raised e).
Proof.
  assert (∀ pool rnd e,
            WordCollection.bestWord pool rnd = Fail e
            → pool = ∅ ∧ e = UndefinedBehaviour) as Hfail.
  { intros pool rnd e Hcall. destruct (decide (pool = ∅)) as [-> | Hpool].
    - rewrite bestWord_empty in Hcall. by injection Hcall as <-.
    - destruct (bestWord_Ok pool rnd Hpool) as (word & Hword & _). congruence. }
  split_and!.
  - apply bestOptions_empty_iff.
  - intros pool rnd. split; [intros Hcall; by destruct (Hfail _ _ _ Hcall) |].
    intros ->. apply bestWord_empty.
  - intros pool rnd e Hcall. destruct (Hfail _ _ _ Hcall) as [_ ->]. by intros [].
  - intros pool rnd. split.
    + intros (word & _ & Hword) ->. by apply elem_of_empty in Hword.
    + intros Hpool.
      destruct (bestWord_Ok pool rnd Hpool) as (word & Hbest & _ & Hword & _).
      by exists word.
  - intros L numGuesses rnd fb. unfold Main.step. simpl.
    by rewrite bool_decide_eq_true_2.
  - apply step_raised.
Qed.

(** C2, as [bestWord] has it. On a pool that is not empty [bestWord]
    returns a word of the pool of maximal score, where the frequency of a
    letter is the number of its occurrences in the words of the pool, every
    occurrence counted, and the score of a word is the sum of these
    frequencies over its distinct letters, a repeated letter adding once.
    The program computes both in [std::size_t]; they are the plain sums as
    long as the pool holds fewer than 2^64 characters. *)
Theorem bestWord_maximizes_occurrenceScore :
  (∀ pool c,
     WordCollection.frequency (WordCollection.letterFrequencies pool) c
     = poolOccurrences pool c mod SIZE_MODULUS)
  ∧ (∀ pool word, score pool word = occurrenceScore pool word)
  ∧ (∀ pool rnd,
       pool ≠ ∅ →
       ∃ word, WordCollection.bestWord pool rnd = Ok word
               ∧ word ∈ pool
               ∧ ∀ word', word' ∈ pool →
                          occurrenceScore pool word' ≤ occurrenceScore pool word)
  ∧ (∀ pool rnd,
       pool ≠ ∅ → poolLetters pool < SIZE_MODULUS →
       (∀ c, WordCollection.frequency (WordCollection.letterFrequencies pool) c
             = poolOccurrences pool c)
       ∧ (∀ word, score pool word = occurrenceSum pool word)
       ∧ ∃ word, WordCollection.bestWord pool rnd = Ok word
                 ∧ word ∈ pool
                 ∧ ∀ word', word' ∈ pool →
                            occurrenceSum pool word' ≤ occurrenceSum pool word).
Proof.
  assert (∀ pool rnd,
            pool ≠ ∅ →
            ∃ word, WordCollection.bestWord pool rnd = Ok word
                    ∧ word ∈ pool
                    ∧ ∀ word', word' ∈ pool →
                               occurrenceScore pool word' ≤ occurrenceScore pool word)
    as Hbest.
  { intros pool rnd Hpool.
    destruct (bestWord_Ok pool rnd Hpool) as (word & Hbest & _ & Hword & Hmax).
    exists word. split_and!; [done | done |].
    intros word' Hword'. rewrite <- !score_eq. by apply Hmax. }
  split_and!; [apply letterFrequencies_eq | apply score_eq | exact Hbest |].
  intros pool rnd Hpool Hsmall.
  assert (∀ word, occurrenceScore pool word = occurrenceSum pool word) as Hexact.
  { intros word. apply N.mod_small.
    pose proof (occurrenceSum_le pool word). lia. }
  split_and!.
  - intros c. rewrite letterFrequencies_eq. apply N.mod_small.
    pose proof (poolOccurrences_le pool c). lia.
  - intros word. by rewrite score_eq.
  - destruct (Hbest pool rnd Hpool) as (word & Hword & Hin & Hmax).
    exists word. split_and!; [done | done |].
    intros word' Hword'. rewrite <- !Hexact. by apply Hmax.
Qed.

(** The options of the draw are the words that tie for the occurrences of
    their letters. *)
Lemma bestOptions_occurrenceMaximal pool word :
  word ∈ (WordCollection.bestOptions pool).1 ↔ occurrenceMaximal pool word.
Proof.
  rewrite bestOptions_maximal. unfold maximal, occurrenceMaximal.
  by setoid_rewrite score_eq.
Qed.

(** The word at the position [k] of the traversal of the options, and the
    values of [rand ()] that select it. *)
Lemma bestWord_at pool word k :
  iterate (WordCollection.bestOptions pool).1 !! N.to_nat k = Some word →
  k < N.of_nat (size (WordCollection.bestOptions pool).1)
  ∧ occurrenceMaximal pool word
  ∧ ∀ rnd, WordCollection.bestWord pool rnd = Ok word
           ↔ rnd mod N.of_nat (size (WordCollection.bestOptions pool).1) = k.
Proof.
  intros Hk.
  pose proof (lookup_lt_Some _ _ _ Hk) as Hlt. rewrite length_iterate in Hlt.
  assert (occurrenceMaximal pool word) as Hmax.
  { apply bestOptions_occurrenceMaximal, elem_of_iterate.
    by eapply list_elem_of_lookup_2. }
  assert (pool ≠ ∅) as Hpool by (destruct Hmax; set_solver).
  split_and!; [lia | done |].
  intros rnd.
  destruct (bestWord_Ok pool rnd Hpool) as (word' & -> & Hlook & _). split.
  - intros [= ->].
    pose proof (NoDup_lookup _ _ _ _ (NoDup_iterate _) Hlook Hk). lia.
  - intros Hmod. rewrite Hmod in Hlook. congruence.
Qed.

(** Every tied word has such a position. *)
Lemma bestWord_position pool word :
  occurrenceMaximal pool word →
  ∃ k, k < N.of_nat (size (WordCollection.bestOptions pool).1)
       ∧ iterate (WordCollection.bestOptions pool).1 !! N.to_nat k = Some word
       ∧ ∀ rnd, WordCollection.bestWord pool rnd = Ok word
                ↔ rnd mod N.of_nat (size (WordCollection.bestOptions pool).1) = k.
Proof.
  intros Hmax.
  apply bestOptions_occurrenceMaximal, elem_of_iterate in Hmax.
  apply list_elem_of_lookup in Hmax as [i Hi].
  rewrite <- (Nat2N.id i) in Hi.
  destruct (bestWord_at pool word (N.of_nat i) Hi) as (Hlt & _ & Hiff).
  by exists (N.of_nat i).
Qed.

(** The number of values of [rand ()] that select the tied word at the
    position [k]. *)
Lemma selecting_length RAND_MAX pool word k :
  k < N.of_nat (size (WordCollection.bestOptions pool).1) →
  (∀ rnd, WordCollection.bestWord pool rnd = Ok word
          ↔ rnd mod N.of_nat (size (WordCollection.bestOptions pool).1) = k) →
  N.of_nat (length (selecting RAND_MAX pool word))
  = (RAND_MAX + 1) / N.of_nat (size (WordCollection.bestOptions pool).1)
    + (if k <? (RAND_MAX + 1) mod N.of_nat (size (WordCollection.bestOptions pool).1)
       then 1 else 0).
Proof.
  intros Hk Hiff. unfold selecting, randValues, indices.
  rewrite (list_filter_iff _ _ _ Hiff), count_residue by done.
  by rewrite N2Nat.id.
Qed.

(** When the number of tied words does not divide the number of values of
    [rand ()], the first word of the traversal is selected by one value more
    than the last. *)
Lemma selecting_uneven pool RAND_MAX :
  pool ≠ ∅ →
  (RAND_MAX + 1) mod N.of_nat (size (WordCollection.bestOptions pool).1) ≠ 0 →
  ∃ word1 word2,
    occurrenceMaximal pool word1 ∧ occurrenceMaximal pool word2
    ∧ length (selecting RAND_MAX pool word1)
      = S (length (selecting RAND_MAX pool word2)).
Proof.
  intros Hpool Hmod.
  set (n := N.of_nat (size (WordCollection.bestOptions pool).1)) in *.
  assert (n ≠ 0) as Hn.
  { pose proof (bestOptions_nonempty pool Hpool) as Hne. unfold n.
    intros Hsize. apply Hne, leibniz_equiv, size_empty_inv. lia. }
  pose proof (N.mod_upper_bound (RAND_MAX + 1) n Hn) as Hupper.
  destruct (lookup_lt_is_Some_2 (iterate (WordCollection.bestOptions pool).1)
              (N.to_nat 0)) as [word1 Hword1].
  { rewrite length_iterate. unfold n in Hn. lia. }
  destruct (lookup_lt_is_Some_2 (iterate (WordCollection.bestOptions pool).1)
              (N.to_nat (n - 1))) as [word2 Hword2].
  { rewrite length_iterate. unfold n in Hn |- *. lia. }
  destruct (bestWord_at pool word1 0 Hword1) as (Hlt1 & Hmax1 & Hiff1).
  destruct (bestWord_at pool word2 (n - 1) Hword2) as (Hlt2 & Hmax2 & Hiff2).
  pose proof (selecting_length RAND_MAX pool word1 0 Hlt1 Hiff1) as Hlen1.
  pose proof (selecting_length RAND_MAX pool word2 (n - 1) Hlt2 Hiff2) as Hlen2.
  fold n in Hlen1, Hlen2.
  exists word1, word2. split_and!; [done | done |].
  clear Hword1 Hword2 Hlt1 Hlt2 Hiff1 Hiff2. clearbody n.
  assert ((0 <? (RAND_MAX + 1) mod n) = true) as Hfirst.
  { apply N.ltb_lt. by apply N.neq_0_lt_0. }
  assert ((n - 1 <? (RAND_MAX + 1) mod n) = false) as Hlast.
  { apply N.ltb_ge. clear Hlen1 Hlen2 Hmod. lia. }
  rewrite Hfirst in Hlen1. rewrite Hlast in Hlen2. lia.
Qed.

(** C8, as [bestWord] has it. The words among which [bestWord] draws are
    the words of the pool that tie for the maximum of the score by
    occurrences (the plain sum on a pool of fewer than 2^64 characters), and
    every word returned is one of them. With [n] such words, each of them has
    a position [k < n] in the traversal of the options and is returned
    exactly when [rand ()] is [k] modulo [n]: one residue out of [n] for each
    tied word. Among the values 0, ..., [RAND_MAX] of [rand ()], a tied word
    is returned for some value exactly when its position is at most
    [RAND_MAX], which holds for all of them when [n <= RAND_MAX + 1], and
    the number of values that select it is the quotient of [RAND_MAX + 1] by
    [n], plus one when [k] is below the remainder: two tied words differ by
    one value at most, by none when [n] divides [RAND_MAX + 1], and otherwise
    some two of them differ by one. *)
Theorem bestWord_tie_break :
  (∀ pool word,
     word ∈ (WordCollection.bestOptions pool).1 ↔ occurrenceMaximal pool word)
  ∧ (∀ pool word,
       poolLetters pool < SIZE_MODULUS →
       occurrenceMaximal pool word
       ↔ word ∈ pool
         ∧ ∀ word', word' ∈ pool → occurrenceSum pool word' ≤ occurrenceSum pool word)
  ∧ (∀ pool rnd word,
       WordCollection.bestWord pool rnd = Ok word → occurrenceMaximal pool word)
  ∧ (∀ pool word RAND_MAX,
       occurrenceMaximal pool word →
       let n := N.of_nat (size (WordCollection.bestOptions pool).1) in
       ∃ k, k < n
            ∧ iterate (WordCollection.bestOptions pool).1 !! N.to_nat k = Some word
            ∧ WordCollection.bestWord pool k = Ok word
            ∧ (∀ rnd, WordCollection.bestWord pool rnd = Ok word ↔ rnd mod n = k)
            ∧ ((∃ rnd, rnd ≤ RAND_MAX ∧ WordCollection.bestWord pool rnd = Ok word)
               ↔ k ≤ RAND_MAX)
            ∧ N.of_nat (length (selecting RAND_MAX pool word))
              = (RAND_MAX + 1) / n + (if k <? (RAND_MAX + 1) mod n then 1 else 0))
  ∧ (∀ pool word1 word2 RAND_MAX,
       occurrenceMaximal pool word1 → occurrenceMaximal pool word2 →
       let n := N.of_nat (size (WordCollection.bestOptions pool).1) in
       (length (selecting RAND_MAX pool word1)
        ≤ length (selecting RAND_MAX pool word2) + 1)%nat
       ∧ ((RAND_MAX + 1) mod n = 0 →
          length (selecting RAND_MAX pool word1)
          = length (selecting RAND_MAX pool word2))
       ∧ (n ≤ RAND_MAX + 1 →
          ∃ rnd, rnd ≤ RAND_MAX ∧ WordCollection.bestWord pool rnd = Ok word1))
  ∧ (∀ pool RAND_MAX,
       pool ≠ ∅ →
       (RAND_MAX + 1) mod N.of_nat (size (WordCollection.bestOptions pool).1) ≠ 0 →
       ∃ word1 word2,
         occurrenceMaximal pool word1 ∧ occurrenceMaximal pool word2
         ∧ length (selecting RAND_MAX pool word1)
           = S (length (selecting RAND_MAX pool word2))).
Proof.
  assert (∀ pool word RAND_MAX,
            occurrenceMaximal pool word →
            ∃ k, k < N.of_nat (size (WordCollection.bestOptions pool).1)
                 ∧ WordCollection.bestWord pool k = Ok word
                 ∧ N.of_nat (length (selecting RAND_MAX pool word))
                   = (RAND_MAX + 1) / N.of_nat (size (WordCollection.bestOptions pool).1)
                     + (if k <? (RAND_MAX + 1)
                                mod N.of_nat (size (WordCollection.bestOptions pool).1)
                        then 1 else 0)) as Hcount.
  { intros pool word RAND_MAX Hmax.
    destruct (bestWord_position pool word Hmax) as (k & Hk & _ & Hiff).
    exists k. split_and!; [done | | by apply selecting_length].
    apply Hiff. apply N.mod_small. lia. }
  split_and!.
  - apply bestOptions_occurrenceMaximal.
  - intros pool word Hsmall. unfold occurrenceMaximal, occurrenceScore.
    assert (∀ w, occurrenceSum pool w mod SIZE_MODULUS = occurrenceSum pool w)
      as Hexact.
    { intros w. apply N.mod_small. pose proof (occurrenceSum_le pool w). lia. }
    by setoid_rewrite Hexact.
  - intros pool rnd word Hbest. destruct (decide (pool = ∅)) as [-> | Hpool].
    + by rewrite bestWord_empty in Hbest.
    + destruct (bestWord_Ok pool rnd Hpool) as (word' & Hbest' & _ & Hmax).
      apply bestOptions_occurrenceMaximal, bestOptions_maximal. congruence.
  - intros pool word RAND_MAX Hmax n.
    destruct (bestWord_position pool word Hmax) as (k & Hk & Hlook & Hiff).
    fold n in Hk, Hiff.
    assert (WordCollection.bestWord pool k = Ok word) as Hat.
    { apply Hiff. apply N.mod_small. lia. }
    exists k. split_and!; [done | done | done | done | |].
    + split; [| intros Hle; by exists k].
      intros (rnd & Hle & Hrnd). apply Hiff in Hrnd.
      pose proof (N.Div0.mod_le rnd n). lia.
    + by apply selecting_length.
  - intros pool word1 word2 RAND_MAX Hmax1 Hmax2 n.
    destruct (Hcount pool word1 RAND_MAX Hmax1) as (k1 & Hk1 & Hat1 & Hlen1).
    destruct (Hcount pool word2 RAND_MAX Hmax2) as (k2 & Hk2 & _ & Hlen2).
    fold n in Hk1, Hk2, Hlen1, Hlen2.
    split_and!.
    + destruct (k1 <? _), (k2 <? _); lia.
    + intros Hmod. rewrite Hmod in Hlen1, Hlen2.
      destruct (k1 <? 0) eqn:H1; [apply N.ltb_lt in H1; lia |].
      destruct (k2 <? 0) eqn:H2; [apply N.ltb_lt in H2; lia |]. lia.
    + intros Hn. exists k1. split; [lia | done].
  - apply selecting_uneven.
Qed.

End Selection.

(** ** The properties on concrete games *)

(** C2, as the specification has it, fails. In the pool MAMMA, MADAM,
    STERN, STEIN the letters M and A occur five and four times, in two words
    each: [bestWord] returns MADAM, whose score by the words that contain
    each letter is 5, below the 9 of STERN. *)
Lemma spec_bestWord_maximizes_fails : ¬ spec_bestWord_maximizes.
Proof.
  intros Hspec.
  destruct (Hspec elements_order {[ "MAMMA"; "MADAM"; "STERN"; "STEIN" ]} 0)
    as (word & Hbest & _ & Hmax); [compute_done |].
  assert (@WordCollection.bestWord elements_order
            {[ "MAMMA"; "MADAM"; "STERN"; "STEIN" ]} 0 = Ok "MADAM") as Hcode
    by compute_done.
  rewrite Hcode in Hbest. injection Hbest as <-.
  specialize (Hmax "STERN" ltac:(compute_done)).
  revert Hmax. compute_done.
Qed.

Lemma bestWord_maximizes_occurrenceScore_witness :
  ({[ "MAMMA"; "MADAM"; "STERN"; "STEIN" ]} : gset string) ≠ ∅
  ∧ poolLetters {[ "MAMMA"; "MADAM"; "STERN"; "STEIN" ]} < SIZE_MODULUS
  ∧ ∃ word,
      @WordCollection.bestWord elements_order
        {[ "MAMMA"; "MADAM"; "STERN"; "STEIN" ]} 3 = Ok word
      ∧ word ∈ ({[ "MAMMA"; "MADAM"; "STERN"; "STEIN" ]} : gset string)
      ∧ ∀ word', word' ∈ ({[ "MAMMA"; "MADAM"; "STERN"; "STEIN" ]} : gset string) →
                 occurrenceSum {[ "MAMMA"; "MADAM"; "STERN"; "STEIN" ]} word'
                 ≤ occurrenceSum {[ "MAMMA"; "MADAM"; "STERN"; "STEIN" ]} word.
Proof.
  assert (({[ "MAMMA"; "MADAM"; "STERN"; "STEIN" ]} : gset string) ≠ ∅) as Hpool
    by compute_done.
  assert (poolLetters {[ "MAMMA"; "MADAM"; "STERN"; "STEIN" ]} < SIZE_MODULUS)
    as Hsmall by compute_done.
  split_and!; [exact Hpool | exact Hsmall |].
  exact (proj2 (proj2 (proj2 (proj2 (proj2
           (@bestWord_maximizes_occurrenceScore elements_order)))
           {[ "MAMMA"; "MADAM"; "STERN"; "STEIN" ]} 3 Hpool Hsmall))).
Defined.

(** C3, as the specification has it, fails. On the empty pool [bestWord]
    raises no error: it has no test of the pool, and the call ends on the
    remainder of [rand ()] by zero. *)
Lemma spec_bestWord_EmptyPoolError_fails : ¬ spec_bestWord_EmptyPoolError.
Proof.
  intros Hspec. destruct (Hspec elements_order 7) as (e & Hcall & Hraised).
  assert (@WordCollection.bestWord elements_order ∅ 7 = Fail UndefinedBehaviour)
    as Hcode by compute_done.
  rewrite Hcode in Hcall. injection Hcall as <-. exact Hraised.
Qed.

Lemma bestWord_empty_pool_witness :
  @WordCollection.bestWord elements_order ∅ 7 = Fail UndefinedBehaviour
  ∧ ¬ raised UndefinedBehaviour
  ∧ @Main.step elements_order (Main.Build ∅ ConstraintCollection.empty 3) 7 "GYWWG"
    = Ok Main.NoWordLeft
  ∧ (∃ word, @WordCollection.bestWord elements_order {[ "CRANE" ]} 7 = Ok word
             ∧ word ∈ ({[ "CRANE" ]} : gset string))
  ∧ @Main.step elements_order
      (Main.Build {[ "CRANE" ]} ConstraintCollection.empty 0) 7 "GY"
    = Fail AssertionFailure
  ∧ raised AssertionFailure.
Proof.
  destruct (@bestWord_empty_pool elements_order)
    as (_ & Hundefined & Hnone & Hsome & Hguard & Hturn).
  assert (@WordCollection.bestWord elements_order ∅ 7 = Fail UndefinedBehaviour)
    as Hempty by (by apply Hundefined).
  assert (@Main.step elements_order
            (Main.Build {[ "CRANE" ]} ConstraintCollection.empty 0) 7 "GY"
          = Fail AssertionFailure) as Hstep by compute_done.
  split_and!;
    [exact Hempty | exact (Hnone _ _ _ Hempty) | apply Hguard | | exact Hstep
     | exact (Hturn _ _ _ _ Hstep)].
  apply Hsome. compute_done.
Defined.

(** C8, as the specification has it, fails. In the pool MAMMA, MADAM,
    STERN, STEIN the words STERN and STEIN tie for the maximum of the score
    by the words that contain each letter, 9, and [bestWord] returns neither
    of them for any value of [rand ()]: its only option is MADAM. *)
Lemma spec_bestWord_tie_break_fails : ¬ spec_bestWord_tie_break.
Proof.
  intros Hspec.
  destruct (Hspec elements_order {[ "MAMMA"; "MADAM"; "STERN"; "STEIN" ]} "STERN")
    as [rnd Hbest].
  { split; [compute_done |]. intros word' Hword'. set_unfold in Hword'.
    destruct_or!; subst word'; compute_done. }
  apply bestWord_in_options in Hbest. revert Hbest. compute_done.
Qed.

(** The draw is by the remainder of [rand ()], which is not uniform either
    when the number of tied words does not divide [RAND_MAX + 1]: CRATE,
    TRACE and REACT tie for both scores, and of the 2147483648 values of the
    [rand ()] of the GNU C library one of them gets one value less than
    another. *)
Lemma spec_bestWord_uniform_fails : ¬ spec_bestWord_uniform.
Proof.
  intros Hspec.
  destruct (@selecting_uneven elements_order {[ "CRATE"; "TRACE"; "REACT" ]}
              2147483647)
    as (word1 & word2 & [Hword1 _] & [Hword2 _] & Hlen);
    [compute_done | compute_done |].
  assert (∀ word, word ∈ ({[ "CRATE"; "TRACE"; "REACT" ]} : gset string) →
                  spec_maximal {[ "CRATE"; "TRACE"; "REACT" ]} word) as Hmax.
  { intros word Hword. split; [done |]. intros word' Hword'.
    set_unfold in Hword. set_unfold in Hword'.
    destruct_or!; subst word word'; compute_done. }
  specialize (Hspec elements_order 2147483647 _ _ _ (Hmax _ Hword1) (Hmax _ Hword2)).
  lia.
Qed.

Lemma bestWord_tie_break_witness :
  occurrenceMaximal {[ "CRATE"; "TRACE"; "REACT"; "GRADE" ]} "TRACE"
  ∧ occurrenceMaximal {[ "CRATE"; "TRACE"; "REACT"; "GRADE" ]} "REACT"
  ∧ (∃ k, k < N.of_nat (size (@WordCollection.bestOptions elements_order
                                {[ "CRATE"; "TRACE"; "REACT"; "GRADE" ]}).1)
          ∧ iterate (SetOrder := elements_order)
              (@WordCollection.bestOptions elements_order
                 {[ "CRATE"; "TRACE"; "REACT"; "GRADE" ]}).1 !! N.to_nat k
            = Some "TRACE"
          ∧ @WordCollection.bestWord elements_order
              {[ "CRATE"; "TRACE"; "REACT"; "GRADE" ]} k = Ok "TRACE"
          ∧ (∀ rnd,
               @WordCollection.bestWord elements_order
                 {[ "CRATE"; "TRACE"; "REACT"; "GRADE" ]} rnd = Ok "TRACE"
               ↔ rnd mod N.of_nat (size (@WordCollection.bestOptions elements_order
                                           {[ "CRATE"; "TRACE"; "REACT"; "GRADE" ]}).1)
                 = k)
          ∧ ((∃ rnd, rnd ≤ 32767
                     ∧ @WordCollection.bestWord elements_order
                         {[ "CRATE"; "TRACE"; "REACT"; "GRADE" ]} rnd = Ok "TRACE")
             ↔ k ≤ 32767)
          ∧ N.of_nat (length (selecting (H := elements_order) 32767
                                {[ "CRATE"; "TRACE"; "REACT"; "GRADE" ]} "TRACE"))
            = (32767 + 1)
              / N.of_nat (size (@WordCollection.bestOptions elements_order
                                  {[ "CRATE"; "TRACE"; "REACT"; "GRADE" ]}).1)
              + (if k <? (32767 + 1)
                         mod N.of_nat (size (@WordCollection.bestOptions elements_order
                                               {[ "CRATE"; "TRACE"; "REACT"; "GRADE" ]}).1)
                 then 1 else 0))
  ∧ (length (selecting (H := elements_order) 32767
               {[ "CRATE"; "TRACE"; "REACT"; "GRADE" ]} "TRACE")
     ≤ length (selecting (H := elements_order) 32767
                 {[ "CRATE"; "TRACE"; "REACT"; "GRADE" ]} "REACT") + 1)%nat
  ∧ ({[ "CRATE"; "TRACE"; "REACT"; "GRADE" ]} : gset string) ≠ ∅
  ∧ (32767 + 1) mod N.of_nat (size (@WordCollection.bestOptions elements_order
                                      {[ "CRATE"; "TRACE"; "REACT"; "GRADE" ]}).1)
    ≠ 0
  ∧ ∃ word1 word2,
      occurrenceMaximal {[ "CRATE"; "TRACE"; "REACT"; "GRADE" ]} word1
      ∧ occurrenceMaximal {[ "CRATE"; "TRACE"; "REACT"; "GRADE" ]} word2
      ∧ length (selecting (H := elements_order) 32767
                  {[ "CRATE"; "TRACE"; "REACT"; "GRADE" ]} word1)
        = S (length (selecting (H := elements_order) 32767
                       {[ "CRATE"; "TRACE"; "REACT"; "GRADE" ]} word2)).
Proof.
  assert (∀ word, word ∈ ({[ "CRATE"; "TRACE"; "REACT" ]} : gset string) →
                  occurrenceMaximal {[ "CRATE"; "TRACE"; "REACT"; "GRADE" ]} word)
    as Hmax.
  { intros word Hword. split; [set_solver |]. intros word' Hword'.
    set_unfold in Hword. set_unfold in Hword'.
    destruct_or!; subst word word'; compute_done. }
  assert (occurrenceMaximal {[ "CRATE"; "TRACE"; "REACT"; "GRADE" ]} "TRACE")
    as Hmax1 by (apply Hmax; set_solver).
  assert (occurrenceMaximal {[ "CRATE"; "TRACE"; "REACT"; "GRADE" ]} "REACT")
    as Hmax2 by (apply Hmax; set_solver).
  assert (({[ "CRATE"; "TRACE"; "REACT"; "GRADE" ]} : gset string) ≠ ∅) as Hpool
    by compute_done.
  assert ((32767 + 1)
          mod N.of_nat (size (@WordCollection.bestOptions elements_order
                                {[ "CRATE"; "TRACE"; "REACT"; "GRADE" ]}).1) ≠ 0)
    as Huneven by compute_done.
  destruct (@bestWord_tie_break elements_order)
    as (_ & _ & _ & Hdraw & Hfair & Hbias).
  split_and!; [exact Hmax1 | exact Hmax2 | | | exact Hpool | exact Huneven |].
  - exact (Hdraw {[ "CRATE"; "TRACE"; "REACT"; "GRADE" ]} "TRACE" 32767 Hmax1).
  - exact (proj1 (Hfair {[ "CRATE"; "TRACE"; "REACT"; "GRADE" ]}
                        "TRACE" "REACT" 32767 Hmax1 Hmax2)).
  - exact (Hbias {[ "CRATE"; "TRACE"; "REACT"; "GRADE" ]} 32767 Hpool Huneven).
Defined.

(** The pool CRATE, CRANE, GRADE, TRACE after the guess TRACE and the
    feedback that the secret CRANE gives. *)
Lemma processNewConstraints_sound_witness :
  run (H := elements_order)
      [ AdmitPosition (PositionConstraint.Build 1 "R" true);
        AdmitPosition (PositionConstraint.Build 2 "A" true);
        AdmitPosition (PositionConstraint.Build 3 "C" false);
        AdmitPosition (PositionConstraint.Build 4 "E" true);
        AdmitLetterCount (LetterCountConstraint.Build 0 "T" false);
        AdmitLetterCount (LetterCountConstraint.Build 1 "C" true);
        ApplyPending ]
      ({[ "CRATE"; "CRANE"; "GRADE"; "TRACE" ]}, ConstraintCollection.empty)
  = Ok ({[ "CRANE" ]},
        ConstraintCollection.Build
          {[ PositionConstraint.Build 1 "R" true;
             PositionConstraint.Build 2 "A" true;
             PositionConstraint.Build 3 "C" false;
             PositionConstraint.Build 4 "E" true ]}
          {[ LetterCountConstraint.Build 0 "T" false;
             LetterCountConstraint.Build 1 "C" true ]}
          ∅ ∅)
  ∧ sound {[ "CRANE" ]}
      (ConstraintCollection.Build
          {[ PositionConstraint.Build 1 "R" true;
             PositionConstraint.Build 2 "A" true;
             PositionConstraint.Build 3 "C" false;
             PositionConstraint.Build 4 "E" true ]}
          {[ LetterCountConstraint.Build 0 "T" false;
             LetterCountConstraint.Build 1 "C" true ]}
          ∅ ∅)
  ∧ wordsOfLength {[ "CRATE"; "CRANE" ]}
  ∧ Forall constructible
      [ AdmitPosition (PositionConstraint.Build 4 "E" true); ApplyPending ]
  ∧ ∃ pool' L',
      run (H := elements_order)
          [ AdmitPosition (PositionConstraint.Build 4 "E" true); ApplyPending ]
          ({[ "CRATE"; "CRANE" ]}, ConstraintCollection.empty)
      = Ok (pool', L')
      ∧ sound pool' L'.
Proof.
  match goal with |- ?P ∧ _ => assert P as Hrun by compute_done end.
  assert (wordsOfLength {[ "CRATE"; "CRANE" ]}) as Hwords.
  { intros word Hword. set_unfold in Hword. destruct_or!; subst word; reflexivity. }
  assert (Forall constructible
            [ AdmitPosition (PositionConstraint.Build 4 "E" true); ApplyPending ])
    as Hactions.
  { repeat constructor. }
  destruct (@processNewConstraints_sound elements_order)
    as (_ & Hfrom_empty & Hreturns & _).
  split_and!; [exact Hrun | | exact Hwords | exact Hactions |].
  - exact (Hfrom_empty _ _ _ _ Hrun).
  - exact (Hreturns _ _ Hwords Hactions).
Defined.

Lemma admission_idempotent_witness :
  run (H := elements_order)
      [ AdmitLetterCount (LetterCountConstraint.Build 0 "T" false); ApplyPending ]
      ({[ "CRATE"; "CRANE" ]},
       ConstraintCollection.addPositionConstraint
         (PositionConstraint.Build 4 "E" true) ConstraintCollection.empty)
  = Ok ({[ "CRANE" ]},
        ConstraintCollection.Build
          {[ PositionConstraint.Build 4 "E" true ]}
          {[ LetterCountConstraint.Build 0 "T" false ]} ∅ ∅)
  ∧ ApplyPending
    ∈ [ AdmitLetterCount (LetterCountConstraint.Build 0 "T" false); ApplyPending ]
  ∧ ConstraintCollection.addPositionConstraint
      (PositionConstraint.Build 4 "E" true)
      (ConstraintCollection.Build
          {[ PositionConstraint.Build 4 "E" true ]}
          {[ LetterCountConstraint.Build 0 "T" false ]} ∅ ∅)
    = ConstraintCollection.Build
          {[ PositionConstraint.Build 4 "E" true ]}
          {[ LetterCountConstraint.Build 0 "T" false ]} ∅ ∅
  ∧ PositionConstraint.Build 4 "E" true
    ∈ ({[ PositionConstraint.Build 4 "E" true ]} : gset PositionConstraint.t)
  ∧ PositionConstraint.Build 4 "E" true ∉ (∅ : gset PositionConstraint.t).
Proof.
  match goal with |- ?P ∧ _ => assert P as Hrun by compute_done end.
  assert (ApplyPending
          ∈ [ AdmitLetterCount (LetterCountConstraint.Build 0 "T" false);
              ApplyPending ]) as Hcall.
  { right. left. }
  destruct (@admission_idempotent elements_order)
    as (_ & _ & _ & _ & Hposition & _).
  destruct (Hposition _ _ _ _ _ _ Hrun) as [Hsame Hretired].
  destruct (Hretired Hcall) as [Hfinished Hnew].
  split_and!; [exact Hrun | exact Hcall | exact Hsame | exact Hfinished | exact Hnew].
Defined.

Lemma pool_monotone_witness :
  run (H := elements_order)
      [ AdmitPosition (PositionConstraint.Build 3 "C" false);
        AdmitLetterCount (LetterCountConstraint.Build 0 "T" false);
        ApplyPending ]
      ({[ "CRATE"; "CRANE"; "GRADE"; "TRACE" ]}, ConstraintCollection.empty)
  = Ok ({[ "CRANE"; "GRADE" ]},
        ConstraintCollection.Build
          {[ PositionConstraint.Build 3 "C" false ]}
          {[ LetterCountConstraint.Build 0 "T" false ]} ∅ ∅)
  ∧ ({[ "CRANE"; "GRADE" ]} : gset string) ⊆ {[ "CRATE"; "CRANE"; "GRADE"; "TRACE" ]}
  ∧ (size ({[ "CRANE"; "GRADE" ]} : gset string)
     ≤ size ({[ "CRATE"; "CRANE"; "GRADE"; "TRACE" ]} : gset string))%nat.
Proof.
  match goal with |- ?P ∧ _ => assert P as Hrun by compute_done end.
  split; [exact Hrun |].
  exact (proj1 (proj2 (@pool_monotone elements_order)) _ _ _ _ _ Hrun).
Defined.

(** * Further properties of the program *)

(** ** The satisfaction rules *)

Lemma occurrences_perm letter (l1 l2 : list ascii) :
  l1 ≡ₚ l2 → occurrences letter l1 = occurrences letter l2.
Proof. intros Hperm. unfold occurrences. by rewrite Hperm. Qed.

Lemma LetterCountConstraint_satisfies_eq c str :
  LetterCountConstraint.satisfies c str
  = let amt := occurrences (LetterCountConstraint.m_letter c) (chars str)
               mod USHRT_MODULUS in
    if LetterCountConstraint.m_min c
    then LetterCountConstraint.m_count c <=? amt
    else amt <=? LetterCountConstraint.m_count c.
Proof.
  unfold LetterCountConstraint.satisfies. by rewrite countLetter_mod.
Qed.

(** X1. The letter-count rule compares the count of the constraint with the
    number of occurrences of the letter in the word, reduced as the
    [unsigned short] that counts them; on a word of fewer than 65536
    characters this is the number of occurrences itself: a minimum
    constraint holds when the letter occurs at least [m_count] times, a
    maximum constraint when it occurs at most [m_count] times. *)
Theorem LetterCountConstraint_satisfies_occurrences c str :
  LetterCountConstraint.satisfies c str
  = (let amt := occurrences (LetterCountConstraint.m_letter c) (chars str)
                mod USHRT_MODULUS in
     if LetterCountConstraint.m_min c
     then LetterCountConstraint.m_count c <=? amt
     else amt <=? LetterCountConstraint.m_count c)
  ∧ (strlen str < USHRT_MODULUS →
     LetterCountConstraint.satisfies c str
     = if LetterCountConstraint.m_min c
       then LetterCountConstraint.m_count c
            <=? occurrences (LetterCountConstraint.m_letter c) (chars str)
       else occurrences (LetterCountConstraint.m_letter c) (chars str)
            <=? LetterCountConstraint.m_count c).
Proof.
  split; [apply LetterCountConstraint_satisfies_eq |].
  intros Hlen. rewrite LetterCountConstraint_satisfies_eq. simpl.
  rewrite N.mod_small; [done |].
  pose proof (occurrences_le_length (LetterCountConstraint.m_letter c) (chars str))
    as Hle.
  rewrite chars_length in Hle. unfold strlen in Hlen. lia.
Qed.

Lemma LetterCountConstraint_satisfies_occurrences_witness :
  strlen "ALLOW" < USHRT_MODULUS
  ∧ LetterCountConstraint.satisfies (LetterCountConstraint.Build 2 "L" true) "ALLOW"
    = (2 <=? occurrences "L" (chars "ALLOW")).
Proof.
  assert (strlen "ALLOW" < USHRT_MODULUS) as Hlen by compute_done.
  split; [exact Hlen |].
  exact (proj2 (LetterCountConstraint_satisfies_occurrences
                  (LetterCountConstraint.Build 2 "L" true) "ALLOW") Hlen).
Defined.

Lemma PositionConstraint_satisfies_in_range c str :
  PositionConstraint.m_index c < strlen str →
  PositionConstraint.satisfies c str
  = Ok (Bool.eqb (bool_decide (char_at str (PositionConstraint.m_index c)
                               = PositionConstraint.m_letter c))
                 (PositionConstraint.m_shouldMatch c)).
Proof.
  intros Hin. unfold PositionConstraint.satisfies, checked_at, char_at.
  destruct (lookup_lt_is_Some_2 (chars str)
              (N.to_nat (PositionConstraint.m_index c))) as [x ->]; [| done].
  rewrite chars_length. unfold strlen in Hin. lia.
Qed.

Lemma PositionConstraint_satisfies_out_of_range c str :
  strlen str ≤ PositionConstraint.m_index c →
  PositionConstraint.satisfies c str = Fail OutOfRange.
Proof.
  intros Hout. unfold PositionConstraint.satisfies, checked_at.
  rewrite lookup_ge_None_2; [done |].
  rewrite chars_length. unfold strlen in Hout. lia.
Qed.

(** X2. The position rule throws [std::out_of_range] exactly on the words
    that are too short for the index of the constraint; on every other word
    it returns whether the character at the index is the letter, for a
    must-equal constraint, or is not, for a must-not-equal one. *)
Theorem PositionConstraint_satisfies_bounds c str :
  (PositionConstraint.satisfies c str = Fail OutOfRange
   ↔ strlen str ≤ PositionConstraint.m_index c)
  ∧ (PositionConstraint.m_index c < strlen str →
     PositionConstraint.satisfies c str
     = Ok (Bool.eqb (bool_decide (char_at str (PositionConstraint.m_index c)
                                  = PositionConstraint.m_letter c))
                    (PositionConstraint.m_shouldMatch c))).
Proof.
  split; [| apply PositionConstraint_satisfies_in_range].
  split; [| apply PositionConstraint_satisfies_out_of_range].
  intros Hfail.
  destruct (N.le_gt_cases (strlen str) (PositionConstraint.m_index c))
    as [Hle | Hgt]; [done |].
  rewrite PositionConstraint_satisfies_in_range in Hfail by done. discriminate.
Qed.

Lemma PositionConstraint_satisfies_bounds_witness :
  PositionConstraint.m_index (PositionConstraint.Build 3 "N" true) < strlen "CRANE"
  ∧ PositionConstraint.satisfies (PositionConstraint.Build 3 "N" true) "CRANE"
    = Ok true
  ∧ PositionConstraint.satisfies (PositionConstraint.Build 3 "N" true) "CRA"
    = Fail OutOfRange.
Proof.
  assert (PositionConstraint.m_index (PositionConstraint.Build 3 "N" true)
          < strlen "CRANE") as Hin by compute_done.
  destruct (PositionConstraint_satisfies_bounds
              (PositionConstraint.Build 3 "N" true) "CRANE") as [_ Hvalue].
  destruct (PositionConstraint_satisfies_bounds
              (PositionConstraint.Build 3 "N" true) "CRA") as [[_ Hthrow] _].
  split_and!; [exact Hin | exact (Hvalue Hin) | apply Hthrow; compute_done].
Defined.

(** X3. A word and its anagrams satisfy the same letter-count constraints:
    the rule depends on the letters of the word, not on their places. *)
Theorem LetterCountConstraint_satisfies_anagram c str1 str2 :
  chars str1 ≡ₚ chars str2 →
  LetterCountConstraint.satisfies c str1 = LetterCountConstraint.satisfies c str2.
Proof.
  intros Hperm. rewrite !LetterCountConstraint_satisfies_eq.
  by rewrite (occurrences_perm _ _ _ Hperm).
Qed.

Lemma LetterCountConstraint_satisfies_anagram_witness :
  chars "CRATE" ≡ₚ chars "TRACE"
  ∧ LetterCountConstraint.satisfies (LetterCountConstraint.Build 1 "T" true) "CRATE"
    = LetterCountConstraint.satisfies (LetterCountConstraint.Build 1 "T" true) "TRACE".
Proof.
  assert (chars "CRATE" ≡ₚ chars "TRACE") as Hperm.
  { apply (bool_decide_unpack _). by vm_compute. }
  split; [exact Hperm |].
  exact (LetterCountConstraint_satisfies_anagram
           (LetterCountConstraint.Build 1 "T" true) "CRATE" "TRACE" Hperm).
Defined.

(** ** Opposite constraints *)

Section Opposite.
Context `{SetOrder}.

(** The words that a call keeps are the words of the pool that satisfy
    every New constraint. *)
Lemma processNewConstraints_filter pool L pool' L' :
  ConstraintCollection.processNewConstraints pool L = Ok (pool', L') →
  ∀ word, word ∈ pool'
          ↔ word ∈ pool
            ∧ satisfiesAll (ConstraintCollection.m_newPositionConstraints L)
                           (ConstraintCollection.m_newLetterCountConstraints L)
                           word.
Proof.
  intros [Hpool _]%processNewConstraints_Ok word.
  rewrite Hpool, keeps_true. reflexivity.
Qed.

(** X4. The two position constraints on one index and one letter exclude
    each other: a word that satisfies the one violates the other. So do the
    minimum constraint "at least [count + 1]" and the maximum constraint "at
    most [count]" on one letter. A call of [processNewConstraints] with such
    a pair among the New constraints leaves the pool empty. *)
Theorem opposite_constraints :
  (∀ index letter str b,
     PositionConstraint.satisfies (PositionConstraint.Build index letter true) str
     = Ok b →
     PositionConstraint.satisfies (PositionConstraint.Build index letter false) str
     = Ok (negb b))
  ∧ (∀ count letter str,
       LetterCountConstraint.satisfies
         (LetterCountConstraint.Build (count + 1) letter true) str
       = negb (LetterCountConstraint.satisfies
                 (LetterCountConstraint.Build count letter false) str))
  ∧ (∀ pool L pool' L' index letter,
       PositionConstraint.Build index letter true
       ∈ ConstraintCollection.m_newPositionConstraints L →
       PositionConstraint.Build index letter false
       ∈ ConstraintCollection.m_newPositionConstraints L →
       ConstraintCollection.processNewConstraints pool L = Ok (pool', L') →
       pool' = ∅)
  ∧ (∀ pool L pool' L' count letter,
       LetterCountConstraint.Build (count + 1) letter true
       ∈ ConstraintCollection.m_newLetterCountConstraints L →
       LetterCountConstraint.Build count letter false
       ∈ ConstraintCollection.m_newLetterCountConstraints L →
       ConstraintCollection.processNewConstraints pool L = Ok (pool', L') →
       pool' = ∅).
Proof.
  assert (∀ index letter str b,
     PositionConstraint.satisfies (PositionConstraint.Build index letter true) str
     = Ok b →
     PositionConstraint.satisfies (PositionConstraint.Build index letter false) str
     = Ok (negb b)) as Hposition.
  { intros index letter str b. unfold PositionConstraint.satisfies. simpl.
    destruct (checked_at str index) as [x | e]; simpl; [| done].
    intros [= <-]. by destruct (bool_decide (x = letter)). }
  assert (∀ count letter str,
       LetterCountConstraint.satisfies
         (LetterCountConstraint.Build (count + 1) letter true) str
       = negb (LetterCountConstraint.satisfies
                 (LetterCountConstraint.Build count letter false) str)) as Hcount.
  { intros count letter str. unfold LetterCountConstraint.satisfies. simpl.
    destruct (N.leb_spec (count + 1) (LetterCountConstraint.countLetter letter (chars str) 0));
      destruct (N.leb_spec (LetterCountConstraint.countLetter letter (chars str) 0) count);
      simpl; try done; lia. }
  split_and!; [exact Hposition | exact Hcount | |].
  - intros pool L pool' L' index letter Hyes Hno Hcall.
    apply set_eq. intros word. rewrite (processNewConstraints_filter _ _ _ _ Hcall).
    split; [| by intros ?%elem_of_empty].
    intros [_ [HallP _]]. pose proof (Hposition _ _ _ _ (HallP _ Hyes)) as Hneg.
    rewrite (HallP _ Hno) in Hneg. discriminate.
  - intros pool L pool' L' count letter Hmin Hmax Hcall.
    apply set_eq. intros word. rewrite (processNewConstraints_filter _ _ _ _ Hcall).
    split; [| by intros ?%elem_of_empty].
    intros [_ [_ HallL]]. pose proof (Hcount count letter word) as Hneg.
    rewrite (HallL _ Hmin), (HallL _ Hmax) in Hneg. discriminate.
Qed.

End Opposite.

Lemma opposite_constraints_witness :
  PositionConstraint.satisfies (PositionConstraint.Build 0 "C" true) "CRANE"
  = Ok true
  ∧ PositionConstraint.satisfies (PositionConstraint.Build 0 "C" false) "CRANE"
    = Ok false.
Proof.
  assert (PositionConstraint.satisfies
            (PositionConstraint.Build 0 "C" true) "CRANE" = Ok true) as Hyes
    by compute_done.
  split; [exact Hyes |].
  exact (proj1 (@opposite_constraints elements_order) 0 "C"%char "CRANE" true Hyes).
Defined.

(** ** Equality and hashing *)

Lemma isCapital_code (c : ascii) :
  isCapital c → 65 ≤ N_of_ascii c ≤ 90.
Proof.
  unfold isCapital, char_le. intros [H1 H2]%andb_prop_elim.
  apply Is_true_true, N.leb_le in H1. apply Is_true_true, N.leb_le in H2.
  change (N_of_ascii "A") with 65 in H1. change (N_of_ascii "Z") with 90 in H2.
  lia.
Qed.

Lemma char_value_capital (c : ascii) :
  isCapital c → char_value c = Z.of_N (N_of_ascii c).
Proof.
  intros Hc%isCapital_code. unfold char_value. simpl.
  destruct (Z.ltb_spec (Z.of_N (N_of_ascii c)) 128); [done | lia].
Qed.

Lemma N_of_ascii_inj (a b : ascii) : N_of_ascii a = N_of_ascii b → a = b.
Proof.
  intros Heq. rewrite <- (ascii_N_embedding a), <- (ascii_N_embedding b).
  by rewrite Heq.
Qed.

Lemma to_size_small (z : Z) :
  (0 ≤ z < 2000)%Z → to_size z = Z.to_N z.
Proof.
  intros Hz. unfold to_size. rewrite Z.mod_small; [done |].
  change (Z.of_N SIZE_MODULUS) with 18446744073709551616%Z. lia.
Qed.

(** X5. [operator==] of the position constraints holds exactly between
    equal triples, and their hash has no collision: two constraints that the
    constructor returns and that have the same hash are equal. The hash of
    such a constraint is below 1455. *)
Theorem position_hash_perfect :
  (∀ c other, position_equal c other = true ↔ c = other)
  ∧ (∀ c other,
       constructedPosition c → constructedPosition other →
       position_hash c = position_hash other → c = other)
  ∧ (∀ c, constructedPosition c → 325 ≤ position_hash c < 1455).
Proof.
  assert (∀ c, constructedPosition c →
            position_hash c
            = PositionConstraint.m_index c
              + N_of_ascii (PositionConstraint.m_letter c) * 5
              + (if PositionConstraint.m_shouldMatch c then 1000 else 0))
    as Hhash.
  { intros [index letter flag] [Hindex Hletter]. simpl in *.
    unfold position_hash. simpl. rewrite char_value_capital by done.
    apply isCapital_code in Hletter. unfold WORD_LENGTH in Hindex.
    rewrite to_size_small by (destruct flag; lia). destruct flag; lia. }
  split_and!.
  - intros [i1 l1 f1] [i2 l2 f2]. unfold position_equal. simpl. split.
    + intros [[Hi Hl]%andb_prop Hf]%andb_prop.
      apply N.eqb_eq in Hi. apply bool_decide_eq_true in Hl.
      apply Bool.eqb_prop in Hf. by subst.
    + intros [= -> -> ->]. rewrite N.eqb_refl, bool_decide_eq_true_2 by done.
      by destruct f2.
  - intros c other Hc Hother. rewrite (Hhash c Hc), (Hhash other Hother).
    destruct c as [i1 l1 f1], other as [i2 l2 f2].
    destruct Hc as [Hi1 Hl1], Hother as [Hi2 Hl2]. simpl in *.
    apply isCapital_code in Hl1 as Hcode1. apply isCapital_code in Hl2 as Hcode2.
    unfold WORD_LENGTH in *. intros Heq.
    assert (f1 = f2) as -> by (destruct f1, f2; try done; lia).
    assert (N_of_ascii l1 = N_of_ascii l2) as Hl by (destruct f2; lia).
    assert (i1 = i2) as -> by (destruct f2; lia).
    by rewrite (N_of_ascii_inj _ _ Hl).
  - intros c Hc. rewrite (Hhash c Hc).
    destruct c as [i l f], Hc as [Hi Hl]. simpl in *.
    apply isCapital_code in Hl. unfold WORD_LENGTH in *. destruct f; lia.
Qed.

Lemma position_hash_perfect_witness :
  constructedPosition (PositionConstraint.Build 4 "Z" true)
  ∧ 325 ≤ position_hash (PositionConstraint.Build 4 "Z" true) < 1455.
Proof.
  assert (constructedPosition (PositionConstraint.Build 4 "Z" true)) as Hc
    by compute_done.
  split; [exact Hc |].
  exact (proj2 (proj2 position_hash_perfect) _ Hc).
Defined.

(** X6. [operator==] of the letter-count constraints holds exactly between
    equal triples, and their hash has no collision on the constraints that
    the constructor returns. *)
Theorem letterCount_hash_perfect :
  (∀ c other, letterCount_equal c other = true ↔ c = other)
  ∧ (∀ c other,
       constructedLetterCount c → constructedLetterCount other →
       letterCount_hash c = letterCount_hash other → c = other)
  ∧ (∀ c, constructedLetterCount c → 325 ≤ letterCount_hash c < 1455).
Proof.
  assert (∀ c, constructedLetterCount c →
            letterCount_hash c
            = LetterCountConstraint.m_count c
              + N_of_ascii (LetterCountConstraint.m_letter c) * 5
              + (if LetterCountConstraint.m_min c then 1000 else 0))
    as Hhash.
  { intros [count letter flag] [Hcount Hletter]. simpl in *.
    unfold letterCount_hash. simpl. rewrite char_value_capital by done.
    apply isCapital_code in Hletter. unfold WORD_LENGTH in Hcount.
    rewrite to_size_small by (destruct flag; lia). destruct flag; lia. }
  split_and!.
  - intros [i1 l1 f1] [i2 l2 f2]. unfold letterCount_equal. simpl. split.
    + intros [[Hi Hl]%andb_prop Hf]%andb_prop.
      apply N.eqb_eq in Hi. apply bool_decide_eq_true in Hl.
      apply Bool.eqb_prop in Hf. by subst.
    + intros [= -> -> ->]. rewrite N.eqb_refl, bool_decide_eq_true_2 by done.
      by destruct f2.
  - intros c other Hc Hother. rewrite (Hhash c Hc), (Hhash other Hother).
    destruct c as [i1 l1 f1], other as [i2 l2 f2].
    destruct Hc as [Hi1 Hl1], Hother as [Hi2 Hl2]. simpl in *.
    apply isCapital_code in Hl1 as Hcode1. apply isCapital_code in Hl2 as Hcode2.
    unfold WORD_LENGTH in *. intros Heq.
    assert (f1 = f2) as -> by (destruct f1, f2; try done; lia).
    assert (N_of_ascii l1 = N_of_ascii l2) as Hl by (destruct f2; lia).
    assert (i1 = i2) as -> by (destruct f2; lia).
    by rewrite (N_of_ascii_inj _ _ Hl).
  - intros c Hc. rewrite (Hhash c Hc).
    destruct c as [i l f], Hc as [Hi Hl]. simpl in *.
    apply isCapital_code in Hl. unfold WORD_LENGTH in *. destruct f; lia.
Qed.

Lemma letterCount_hash_perfect_witness :
  constructedLetterCount (LetterCountConstraint.Build 0 "A" false)
  ∧ 325 ≤ letterCount_hash (LetterCountConstraint.Build 0 "A" false) < 1455.
Proof.
  assert (constructedLetterCount (LetterCountConstraint.Build 0 "A" false)) as Hc
    by compute_done.
  split; [exact Hc |].
  exact (proj2 (proj2 letterCount_hash_perfect) _ Hc).
Defined.

(** ** The derivations on any input *)

Lemma LetterCountConstraint_new_eq count letter min :
  isCapital letter →
  LetterCountConstraint.new count letter min
  = if count <? WORD_LENGTH
    then Ok (LetterCountConstraint.Build count letter min)
    else Fail AssertionFailure.
Proof.
  intros Hc. unfold LetterCountConstraint.new.
  destruct (count <? WORD_LENGTH); simpl; [| done].
  apply Is_true_true in Hc. by rewrite Hc.
Qed.

(** The body of the loop of the letter-count derivation, on a guess of
    [WORD_LENGTH] characters. *)
Lemma letterCountStep_eq guess feedback constraints index :
  strlen guess = WORD_LENGTH → isCapital (char_at guess index) →
  ConstraintCollection.letterCountStep guess feedback constraints index
  = if bool_decide (char_at feedback index = WRONG_SPOT)
    then if occurrences (char_at guess index) (chars guess) <? WORD_LENGTH
         then Ok ({[ LetterCountConstraint.Build
                       (occurrences (char_at guess index) (chars guess))
                       (char_at guess index) true ]} ∪ constraints)
         else Fail AssertionFailure
    else if bool_decide (char_at feedback index = NOT_THERE)
         then Ok ({[ LetterCountConstraint.Build 0 (char_at guess index) false ]}
                  ∪ constraints)
         else Ok constraints.
Proof.
  intros Hlen Hc. unfold ConstraintCollection.letterCountStep.
  case_bool_decide as Hy.
  - rewrite confirmedCopies_misplaced, LetterCountConstraint_new_eq by done.
    by destruct (_ <? WORD_LENGTH).
  - case_bool_decide as Hw; [| done].
    by rewrite confirmedCopies_absent, LetterCountConstraint_new_eq by done.
Qed.

Lemma letterCountStep_Ok guess feedback constraints index :
  strlen guess = WORD_LENGTH → isCapital (char_at guess index) →
  (char_at feedback index = WRONG_SPOT →
   occurrences (char_at guess index) (chars guess) < WORD_LENGTH) →
  ∃ S, ConstraintCollection.letterCountStep guess feedback constraints index = Ok S
       ∧ ∀ c, c ∈ S ↔ c ∈ constraints ∨ letterCountOf guess feedback index c.
Proof.
  intros Hlen Hc Hocc. rewrite letterCountStep_eq by done.
  assert (NOT_THERE ≠ WRONG_SPOT) as Hne by done.
  unfold letterCountOf. case_bool_decide as Hy.
  - pose proof (Hocc Hy) as Hlt. apply N.ltb_lt in Hlt. rewrite Hlt.
    eexists. split; [done |]. intros c.
    rewrite elem_of_union, elem_of_singleton. split.
    + intros [-> | Hin]; [right; left; done | by left].
    + intros [Hin | [[_ ->] | [Hw _]]]; [by right | by left | congruence].
  - case_bool_decide as Hw.
    + eexists. split; [done |]. intros c.
      rewrite elem_of_union, elem_of_singleton. split.
      * intros [-> | Hin]; [right; right; done | by left].
      * intros [Hin | [[Hy' _] | [_ ->]]]; [by right | congruence | by left].
    + eexists. split; [done |]. intros c. split; [by left |].
      intros [Hin | [[Hy' _] | [Hw' _]]]; [done | congruence | congruence].
Qed.

Lemma letterCount_loop_Ok guess feedback l constraints :
  strlen guess = WORD_LENGTH →
  (∀ i, i ∈ l →
        isCapital (char_at guess i)
        ∧ (char_at feedback i = WRONG_SPOT →
           occurrences (char_at guess i) (chars guess) < WORD_LENGTH)) →
  ∃ S, foldM (ConstraintCollection.letterCountStep guess feedback) constraints l
       = Ok S
       ∧ ∀ c, c ∈ S ↔
              c ∈ constraints ∨ ∃ i, i ∈ l ∧ letterCountOf guess feedback i c.
Proof.
  intros Hlen. revert constraints.
  induction l as [|i l IH]; intros constraints Hl.
  - exists constraints. split; [done |]. intros c. split; [by left |].
    intros [Hin | (i & Hi & _)]; [done | by apply elem_of_nil in Hi].
  - destruct (Hl i) as [Hc Hocc]; [by left |].
    rewrite foldM_cons.
    destruct (letterCountStep_Ok guess feedback constraints i Hlen Hc Hocc)
      as (S1 & -> & HS1).
    destruct (IH S1) as (S2 & HS2 & Hmem).
    { intros j Hj. apply Hl. by right. }
    exists S2. split; [exact HS2 |]. intros c. rewrite Hmem, HS1. split.
    + intros [[Hin | Hof] | (j & Hj & Hof)].
      * by left.
      * right. exists i. split; [by left | done].
      * right. exists j. split; [by right | done].
    + intros [Hin | (j & [-> | Hj]%elem_of_cons & Hof)].
      * left. by left.
      * left. by right.
      * right. by exists j.
Qed.

Lemma letterCount_loop_Fail guess feedback l constraints :
  strlen guess = WORD_LENGTH →
  (∀ i, i ∈ l → isCapital (char_at guess i)) →
  (∃ i, i ∈ l ∧ char_at feedback i = WRONG_SPOT
        ∧ occurrences (char_at guess i) (chars guess) = WORD_LENGTH) →
  foldM (ConstraintCollection.letterCountStep guess feedback) constraints l
  = Fail AssertionFailure.
Proof.
  intros Hlen. revert constraints.
  induction l as [|i l IH]; intros constraints Hl (j & Hj & Hy & Hfull).
  - by apply elem_of_nil in Hj.
  - rewrite foldM_cons, letterCountStep_eq by (done || apply Hl; by left).
    apply elem_of_cons in Hj as [<- | Hj].
    + rewrite bool_decide_eq_true_2 by done. rewrite Hfull. done.
    + assert (∀ S, foldM (ConstraintCollection.letterCountStep guess feedback) S l
                   = Fail AssertionFailure) as Hrest.
      { intros S. apply IH; [intros k Hk; apply Hl; by right |]. by exists j. }
      case_bool_decide; [destruct (_ <? _); simpl; [apply Hrest | done] |].
      case_bool_decide; simpl; apply Hrest.
Qed.

Lemma occurrences_le_word guess c :
  strlen guess = WORD_LENGTH → occurrences c (chars guess) ≤ WORD_LENGTH.
Proof.
  intros Hlen. pose proof (occurrences_le_length c (chars guess)) as Hle.
  rewrite chars_length in Hle. unfold strlen in Hlen. lia.
Qed.

Lemma overfull_Exists guess feedback :
  overfull guess feedback
  ↔ Exists (λ i, char_at feedback i = WRONG_SPOT
                 ∧ occurrences (char_at guess i) (chars guess) = WORD_LENGTH)
           (indices WORD_LENGTH).
Proof.
  rewrite Exists_exists. unfold overfull.
  by setoid_rewrite elem_of_indices.
Qed.

Lemma overfull_dec guess feedback :
  overfull guess feedback ∨ ¬ overfull guess feedback.
Proof.
  rewrite overfull_Exists.
  destruct (decide (Exists
              (λ i, char_at feedback i = WRONG_SPOT
                    ∧ occurrences (char_at guess i) (chars guess) = WORD_LENGTH)
              (indices WORD_LENGTH))); [by left | by right].
Qed.

(** The letter-count derivation on a valid input. *)
Lemma generateLetterCountConstraints_valid guess feedback :
  validInput guess feedback →
  (overfull guess feedback →
   ConstraintCollection.generateLetterCountConstraints guess feedback
   = Fail AssertionFailure)
  ∧ (¬ overfull guess feedback →
     ∃ S, ConstraintCollection.generateLetterCountConstraints guess feedback = Ok S
          ∧ ∀ c, c ∈ S ↔
                 ∃ index, index < WORD_LENGTH
                          ∧ letterCountOf guess feedback index c).
Proof.
  intros Hvalid. pose proof Hvalid as (Hlen & _).
  unfold ConstraintCollection.generateLetterCountConstraints.
  rewrite checkInput_spec, decide_True by done. simpl. split.
  - intros (i & Hi & Hy & Hfull).
    refine (letterCount_loop_Fail guess feedback (indices WORD_LENGTH) ∅ Hlen _ _).
    + intros j Hj%elem_of_indices. by eapply validInput_capital.
    + exists i. by rewrite elem_of_indices.
  - intros Hfree.
    destruct (letterCount_loop_Ok guess feedback (indices WORD_LENGTH) ∅ Hlen)
      as (S & HS & Hmem).
    { intros i Hi%elem_of_indices. split; [by eapply validInput_capital |].
      intros Hy. pose proof (occurrences_le_word guess (char_at guess i) Hlen).
      destruct (decide (occurrences (char_at guess i) (chars guess) = WORD_LENGTH))
        as [Hfull | Hless]; [| lia].
      destruct Hfree. by exists i. }
    exists S. split; [done |]. intros c. rewrite Hmem.
    setoid_rewrite elem_of_indices. split.
    + intros [Hin | Hex]; [by apply elem_of_empty in Hin | done].
    + intros Hex. by right.
Qed.

(** The position derivation on a valid input. *)
Lemma generatePositionConstraints_valid guess feedback :
  validInput guess feedback →
  ∃ S, ConstraintCollection.generatePositionConstraints guess feedback = Ok S
       ∧ ∀ c, c ∈ S ↔
              ∃ index, index < WORD_LENGTH ∧ positionOf guess feedback index c.
Proof.
  intros Hvalid. unfold ConstraintCollection.generatePositionConstraints.
  rewrite checkInput_spec, decide_True by done. simpl.
  destruct (generatePositionConstraints_loop guess feedback
              (indices WORD_LENGTH) ∅) as (S & HS & Hmem).
  { intros i Hi. apply elem_of_indices in Hi.
    split; [done |]. by eapply validInput_capital. }
  exists S. split; [exact HS |]. intros c. rewrite Hmem.
  setoid_rewrite elem_of_indices. set_solver.
Qed.

(** X7. Both derivations check their input first: on a guess or a
    feedback of another length, a guess with a character outside A–Z or a
    feedback with a character outside W, Y, G they end on a failed
    assertion. The position derivation returns exactly on the valid inputs,
    the letter-count derivation only on valid inputs; and every constraint
    that they return has an index, or a count, below [WORD_LENGTH] and a
    letter in A–Z. *)
Theorem derivations_check_input guess feedback :
  (¬ validInput guess feedback →
   ConstraintCollection.generatePositionConstraints guess feedback
   = Fail AssertionFailure
   ∧ ConstraintCollection.generateLetterCountConstraints guess feedback
     = Fail AssertionFailure)
  ∧ ((∃ S, ConstraintCollection.generatePositionConstraints guess feedback = Ok S)
     ↔ validInput guess feedback)
  ∧ (∀ S, ConstraintCollection.generateLetterCountConstraints guess feedback = Ok S →
          validInput guess feedback
          ∧ ∀ c, c ∈ S → constructedLetterCount c)
  ∧ (∀ S, ConstraintCollection.generatePositionConstraints guess feedback = Ok S →
          ∀ c, c ∈ S → constructedPosition c).
Proof.
  assert (¬ validInput guess feedback →
          ConstraintCollection.generatePositionConstraints guess feedback
          = Fail AssertionFailure
          ∧ ConstraintCollection.generateLetterCountConstraints guess feedback
            = Fail AssertionFailure) as Hinvalid.
  { intros Hno.
    unfold ConstraintCollection.generatePositionConstraints,
      ConstraintCollection.generateLetterCountConstraints.
    by rewrite checkInput_spec, decide_False. }
  split_and!; [exact Hinvalid | | |].
  - split.
    + intros [S HS]. destruct (decide (validInput guess feedback)) as [? | Hno];
        [done |]. destruct (Hinvalid Hno) as [Hfail _]. congruence.
    + intros Hvalid.
      destruct (generatePositionConstraints_valid guess feedback Hvalid)
        as (S & HS & _). by exists S.
  - intros S HS.
    destruct (decide (validInput guess feedback)) as [Hvalid | Hno];
      [| destruct (Hinvalid Hno) as [_ Hfail]; congruence].
    split; [done |]. intros c Hc.
    destruct (generateLetterCountConstraints_valid guess feedback Hvalid)
      as [Hfull Hfree].
    assert (¬ overfull guess feedback) as Hnot.
    { intros Hover. rewrite (Hfull Hover) in HS. discriminate. }
    destruct (Hfree Hnot) as (S' & HS' & Hmem).
    assert (S' = S) as -> by congruence.
    apply Hmem in Hc as (i & Hi & Hof).
    pose proof (validInput_capital _ _ _ Hvalid Hi) as Hcap.
    destruct Hvalid as (Hlen & _).
    destruct Hof as [[Hy ->] | [Hw ->]]; split; simpl; try done.
    pose proof (occurrences_le_word guess (char_at guess i) Hlen).
    destruct (decide (occurrences (char_at guess i) (chars guess) = WORD_LENGTH))
      as [Hfull' | Hless]; [| lia].
    destruct Hnot. by exists i.
  - intros S HS c Hc.
    destruct (decide (validInput guess feedback)) as [Hvalid | Hno];
      [| destruct (Hinvalid Hno) as [Hfail _]; congruence].
    destruct (generatePositionConstraints_valid guess feedback Hvalid)
      as (S' & HS' & Hmem).
    assert (S' = S) as -> by congruence.
    apply Hmem in Hc as (i & Hi & Hof).
    pose proof (validInput_capital _ _ _ Hvalid Hi) as Hcap.
    by destruct Hof as [[_ ->] | [_ ->]]; split.
Qed.

Lemma derivations_check_input_witness :
  ¬ validInput "CRANE" "GXWWW"
  ∧ ConstraintCollection.generatePositionConstraints "CRANE" "GXWWW"
    = Fail AssertionFailure
  ∧ ConstraintCollection.generateLetterCountConstraints "CRANE" "GXWWW"
    = Fail AssertionFailure.
Proof.
  assert (¬ validInput "CRANE" "GXWWW") as Hno by compute_done.
  split; [exact Hno |].
  exact (proj1 (derivations_check_input "CRANE" "GXWWW") Hno).
Defined.

(** X8. On a valid input the letter-count derivation fails exactly when
    the feedback is Misplaced at an index whose letter fills all the
    positions of the guess. Otherwise it returns the set that holds, for
    each Misplaced index, the minimum constraint whose count is the number of
    copies of the letter of this index in the whole guess, and for each
    Absent index the maximum constraint with count 0 on its letter; an Exact
    index adds nothing. *)
Theorem generateLetterCountConstraints_cases guess feedback :
  validInput guess feedback →
  (overfull guess feedback
   ↔ ConstraintCollection.generateLetterCountConstraints guess feedback
     = Fail AssertionFailure)
  ∧ (¬ overfull guess feedback →
     ∃ S, ConstraintCollection.generateLetterCountConstraints guess feedback = Ok S
          ∧ ∀ c, c ∈ S ↔
                 ∃ index, index < WORD_LENGTH
                          ∧ letterCountOf guess feedback index c).
Proof.
  intros Hvalid.
  destruct (generateLetterCountConstraints_valid guess feedback Hvalid)
    as [Hfull Hfree].
  split; [| exact Hfree]. split; [exact Hfull |].
  intros Hfail. destruct (overfull_dec guess feedback) as [Hover | Hnot]; [done |].
  destruct (Hfree Hnot) as (S & HS & _). congruence.
Qed.

Lemma generateLetterCountConstraints_cases_witness :
  validInput "ALLOW" "WYGWW"
  ∧ ¬ overfull "ALLOW" "WYGWW"
  ∧ ∃ S, ConstraintCollection.generateLetterCountConstraints "ALLOW" "WYGWW" = Ok S
         ∧ ∀ c, c ∈ S ↔
                ∃ index, index < WORD_LENGTH
                         ∧ letterCountOf "ALLOW" "WYGWW" index c.
Proof.
  assert (validInput "ALLOW" "WYGWW") as Hvalid by compute_done.
  assert (¬ overfull "ALLOW" "WYGWW") as Hfree.
  { rewrite overfull_Exists. compute_done. }
  split_and!; [exact Hvalid | exact Hfree |].
  exact (proj2 (generateLetterCountConstraints_cases "ALLOW" "WYGWW" Hvalid) Hfree).
Defined.

(** ** The filtering, exactly *)

Lemma satisfiesAll_union (P1 P2 : gset PositionConstraint.t)
    (L1 L2 : gset LetterCountConstraint.t) word :
  satisfiesAll (P1 ∪ P2) (L1 ∪ L2) word
  ↔ satisfiesAll P1 L1 word ∧ satisfiesAll P2 L2 word.
Proof.
  unfold satisfiesAll. split.
  - intros [HP HL]. split; split; intros c Hc; (apply HP || apply HL);
      apply elem_of_union; auto.
  - intros [[HP1 HL1] [HP2 HL2]].
    split; intros c [Hc | Hc]%elem_of_union; auto.
Qed.

Lemma satisfiesAll_empty word : satisfiesAll ∅ ∅ word.
Proof. split; intros c Hc; by apply elem_of_empty in Hc. Qed.

Section Exact.
Context `{SetOrder}.

Lemma iterate_empty `{Countable A} : iterate (∅ : gset A) = [].
Proof.
  apply Permutation_nil_r. rewrite (iterate_perm (∅ : gset A)).
  by rewrite elements_empty.
Qed.

Lemma eraseUnless_loop_keep L l candidates :
  (∀ word, word ∈ l → ConstraintCollection.keeps L word = Ok true) →
  foldM (ConstraintCollection.eraseUnless L) candidates l = Ok candidates.
Proof.
  induction l as [|x l IH]; intros Hl; [done |].
  rewrite foldM_cons, eraseUnless_eq, (Hl x) by by left. simpl.
  apply IH. intros word Hword. apply Hl. by right.
Qed.

(** With nothing New a call changes nothing. *)
Lemma processNewConstraints_nothing_new pool L :
  ConstraintCollection.m_newPositionConstraints L = ∅ →
  ConstraintCollection.m_newLetterCountConstraints L = ∅ →
  ConstraintCollection.processNewConstraints pool L = Ok (pool, L).
Proof.
  destruct L as [fP fL nP nL]. simpl. intros -> ->.
  unfold ConstraintCollection.processNewConstraints, merge.
  rewrite eraseUnless_loop_keep.
  - simpl.
    assert ((∅ : gset PositionConstraint.t) ∩ fP = ∅) as -> by set_solver.
    assert ((∅ : gset LetterCountConstraint.t) ∩ fL = ∅) as -> by set_solver.
    rewrite !size_empty. simpl. do 2 f_equal.
    f_equal; set_solver.
  - intros word _. apply keeps_true. simpl.
    split; intros c Hc; by apply elem_of_empty in Hc.
Qed.

(** X9. A call of [processNewConstraints] that returns is an exact
    filter: the words that remain are the words of the pool that satisfy
    every New constraint of both kinds, so no word that satisfies them all is
    lost; the Finished sets become the unions of the Finished and the New
    sets, and New is empty. *)
Theorem processNewConstraints_exact pool L pool' L' :
  ConstraintCollection.processNewConstraints pool L = Ok (pool', L') →
  (∀ word, word ∈ pool'
           ↔ word ∈ pool
             ∧ satisfiesAll (ConstraintCollection.m_newPositionConstraints L)
                            (ConstraintCollection.m_newLetterCountConstraints L)
                            word)
  ∧ ConstraintCollection.m_finishedPositionConstraints L'
    = ConstraintCollection.m_finishedPositionConstraints L
      ∪ ConstraintCollection.m_newPositionConstraints L
  ∧ ConstraintCollection.m_finishedLetterCountConstraints L'
    = ConstraintCollection.m_finishedLetterCountConstraints L
      ∪ ConstraintCollection.m_newLetterCountConstraints L
  ∧ ConstraintCollection.m_newPositionConstraints L' = ∅
  ∧ ConstraintCollection.m_newLetterCountConstraints L' = ∅.
Proof.
  intros Hcall. split; [exact (processNewConstraints_filter _ _ _ _ Hcall) |].
  by apply processNewConstraints_Ok in Hcall as (_ & ->).
Qed.

(** X10. A second call of [processNewConstraints] right after a call that
    returned changes neither the pool nor the collection; more generally a
    call with no New constraint returns the pool and the collection as they
    are. *)
Theorem processNewConstraints_idempotent :
  (∀ pool L pool' L',
     ConstraintCollection.processNewConstraints pool L = Ok (pool', L') →
     ConstraintCollection.processNewConstraints pool' L' = Ok (pool', L'))
  ∧ (∀ pool L,
       ConstraintCollection.m_newPositionConstraints L = ∅ →
       ConstraintCollection.m_newLetterCountConstraints L = ∅ →
       ConstraintCollection.processNewConstraints pool L = Ok (pool, L)).
Proof.
  split; [| apply processNewConstraints_nothing_new].
  intros pool L pool' L' (_ & ->)%processNewConstraints_Ok.
  by apply processNewConstraints_nothing_new.
Qed.

(** The pool of a run is the first pool, filtered by the Finished
    constraints, when it is so at the start. *)
Lemma run_filtered (pool0 : gset string) actions pool L pool' L' :
  (∀ word, word ∈ pool
           ↔ word ∈ pool0
             ∧ satisfiesAll (ConstraintCollection.m_finishedPositionConstraints L)
                            (ConstraintCollection.m_finishedLetterCountConstraints L)
                            word) →
  run actions (pool, L) = Ok (pool', L') →
  ∀ word, word ∈ pool'
          ↔ word ∈ pool0
            ∧ satisfiesAll (ConstraintCollection.m_finishedPositionConstraints L')
                           (ConstraintCollection.m_finishedLetterCountConstraints L')
                           word.
Proof.
  apply (run_invariant (λ pool L,
    ∀ word, word ∈ pool
            ↔ word ∈ pool0
              ∧ satisfiesAll (ConstraintCollection.m_finishedPositionConstraints L)
                             (ConstraintCollection.m_finishedLetterCountConstraints L)
                             word)).
  - intros pool1 L1 c HP. unfold ConstraintCollection.addPositionConstraint.
    by case_decide.
  - intros pool1 L1 c HP. unfold ConstraintCollection.addLetterCountConstraint.
    by case_decide.
  - intros pool1 L1 pool2 L2 HP Hcall word.
    rewrite (processNewConstraints_filter _ _ _ _ Hcall word).
    apply processNewConstraints_Ok in Hcall as (_ & ->). simpl.
    rewrite satisfiesAll_union, HP. tauto.
Qed.

(** X11. After any sequence of admissions and calls of
    [processNewConstraints] on a dictionary and a collection that starts
    empty, the pool is exactly the set of the words of the dictionary that
    satisfy every Finished constraint. Two such sequences that end with the
    same Finished sets therefore end with the same pool, however the
    constraints were grouped into rounds. *)
Theorem pool_is_filtered_dictionary :
  (∀ dictionary actions pool L,
     run actions (dictionary, ConstraintCollection.empty) = Ok (pool, L) →
     ∀ word, word ∈ pool
             ↔ word ∈ dictionary
               ∧ satisfiesAll (ConstraintCollection.m_finishedPositionConstraints L)
                              (ConstraintCollection.m_finishedLetterCountConstraints L)
                              word)
  ∧ (∀ dictionary actions1 actions2 pool1 L1 pool2 L2,
       run actions1 (dictionary, ConstraintCollection.empty) = Ok (pool1, L1) →
       run actions2 (dictionary, ConstraintCollection.empty) = Ok (pool2, L2) →
       ConstraintCollection.m_finishedPositionConstraints L1
       = ConstraintCollection.m_finishedPositionConstraints L2 →
       ConstraintCollection.m_finishedLetterCountConstraints L1
       = ConstraintCollection.m_finishedLetterCountConstraints L2 →
       pool1 = pool2).
Proof.
  assert (∀ dictionary actions pool L,
     run actions (dictionary, ConstraintCollection.empty) = Ok (pool, L) →
     ∀ word, word ∈ pool
             ↔ word ∈ dictionary
               ∧ satisfiesAll (ConstraintCollection.m_finishedPositionConstraints L)
                              (ConstraintCollection.m_finishedLetterCountConstraints L)
                              word) as Hfiltered.
  { intros dictionary actions pool L. apply run_filtered.
    intros word. simpl. pose proof (satisfiesAll_empty word). tauto. }
  split; [exact Hfiltered |].
  intros dictionary actions1 actions2 pool1 L1 pool2 L2 Hrun1 Hrun2 HP HL.
  apply set_eq. intros word.
  rewrite (Hfiltered _ _ _ _ Hrun1 word), (Hfiltered _ _ _ _ Hrun2 word).
  by rewrite HP, HL.
Qed.

End Exact.

(** ** Turns of the main loop *)

Lemma isFeedback_cases (c : ascii) :
  ConstraintCollection.isFeedback c →
  c = NOT_THERE ∨ c = WRONG_SPOT ∨ c = RIGHT_SPOT.
Proof.
  unfold ConstraintCollection.isFeedback.
  intros [[Hw | Hy]%orb_prop_elim | Hg]%orb_prop_elim.
  - left. by apply bool_decide_unpack in Hw.
  - right. left. by apply bool_decide_unpack in Hy.
  - right. right. by apply bool_decide_unpack in Hg.
Qed.

(** A feedback that is not the five Exact symbols has an index that is
    Misplaced or Absent. *)
Lemma validFeedback_not_solved feedback :
  validFeedback feedback → feedback ≠ "GGGGG" →
  ∃ index, index < WORD_LENGTH
           ∧ (char_at feedback index = WRONG_SPOT
              ∨ char_at feedback index = NOT_THERE).
Proof.
  intros [Hlen Hall] Hne.
  unfold strlen, WORD_LENGTH in Hlen.
  destruct feedback as [|a [|b [|c [|d [|e [|]]]]]]; simpl in Hlen; try lia.
  unfold chars in Hall. simpl in Hall.
  apply Forall_cons in Hall as [Ha Hall]. apply Forall_cons in Hall as [Hb Hall].
  apply Forall_cons in Hall as [Hc Hall]. apply Forall_cons in Hall as [Hd Hall].
  apply Forall_cons in Hall as [He _].
  apply isFeedback_cases in Ha, Hb, Hc, Hd, He.
  destruct Ha as [Ha | [Ha | ->]]; [exists 0; split; [done | by right] |
                                    exists 0; split; [done | by left] |].
  destruct Hb as [Hb | [Hb | ->]]; [exists 1; split; [done | by right] |
                                    exists 1; split; [done | by left] |].
  destruct Hc as [Hc | [Hc | ->]]; [exists 2; split; [done | by right] |
                                    exists 2; split; [done | by left] |].
  destruct Hd as [Hd | [Hd | ->]]; [exists 3; split; [done | by right] |
                                    exists 3; split; [done | by left] |].
  destruct He as [He | [He | ->]]; [exists 4; split; [done | by right] |
                                    exists 4; split; [done | by left] |].
  done.
Qed.

Lemma occurrences_pos letter (l : list ascii) :
  letter ∈ l → 1 ≤ occurrences letter l.
Proof.
  induction 1 as [x l | x y l _ IH]; rewrite occurrences_cons.
  - rewrite decide_True by done. lia.
  - lia.
Qed.

(** A guess violates the must-not-equal constraint on one of its own
    letters at its own place. *)
Lemma guess_violates_position guess index :
  index < strlen guess →
  PositionConstraint.satisfies
    (PositionConstraint.Build index (char_at guess index) false) guess
  = Ok false.
Proof.
  intros Hin. rewrite PositionConstraint_satisfies_in_range by done. simpl.
  by rewrite bool_decide_eq_true_2.
Qed.

(** A guess violates the maximum constraint with count 0 on one of its own
    letters. *)
Lemma guess_violates_maximum guess index :
  strlen guess = WORD_LENGTH → index < WORD_LENGTH →
  LetterCountConstraint.satisfies
    (LetterCountConstraint.Build 0 (char_at guess index) false) guess
  = false.
Proof.
  intros Hlen Hin. rewrite LetterCountConstraint_satisfies_eq. simpl.
  pose proof (occurrences_le_word guess (char_at guess index) Hlen) as Hle.
  pose proof (occurrences_pos (char_at guess index) (chars guess)) as Hpos.
  rewrite N.mod_small by (unfold WORD_LENGTH in Hle; unfold USHRT_MODULUS; lia).
  apply N.leb_gt. apply N.lt_le_trans with 1; [lia |].
  apply Hpos, char_at_elem_of. by rewrite Hlen.
Qed.

(** The admissions of a list of position constraints. *)
Lemma foldl_addPosition cs L :
  let L' := foldl (λ L c, ConstraintCollection.addPositionConstraint c L) L cs in
  ConstraintCollection.m_finishedPositionConstraints L'
  = ConstraintCollection.m_finishedPositionConstraints L
  ∧ ConstraintCollection.m_finishedLetterCountConstraints L'
    = ConstraintCollection.m_finishedLetterCountConstraints L
  ∧ ConstraintCollection.m_newLetterCountConstraints L'
    = ConstraintCollection.m_newLetterCountConstraints L
  ∧ ∀ c, c ∈ ConstraintCollection.m_newPositionConstraints L'
         ↔ c ∈ ConstraintCollection.m_newPositionConstraints L
           ∨ (c ∈ cs ∧ c ∉ ConstraintCollection.m_finishedPositionConstraints L).
Proof.
  revert L. induction cs as [|x cs IH]; intros L; simpl.
  - split_and!; try done. intros c. split; [by left |].
    intros [? | [Hc _]]; [done | by apply elem_of_nil in Hc].
  - destruct (IH (ConstraintCollection.addPositionConstraint x L))
      as (HfP & HfL & HnL & HnP).
    unfold ConstraintCollection.addPositionConstraint in *.
    destruct (decide (x ∈ ConstraintCollection.m_finishedPositionConstraints L));
      simpl in *; split_and!; try done; intros c; rewrite HnP.
    + rewrite elem_of_cons. split; [| naive_solver].
      intros [? | [Hc ?]]; [by left | right; split; [by right | done]].
    + rewrite elem_of_union, elem_of_singleton, elem_of_cons. naive_solver.
Qed.

(** The admissions of a list of letter-count constraints. *)
Lemma foldl_addLetterCount cs L :
  let L' := foldl (λ L c, ConstraintCollection.addLetterCountConstraint c L) L cs in
  ConstraintCollection.m_finishedPositionConstraints L'
  = ConstraintCollection.m_finishedPositionConstraints L
  ∧ ConstraintCollection.m_finishedLetterCountConstraints L'
    = ConstraintCollection.m_finishedLetterCountConstraints L
  ∧ ConstraintCollection.m_newPositionConstraints L'
    = ConstraintCollection.m_newPositionConstraints L
  ∧ ∀ c, c ∈ ConstraintCollection.m_newLetterCountConstraints L'
         ↔ c ∈ ConstraintCollection.m_newLetterCountConstraints L
           ∨ (c ∈ cs ∧ c ∉ ConstraintCollection.m_finishedLetterCountConstraints L).
Proof.
  revert L. induction cs as [|x cs IH]; intros L; simpl.
  - split_and!; try done. intros c. split; [by left |].
    intros [? | [Hc _]]; [done | by apply elem_of_nil in Hc].
  - destruct (IH (ConstraintCollection.addLetterCountConstraint x L))
      as (HfP & HfL & HnP & HnL).
    unfold ConstraintCollection.addLetterCountConstraint in *.
    destruct (decide (x ∈ ConstraintCollection.m_finishedLetterCountConstraints L));
      simpl in *; split_and!; try done; intros c; rewrite HnL.
    + rewrite elem_of_cons. split; [| naive_solver].
      intros [? | [Hc ?]]; [by left | right; split; [by right | done]].
    + rewrite elem_of_union, elem_of_singleton, elem_of_cons. naive_solver.
Qed.

Section Game.
Context `{SetOrder}.

(** What the admissions of a turn do to the collection. *)
Lemma admitAll_Ok guess feedback L L1 :
  Main.admitAll guess feedback L = Ok L1 →
  ∃ pcs lcs,
    ConstraintCollection.generatePositionConstraints guess feedback = Ok pcs
    ∧ ConstraintCollection.generateLetterCountConstraints guess feedback = Ok lcs
    ∧ ConstraintCollection.m_finishedPositionConstraints L1
      = ConstraintCollection.m_finishedPositionConstraints L
    ∧ ConstraintCollection.m_finishedLetterCountConstraints L1
      = ConstraintCollection.m_finishedLetterCountConstraints L
    ∧ (∀ c, c ∈ ConstraintCollection.m_newPositionConstraints L1
            ↔ c ∈ ConstraintCollection.m_newPositionConstraints L
              ∨ (c ∈ pcs
                 ∧ c ∉ ConstraintCollection.m_finishedPositionConstraints L))
    ∧ (∀ c, c ∈ ConstraintCollection.m_newLetterCountConstraints L1
            ↔ c ∈ ConstraintCollection.m_newLetterCountConstraints L
              ∨ (c ∈ lcs
                 ∧ c ∉ ConstraintCollection.m_finishedLetterCountConstraints L)).
Proof.
  unfold Main.admitAll.
  destruct (ConstraintCollection.generatePositionConstraints guess feedback)
    as [pcs | e]; simpl; [| done].
  destruct (ConstraintCollection.generateLetterCountConstraints guess feedback)
    as [lcs | e]; simpl; [| done].
  intros [= <-]. exists pcs, lcs. split; [done |]. split; [done |].
  destruct (foldl_addPosition (iterate pcs) L) as (HfP1 & HfL1 & HnL1 & HnP1).
  destruct (foldl_addLetterCount (iterate lcs)
              (foldl (λ L c, ConstraintCollection.addPositionConstraint c L)
                     L (iterate pcs))) as (HfP2 & HfL2 & HnP2 & HnL2).
  simpl in *. split_and!.
  - by rewrite HfP2, HfP1.
  - by rewrite HfL2, HfL1.
  - intros c. rewrite HnP2, HnP1, elem_of_iterate. done.
  - intros c. rewrite HnL2, HnL1, HfL1, elem_of_iterate. done.
Qed.

(** What a turn that goes on has done. *)
Lemma step_Next s rnd current_feedback guess s' :
  Main.step s rnd current_feedback = Ok (Main.Next guess s') →
  Main.words s ≠ ∅
  ∧ WordCollection.bestWord (Main.words s) rnd = Ok guess
  ∧ current_feedback ≠ "GGGGG"
  ∧ Main.numGuesses s' = (Main.numGuesses s + 1)%Z
  ∧ ∃ L1, Main.admitAll guess current_feedback (Main.constraints s) = Ok L1
          ∧ ConstraintCollection.processNewConstraints (Main.words s) L1
            = Ok (Main.words s', Main.constraints s').
Proof.
  unfold Main.step. case_bool_decide as Hempty; [done |].
  destruct (WordCollection.bestWord _ _) as [g | e]; simpl; [| done].
  case_bool_decide as Hsolved; [done |].
  destruct (Main.admitAll _ _ _) as [L1 | e] eqn:Hadmit; simpl; [| done].
  destruct (ConstraintCollection.processNewConstraints _ _)
    as [[pool' L'] | e] eqn:Hcall; simpl; [| done].
  intros [= <- <-]. simpl. split_and!; try done. by exists L1.
Qed.

Lemma generatePositionConstraints_Ok_valid guess feedback S :
  ConstraintCollection.generatePositionConstraints guess feedback = Ok S →
  validInput guess feedback.
Proof.
  unfold ConstraintCollection.generatePositionConstraints.
  rewrite checkInput_spec. by case_decide.
Qed.

(** A turn that goes on keeps the soundness of the pool. *)
Lemma step_Next_sound s rnd current_feedback guess s' :
  Main.step s rnd current_feedback = Ok (Main.Next guess s') →
  sound (Main.words s) (Main.constraints s) →
  sound (Main.words s') (Main.constraints s').
Proof.
  intros (_ & _ & _ & _ & L1 & Hadmit & Hcall)%step_Next Hsound.
  eapply processNewConstraints_keeps_sound; [| exact Hcall].
  by eapply admitAll_sound.
Qed.

(** A turn that goes on removes its guess from the pool. *)
Lemma step_Next_removes s rnd current_feedback guess s' :
  sound (Main.words s) (Main.constraints s) →
  Main.step s rnd current_feedback = Ok (Main.Next guess s') →
  guess ∈ Main.words s ∧ (guess ∉ Main.words s')
  ∧ Main.words s' ⊆ Main.words s.
Proof.
  intros Hsound (Hpool & Hbest & Hne & _ & L1 & Hadmit & Hcall)%step_Next.
  destruct (bestWord_Ok (Main.words s) rnd Hpool) as (g & Hg & _ & Hin & _).
  assert (g = guess) as -> by congruence.
  split; [done |]. split; [| by eapply processNewConstraints_subseteq].
  apply admitAll_Ok in Hadmit
    as (pcs & lcs & Hpcs & Hlcs & HfP & HfL & HnP & HnL).
  pose proof (generatePositionConstraints_Ok_valid _ _ _ Hpcs) as Hvalid.
  pose proof Hvalid as (Hlen & Hflen & _ & Hfall).
  destruct (validFeedback_not_solved current_feedback (conj Hflen Hfall) Hne)
    as (i & Hi & Hfb).
  destruct (Hsound guess Hin) as [HsoundP HsoundL].
  intros Hstays.
  apply (processNewConstraints_filter _ _ _ _ Hcall) in Hstays as [_ [HallP HallL]].
  destruct Hfb as [Hy | Hw].
  - set (c := PositionConstraint.Build i (char_at guess i) false).
    assert (PositionConstraint.satisfies c guess = Ok false) as Hviolates.
    { apply guess_violates_position. by rewrite Hlen. }
    assert (c ∈ pcs) as Hc.
    { destruct (generatePositionConstraints_valid guess current_feedback Hvalid)
        as (S & HS & Hmem).
      assert (S = pcs) as -> by congruence.
      apply Hmem. exists i. split; [done |]. by right. }
    assert (c ∈ ConstraintCollection.m_newPositionConstraints L1) as Hnew.
    { apply HnP. right. split; [done |]. intros Hfin.
      specialize (HsoundP c Hfin). congruence. }
    specialize (HallP c Hnew). congruence.
  - set (c := LetterCountConstraint.Build 0 (char_at guess i) false).
    assert (LetterCountConstraint.satisfies c guess = false) as Hviolates.
    { by apply guess_violates_maximum. }
    assert (c ∈ lcs) as Hc.
    { destruct (generateLetterCountConstraints_valid guess current_feedback Hvalid)
        as [Hfull Hfree].
      destruct (overfull_dec guess current_feedback) as [Hover | Hnot].
      { rewrite (Hfull Hover) in Hlcs. discriminate. }
      destruct (Hfree Hnot) as (S & HS & Hmem).
      assert (S = lcs) as -> by congruence.
      apply Hmem. exists i. split; [done |]. by right. }
    assert (c ∈ ConstraintCollection.m_newLetterCountConstraints L1) as Hnew.
    { apply HnL. right. split; [done |]. intros Hfin.
      specialize (HsoundL c Hfin). congruence. }
    specialize (HallL c Hnew). congruence.
Qed.

(** X12. A turn of the main loop that goes on shrinks the pool: its guess
    was in the pool and is not any more, so the pool is strictly smaller,
    provided every word of the pool satisfied the Finished constraints
    before the turn, as is the case in a game. *)
Theorem step_removes_guess s rnd current_feedback guess s' :
  sound (Main.words s) (Main.constraints s) →
  Main.step s rnd current_feedback = Ok (Main.Next guess s') →
  guess ∈ Main.words s
  ∧ (guess ∉ Main.words s')
  ∧ Main.words s' ⊂ Main.words s
  ∧ (size (Main.words s') < size (Main.words s))%nat.
Proof.
  intros Hsound Hstep.
  destruct (step_Next_removes _ _ _ _ _ Hsound Hstep) as (Hin & Hout & Hsub).
  assert (Main.words s' ⊂ Main.words s) as Hstrict.
  { split; [done |]. intros Hback. apply Hout. by apply Hback. }
  split_and!; [done | done | done | by apply subset_size].
Qed.

(** The turns that go on are fewer than the words of the pool. *)
Lemma turns_waiting s inputs s' :
  sound (Main.words s) (Main.constraints s) →
  turns s inputs = Ok (inl s') →
  (length inputs + size (Main.words s') ≤ size (Main.words s))%nat
  ∧ sound (Main.words s') (Main.constraints s')
  ∧ Main.numGuesses s' = (Main.numGuesses s + Z.of_nat (length inputs))%Z.
Proof.
  revert s. induction inputs as [|[rnd fb] inputs IH]; intros s Hsound; simpl.
  - intros [= <-]. split_and!; [lia | done | lia].
  - destruct (Main.step s rnd fb) as [[| g n | g s1] | e] eqn:Hstep; simpl;
      try done.
    intros Hrest.
    pose proof (step_Next_sound _ _ _ _ _ Hstep Hsound) as Hsound1.
    destruct (IH s1 Hsound1 Hrest) as (Hsize & Hsound' & Hcount).
    destruct (step_Next_removes _ _ _ _ _ Hsound Hstep) as (Hin & Hout & Hsub).
    assert (Main.words s1 ⊂ Main.words s) as Hstrict.
    { split; [done |]. intros Hback. apply Hout. by apply Hback. }
    apply subset_size in Hstrict.
    apply step_Next in Hstep as (_ & _ & _ & Hnum & _).
    split_and!; [lia | done | lia].
Qed.

(** X13. A game ends: from a dictionary and an empty collection, the main
    loop goes on for no more turns than the dictionary has words, whatever
    the feedbacks and the values of [rand ()]; with more inputs than the
    dictionary has words the loop has stopped, on a solved game, on an empty
    pool or on a failure. *)
Theorem game_ends :
  (∀ dictionary numGuesses inputs s',
     turns (Main.Build dictionary ConstraintCollection.empty numGuesses) inputs
     = Ok (inl s') →
     (length inputs + size (Main.words s') ≤ size dictionary)%nat)
  ∧ (∀ dictionary numGuesses inputs,
       (size dictionary < length inputs)%nat →
       ∀ s', turns (Main.Build dictionary ConstraintCollection.empty numGuesses)
                   inputs ≠ Ok (inl s')).
Proof.
  assert (∀ dictionary numGuesses inputs s',
     turns (Main.Build dictionary ConstraintCollection.empty numGuesses) inputs
     = Ok (inl s') →
     (length inputs + size (Main.words s') ≤ size dictionary)%nat) as Hbound.
  { intros dictionary numGuesses inputs s' Hturns.
    destruct (turns_waiting
                (Main.Build dictionary ConstraintCollection.empty numGuesses)
                inputs s' (sound_empty dictionary) Hturns)
      as (Hsize & _ & _). done. }
  split; [exact Hbound |].
  intros dictionary numGuesses inputs Hmany s' Hturns.
  pose proof (Hbound _ _ _ _ Hturns) as Hsize. lia.
Qed.

End Game.

(** ** Turns that cannot fail *)

Lemma mixedWord_validInput guess feedback :
  mixedWord guess → validFeedback feedback →
  validInput guess feedback ∧ ¬ overfull guess feedback.
Proof.
  intros (Hlen & Hcap & Hmixed) [Hflen Hfall]. split; [done |].
  intros (i & _ & _ & Hfull). specialize (Hmixed (char_at guess i)). lia.
Qed.

Section Safe.
Context `{SetOrder}.

(** The admissions of a turn keep a consistent state consistent. *)
Lemma admitAll_consistent pool guess feedback L L1 :
  consistent pool L →
  Main.admitAll guess feedback L = Ok L1 →
  consistent pool L1.
Proof.
  intros (Hwords & Hindex & HdisjP & HdisjL)
         (pcs & lcs & Hpcs & Hlcs & HfP & HfL & HnP & HnL)%admitAll_Ok.
  pose proof (generatePositionConstraints_Ok_valid _ _ _ Hpcs) as Hvalid.
  destruct (generatePositionConstraints_valid guess feedback Hvalid)
    as (S & HS & Hmem).
  assert (S = pcs) as -> by congruence.
  unfold consistent, admittedPosition in *. split_and!; [done | | |].
  - intros c [Hc | Hc].
    + apply HnP in Hc as [Hc | [Hc _]]; [apply Hindex; by left |].
      apply Hmem in Hc as (i & Hi & [[_ ->] | [_ ->]]); done.
    + apply Hindex. right. by rewrite <- HfP.
  - intros c Hnew Hfin. apply HnP in Hnew as [Hnew | [_ Hnot]].
    + apply (HdisjP c Hnew). by rewrite <- HfP.
    + apply Hnot. by rewrite <- HfP.
  - intros c Hnew Hfin. apply HnL in Hnew as [Hnew | [_ Hnot]].
    + apply (HdisjL c Hnew). by rewrite <- HfL.
    + apply Hnot. by rewrite <- HfL.
Qed.

Lemma admitAll_total guess feedback L :
  validInput guess feedback → ¬ overfull guess feedback →
  ∃ L1, Main.admitAll guess feedback L = Ok L1.
Proof.
  intros Hvalid Hfree. unfold Main.admitAll.
  destruct (generatePositionConstraints_valid guess feedback Hvalid)
    as (pcs & -> & _).
  destruct (generateLetterCountConstraints_valid guess feedback Hvalid)
    as [_ Hlcs].
  destruct (Hlcs Hfree) as (lcs & -> & _). simpl. by eexists.
Qed.

(** A turn on a playable state with a valid feedback. *)
Lemma step_playable s rnd current_feedback :
  playable s → validFeedback current_feedback →
  ∃ t, Main.step s rnd current_feedback = Ok t
       ∧ match t with
         | Main.NoWordLeft => Main.words s = ∅
         | Main.Solved guess _ =>
             guess ∈ Main.words s ∧ current_feedback = "GGGGG"
         | Main.Next guess s' =>
             guess ∈ Main.words s ∧ current_feedback ≠ "GGGGG" ∧ playable s'
         end.
Proof.
  intros [Hmixed Hcons] Hfb. unfold Main.step.
  case_bool_decide as Hempty; [by eexists |].
  destruct (bestWord_Ok (Main.words s) rnd Hempty) as (guess & -> & _ & Hin & _).
  simpl. case_bool_decide as Hsolved; [by eexists |].
  destruct (mixedWord_validInput guess current_feedback (Hmixed guess Hin) Hfb)
    as [Hvalid Hfree].
  destruct (admitAll_total guess current_feedback (Main.constraints s) Hvalid Hfree)
    as [L1 Hadmit].
  rewrite Hadmit. simpl.
  pose proof (admitAll_consistent _ _ _ _ _ Hcons Hadmit) as Hcons1.
  destruct (processNewConstraints_total (Main.words s) L1 Hcons1)
    as (pool' & L' & Hcall & Hcons').
  rewrite Hcall. simpl. eexists. split; [done |]. split_and!; [done | done |].
  split; [| done]. simpl. intros word Hword. apply Hmixed.
  by apply (processNewConstraints_subseteq _ _ _ _ Hcall).
Qed.

Lemma turns_playable s inputs :
  playable s → Forall (λ input, validFeedback input.2) inputs →
  ∃ r, turns s inputs = Ok r.
Proof.
  revert s. induction inputs as [|[rnd fb] inputs IH]; intros s Hplay Hfb.
  - by eexists.
  - apply Forall_cons in Hfb as [Hfb Hrest]. simpl in *.
    destruct (step_playable s rnd fb Hplay Hfb) as (t & -> & Ht). simpl.
    destruct t as [| g n | g s1]; [by eexists | by eexists |].
    apply IH; [apply Ht | done].
Qed.

(** X14. On a pool of words of [WORD_LENGTH] letters in A–Z that are not
    five times the same letter, with a collection whose position constraints
    have an index below [WORD_LENGTH] and in which no constraint is both New
    and Finished, a turn with a feedback of [WORD_LENGTH] symbols among W, Y,
    G never fails: it reports the empty pool, or ends the game on the
    feedback GGGGG with a guess from the pool, or goes on in a state of the
    same kind with a guess taken from the pool. So a whole game on such a
    dictionary with such feedbacks runs without a failed assertion, an
    exception or a division by zero. *)
Theorem turns_never_fail :
  (∀ s rnd current_feedback,
     playable s → validFeedback current_feedback →
     ∃ t, Main.step s rnd current_feedback = Ok t
          ∧ match t with
            | Main.NoWordLeft => Main.words s = ∅
            | Main.Solved guess _ =>
                guess ∈ Main.words s ∧ current_feedback = "GGGGG"
            | Main.Next guess s' =>
                guess ∈ Main.words s ∧ current_feedback ≠ "GGGGG" ∧ playable s'
            end)
  ∧ (∀ dictionary numGuesses inputs,
       (∀ word, word ∈ dictionary → mixedWord word) →
       Forall (λ input, validFeedback input.2) inputs →
       ∃ r, turns (Main.Build dictionary ConstraintCollection.empty numGuesses)
                  inputs = Ok r).
Proof.
  split; [apply step_playable |].
  intros dictionary numGuesses inputs Hmixed Hfb.
  apply turns_playable; [| done]. split; [done |]. simpl.
  apply consistent_empty. intros word Hword. by destruct (Hmixed word Hword).
Qed.

End Safe.

(** ** The selection does not depend on the traversal *)

Section BestScore.
Context `{SetOrder}.




End BestScore.



(** X16. The score of a word depends only on the set of its letters: two
    words with the same letters, such as two anagrams or ALLOW and a word
    made of A, L, O, W in any number, have the same score in any pool, so
    that when both are in the pool, one is among the options of [bestWord]
    exactly when the other is. *)
Theorem score_same_letters `{SetOrder} pool word1 word2 :
  distinctLetters word1 = distinctLetters word2 →
  score pool word1 = score pool word2
  ∧ (word1 ∈ pool → word2 ∈ pool →
     (word1 ∈ (WordCollection.bestOptions pool).1
      ↔ word2 ∈ (WordCollection.bestOptions pool).1)).
Proof.
  intros Hsame.
  assert (score pool word1 = score pool word2) as Hscore.
  { rewrite !score_eq. unfold occurrenceScore, occurrenceSum. by rewrite Hsame. }
  split; [done |]. intros Hin1 Hin2. rewrite !bestOptions_maximal.
  unfold maximal. rewrite Hscore. tauto.
Qed.

Lemma score_same_letters_witness :
  distinctLetters "CRATE" = distinctLetters "TRACE"
  ∧ score (H := elements_order) {[ "CRATE"; "TRACE"; "GRADE" ]} "CRATE"
    = score (H := elements_order) {[ "CRATE"; "TRACE"; "GRADE" ]} "TRACE".
Proof.
  assert (distinctLetters "CRATE" = distinctLetters "TRACE") as Hsame
    by compute_done.
  split; [exact Hsame |].
  exact (proj1 (@score_same_letters elements_order
                  {[ "CRATE"; "TRACE"; "GRADE" ]} "CRATE" "TRACE" Hsame)).
Defined.

(** ** The loader, again *)

(** The value of the constructor. *)
Lemma WordCollection_new_eq tokens :
  WordCollection.new tokens
  = if decide (NoDup (keptWords tokens))
    then Ok (list_to_set (keptWords tokens))
    else Fail AssertionFailure.
Proof.
  unfold WordCollection.new. rewrite addToken_loop.
  destruct (decide (NoDup (keptWords tokens))) as [Hnodup | Hdup].
  - rewrite decide_True.
    + f_equal. set_solver.
    + split; [done |]. apply Forall_forall. set_solver.
  - rewrite decide_False; [done |]. by intros [? _].
Qed.



Lemma toupper_capital_id (c : ascii) : isCapital c → toupper c = c.
Proof. destruct c as [[] [] [] [] [] [] [] []]; vm_compute; tauto. Qed.

Lemma isCapital_isalpha (c : ascii) : isCapital c → isalpha c.
Proof. unfold isalpha. intros Hc. apply orb_True. by left. Qed.


Lemma string_of_chars (s : string) : string_of_list_ascii (chars s) = s.
Proof. apply string_of_list_ascii_of_string. Qed.



(** A word of [WORD_LENGTH] capitals is a token that the loader keeps as it
    is. *)
Lemma capitals_kept word :
  strlen word = WORD_LENGTH → Forall (λ c, isCapital c) (chars word) →
  acceptable word ∧ uppercase word = word.
Proof.
  intros Hlen Hcap. split.
  - split; [done |]. eapply Forall_impl; [exact Hcap |]. apply isCapital_isalpha.
  - unfold uppercase. rewrite <- (string_of_chars word) at 2. f_equal.
    rewrite <- (list_fmap_id (chars word)) at 2.
    apply Forall_fmap_ext_1. eapply Forall_impl; [exact Hcap |].
    intros c Hc. by apply toupper_capital_id.
Qed.

Lemma keptWords_kept tokens word :
  word ∈ keptWords tokens →
  strlen word = WORD_LENGTH ∧ Forall (λ c, isCapital c) (chars word).
Proof.
  unfold keptWords. intros (token & -> & [Hacc _]%list_elem_of_filter)%list_elem_of_fmap.
  by apply uppercase_wellformed.
Qed.

Lemma keptWords_capitals (words : list string) :
  (∀ word, word ∈ words →
           strlen word = WORD_LENGTH ∧ Forall (λ c, isCapital c) (chars word)) →
  keptWords words = words.
Proof.
  induction words as [|word words IH]; intros Hall; [done |].
  destruct (Hall word) as [Hlen Hcap]; [by left |].
  destruct (capitals_kept word Hlen Hcap) as [Hacc Hup].
  rewrite keptWords_cons, decide_True by done. rewrite Hup, IH; [done |].
  intros w Hw. apply Hall. by right.
Qed.


(** X17. The words of a loaded collection load again to the same
    collection: every word that the constructor stores has [WORD_LENGTH]
    letters in A–Z, is kept as it is when read as a token, and no two of
    them are equal. *)
Theorem WordCollection_new_fixed_point tokens pool :
  WordCollection.new tokens = Ok pool →
  WordCollection.new (elements pool) = Ok pool
  ∧ ∀ word, word ∈ pool →
            strlen word = WORD_LENGTH ∧ Forall (λ c, isCapital c) (chars word).
Proof.
  rewrite WordCollection_new_eq. case_decide as Hnodup; [| done].
  intros [= <-].
  assert (∀ word, word ∈ (list_to_set (keptWords tokens) : gset string) →
            strlen word = WORD_LENGTH ∧ Forall (λ c, isCapital c) (chars word))
    as Hwords.
  { intros word Hword%elem_of_list_to_set. by eapply keptWords_kept. }
  split; [| done].
  rewrite WordCollection_new_eq, keptWords_capitals.
  - rewrite decide_True by apply NoDup_elements.
    f_equal. apply list_to_set_elements_L.
  - intros word Hword%elem_of_elements. by apply Hwords.
Qed.

Lemma WordCollection_new_fixed_point_witness :
  WordCollection.new ["crane"; "Allow"; "abc"; "GRADE"]
  = Ok {[ "CRANE"; "ALLOW"; "GRADE" ]}
  ∧ WordCollection.new (elements ({[ "CRANE"; "ALLOW"; "GRADE" ]} : gset string))
    = Ok {[ "CRANE"; "ALLOW"; "GRADE" ]}.
Proof.
  assert (WordCollection.new ["crane"; "Allow"; "abc"; "GRADE"]
          = Ok {[ "CRANE"; "ALLOW"; "GRADE" ]}) as Hnew by compute_done.
  split; [exact Hnew |].
  exact (proj1 (WordCollection_new_fixed_point _ _ Hnew)).
Defined.



(** ** The ledger does not depend on the traversal *)

Lemma collection_eq (L1 L2 : ConstraintCollection.t) :
  ConstraintCollection.m_finishedPositionConstraints L1
  = ConstraintCollection.m_finishedPositionConstraints L2 →
  ConstraintCollection.m_finishedLetterCountConstraints L1
  = ConstraintCollection.m_finishedLetterCountConstraints L2 →
  ConstraintCollection.m_newPositionConstraints L1
  = ConstraintCollection.m_newPositionConstraints L2 →
  ConstraintCollection.m_newLetterCountConstraints L1
  = ConstraintCollection.m_newLetterCountConstraints L2 →
  L1 = L2.
Proof. destruct L1, L2. simpl. by intros -> -> -> ->. Qed.

(** Admissions of the same constraints in another order. *)
Lemma foldl_addPosition_order cs1 cs2 L :
  (∀ c, c ∈ cs1 ↔ c ∈ cs2) →
  foldl (λ L c, ConstraintCollection.addPositionConstraint c L) L cs1
  = foldl (λ L c, ConstraintCollection.addPositionConstraint c L) L cs2.
Proof.
  intros Hsame.
  destruct (foldl_addPosition cs1 L) as (HfP1 & HfL1 & HnL1 & HnP1).
  destruct (foldl_addPosition cs2 L) as (HfP2 & HfL2 & HnL2 & HnP2).
  simpl in *. apply collection_eq; [congruence | congruence | | congruence].
  apply set_eq. intros c. by rewrite HnP1, HnP2, Hsame.
Qed.

Lemma foldl_addLetterCount_order cs1 cs2 L :
  (∀ c, c ∈ cs1 ↔ c ∈ cs2) →
  foldl (λ L c, ConstraintCollection.addLetterCountConstraint c L) L cs1
  = foldl (λ L c, ConstraintCollection.addLetterCountConstraint c L) L cs2.
Proof.
  intros Hsame.
  destruct (foldl_addLetterCount cs1 L) as (HfP1 & HfL1 & HnP1 & HnL1).
  destruct (foldl_addLetterCount cs2 L) as (HfP2 & HfL2 & HnP2 & HnL2).
  simpl in *. apply collection_eq; [congruence | congruence | congruence |].
  apply set_eq. intros c. by rewrite HnL1, HnL2, Hsame.
Qed.

Lemma processNewConstraints_same (order1 order2 : SetOrder) pool L r1 r2 :
  @ConstraintCollection.processNewConstraints order1 pool L = Ok r1 →
  @ConstraintCollection.processNewConstraints order2 pool L = Ok r2 →
  r1 = r2.
Proof.
  destruct r1 as [pool1 L1], r2 as [pool2 L2]. intros Hcall1 Hcall2.
  pose proof (@processNewConstraints_filter order1 _ _ _ _ Hcall1) as Hpool1.
  pose proof (@processNewConstraints_filter order2 _ _ _ _ Hcall2) as Hpool2.
  apply (@processNewConstraints_Ok order1) in Hcall1 as (_ & ->).
  apply (@processNewConstraints_Ok order2) in Hcall2 as (_ & ->).
  f_equal. apply set_eq. intros word. by rewrite Hpool1, Hpool2.
Qed.

(** X19. The admissions of a turn and the filtering do not depend on the
    order in which the unordered sets are traversed: the constraints that a
    turn derives are admitted to the same collection in any order; two calls
    of [processNewConstraints] that differ only by the traversal and both
    return, return the same pool and collection; and they do return, with
    the same result, when the words have [WORD_LENGTH] characters, the
    position constraints an index below [WORD_LENGTH] and no constraint is
    both New and Finished. *)
Theorem ledger_order_independent (order1 order2 : SetOrder) :
  (∀ guess feedback L,
     @Main.admitAll order1 guess feedback L = @Main.admitAll order2 guess feedback L)
  ∧ (∀ pool L r1 r2,
       @ConstraintCollection.processNewConstraints order1 pool L = Ok r1 →
       @ConstraintCollection.processNewConstraints order2 pool L = Ok r2 →
       r1 = r2)
  ∧ (∀ pool L,
       consistent pool L →
       @ConstraintCollection.processNewConstraints order1 pool L
       = @ConstraintCollection.processNewConstraints order2 pool L).
Proof.
  split_and!.
  - intros guess feedback L. unfold Main.admitAll.
    destruct (ConstraintCollection.generatePositionConstraints guess feedback)
      as [pcs | e]; simpl; [| done].
    destruct (ConstraintCollection.generateLetterCountConstraints guess feedback)
      as [lcs | e]; simpl; [| done].
    f_equal.
    rewrite (foldl_addPosition_order (@iterate order1 _ _ _ pcs)
               (@iterate order2 _ _ _ pcs)).
    + apply foldl_addLetterCount_order. intros c.
      by rewrite (@elem_of_iterate order1), (@elem_of_iterate order2).
    + intros c. by rewrite (@elem_of_iterate order1), (@elem_of_iterate order2).
  - apply processNewConstraints_same.
  - intros pool L Hcons.
    destruct (@processNewConstraints_total order1 pool L Hcons)
      as (pool1 & L1 & Hcall1 & _).
    destruct (@processNewConstraints_total order2 pool L Hcons)
      as (pool2 & L2 & Hcall2 & _).
    rewrite Hcall1, Hcall2. f_equal.
    exact (processNewConstraints_same order1 order2 pool L _ _ Hcall1 Hcall2).
Qed.

(** ** The further properties on concrete games *)

Lemma occurrences_absent letter (l : list ascii) :
  letter ∉ l → occurrences letter l = 0.
Proof.
  induction l as [|x l IH]; intros Hout; [done |].
  rewrite occurrences_cons, decide_False, IH; [done | |].
  - intros Hin. apply Hout. by right.
  - intros ->. apply Hout. by left.
Qed.

(** Whether a word is mixed can be read off its own letters. *)
Lemma mixedWord_letters word :
  strlen word = WORD_LENGTH →
  Forall (λ c, isCapital c) (chars word) →
  Forall (λ c, occurrences c (chars word) < WORD_LENGTH) (chars word) →
  mixedWord word.
Proof.
  intros Hlen Hcap Hocc. split_and!; [done | done |]. intros c.
  destruct (decide (c ∈ chars word)) as [Hin | Hout].
  - by eapply Forall_forall in Hocc.
  - by rewrite occurrences_absent.
Qed.

Lemma processNewConstraints_exact_witness :
  @ConstraintCollection.processNewConstraints elements_order
    {[ "CRATE"; "CRANE"; "GRADE" ]}
    (ConstraintCollection.Build ∅ ∅
       {[ PositionConstraint.Build 0 "C" true ]}
       {[ LetterCountConstraint.Build 0 "N" false ]})
  = Ok ({[ "CRATE" ]},
        ConstraintCollection.Build
          {[ PositionConstraint.Build 0 "C" true ]}
          {[ LetterCountConstraint.Build 0 "N" false ]} ∅ ∅)
  ∧ ∀ word, word ∈ ({[ "CRATE" ]} : gset string)
            ↔ word ∈ ({[ "CRATE"; "CRANE"; "GRADE" ]} : gset string)
              ∧ satisfiesAll {[ PositionConstraint.Build 0 "C" true ]}
                             {[ LetterCountConstraint.Build 0 "N" false ]} word.
Proof.
  match goal with |- ?P ∧ _ => assert P as Hcall by compute_done end.
  split; [exact Hcall |].
  exact (proj1 (@processNewConstraints_exact elements_order _ _ _ _ Hcall)).
Defined.

Lemma processNewConstraints_idempotent_witness :
  @ConstraintCollection.processNewConstraints elements_order
    {[ "CRATE"; "CRANE"; "GRADE" ]}
    (ConstraintCollection.Build ∅ ∅
       {[ PositionConstraint.Build 0 "C" true ]}
       {[ LetterCountConstraint.Build 0 "N" false ]})
  = Ok ({[ "CRATE" ]},
        ConstraintCollection.Build
          {[ PositionConstraint.Build 0 "C" true ]}
          {[ LetterCountConstraint.Build 0 "N" false ]} ∅ ∅)
  ∧ @ConstraintCollection.processNewConstraints elements_order
      {[ "CRATE" ]}
      (ConstraintCollection.Build
          {[ PositionConstraint.Build 0 "C" true ]}
          {[ LetterCountConstraint.Build 0 "N" false ]} ∅ ∅)
    = Ok ({[ "CRATE" ]},
          ConstraintCollection.Build
            {[ PositionConstraint.Build 0 "C" true ]}
            {[ LetterCountConstraint.Build 0 "N" false ]} ∅ ∅).
Proof.
  match goal with |- ?P ∧ _ => assert P as Hcall by compute_done end.
  split; [exact Hcall |].
  exact (proj1 (@processNewConstraints_idempotent elements_order) _ _ _ _ Hcall).
Defined.

(** Two constraints in one round, and the same two in two rounds. *)
Lemma pool_is_filtered_dictionary_witness :
  run (H := elements_order)
      [ AdmitPosition (PositionConstraint.Build 0 "C" true);
        AdmitLetterCount (LetterCountConstraint.Build 0 "N" false);
        ApplyPending ]
      ({[ "CRATE"; "CRANE"; "GRADE" ]}, ConstraintCollection.empty)
  = Ok ({[ "CRATE" ]},
        ConstraintCollection.Build
          {[ PositionConstraint.Build 0 "C" true ]}
          {[ LetterCountConstraint.Build 0 "N" false ]} ∅ ∅)
  ∧ run (H := elements_order)
        [ AdmitLetterCount (LetterCountConstraint.Build 0 "N" false);
          ApplyPending;
          AdmitPosition (PositionConstraint.Build 0 "C" true);
          ApplyPending ]
        ({[ "CRATE"; "CRANE"; "GRADE" ]}, ConstraintCollection.empty)
    = Ok ({[ "CRATE" ]},
          ConstraintCollection.Build
            {[ PositionConstraint.Build 0 "C" true ]}
            {[ LetterCountConstraint.Build 0 "N" false ]} ∅ ∅)
  ∧ ∀ word, word ∈ ({[ "CRATE" ]} : gset string)
            ↔ word ∈ ({[ "CRATE"; "CRANE"; "GRADE" ]} : gset string)
              ∧ satisfiesAll {[ PositionConstraint.Build 0 "C" true ]}
                             {[ LetterCountConstraint.Build 0 "N" false ]} word.
Proof.
  match goal with |- ?P ∧ _ => assert P as Hrun1 by compute_done end.
  match goal with |- _ ∧ ?P ∧ _ => assert P as Hrun2 by compute_done end.
  split_and!; [exact Hrun1 | exact Hrun2 |].
  exact (proj1 (@pool_is_filtered_dictionary elements_order) _ _ _ _ Hrun1).
Defined.

(** The first turn on CRATE, CRANE, GRADE when the secret is CRATE. *)
Lemma step_removes_guess_witness :
  sound {[ "CRATE"; "CRANE"; "GRADE" ]} ConstraintCollection.empty
  ∧ @Main.step elements_order
      (Main.Build {[ "CRATE"; "CRANE"; "GRADE" ]} ConstraintCollection.empty 0)
      0 "GGGWG"
    = Ok (Main.Next "CRANE"
            (Main.Build {[ "CRATE" ]}
               (ConstraintCollection.Build
                  {[ PositionConstraint.Build 0 "C" true;
                     PositionConstraint.Build 1 "R" true;
                     PositionConstraint.Build 2 "A" true;
                     PositionConstraint.Build 4 "E" true ]}
                  {[ LetterCountConstraint.Build 0 "N" false ]} ∅ ∅)
               1))
  ∧ "CRANE" ∈ ({[ "CRATE"; "CRANE"; "GRADE" ]} : gset string)
  ∧ "CRANE" ∉ ({[ "CRATE" ]} : gset string).
Proof.
  pose proof (sound_empty {[ "CRATE"; "CRANE"; "GRADE" ]}) as Hsound.
  match goal with |- _ ∧ ?P ∧ _ => assert P as Hstep by compute_done end.
  destruct (@step_removes_guess elements_order
              (Main.Build {[ "CRATE"; "CRANE"; "GRADE" ]} ConstraintCollection.empty 0)
              _ _ _ _ Hsound Hstep)
    as (Hin & Hout & _).
  split_and!; [exact Hsound | exact Hstep | exact Hin | exact Hout].
Defined.

Lemma game_ends_witness :
  @turns elements_order
    (Main.Build {[ "CRATE"; "CRANE"; "GRADE" ]} ConstraintCollection.empty 0)
    [ (0, "GGGWG") ]
  = Ok (inl (Main.Build {[ "CRATE" ]}
               (ConstraintCollection.Build
                  {[ PositionConstraint.Build 0 "C" true;
                     PositionConstraint.Build 1 "R" true;
                     PositionConstraint.Build 2 "A" true;
                     PositionConstraint.Build 4 "E" true ]}
                  {[ LetterCountConstraint.Build 0 "N" false ]} ∅ ∅)
               1))
  ∧ (length [ (0, "GGGWG") ] + size ({[ "CRATE" ]} : gset string)
     ≤ size ({[ "CRATE"; "CRANE"; "GRADE" ]} : gset string))%nat.
Proof.
  match goal with |- ?P ∧ _ => assert P as Hturns by compute_done end.
  split; [exact Hturns |].
  exact (proj1 (@game_ends elements_order) _ _ _ _ Hturns).
Defined.

Lemma turns_never_fail_witness :
  (∀ word, word ∈ ({[ "CRATE"; "CRANE"; "GRADE" ]} : gset string) → mixedWord word)
  ∧ Forall (λ input : N * string, validFeedback input.2)
           [ (0, "GGGWG"); (5, "GGGGG") ]
  ∧ ∃ r, @turns elements_order
           (Main.Build {[ "CRATE"; "CRANE"; "GRADE" ]} ConstraintCollection.empty 0)
           [ (0, "GGGWG"); (5, "GGGGG") ] = Ok r.
Proof.
  assert (∀ word, word ∈ ({[ "CRATE"; "CRANE"; "GRADE" ]} : gset string) →
            mixedWord word) as Hmixed.
  { intros word Hword. set_unfold in Hword.
    destruct_or!; subst word; apply mixedWord_letters; compute_done. }
  assert (Forall (λ input : N * string, validFeedback input.2)
            [ (0, "GGGWG"); (5, "GGGGG") ]) as Hfb.
  { repeat constructor; compute_done. }
  split_and!; [exact Hmixed | exact Hfb |].
  exact (proj2 (@turns_never_fail elements_order) _ 0%Z _ Hmixed Hfb).
Defined.

Lemma ledger_order_independent_witness :
  consistent {[ "CRATE"; "CRANE"; "GRADE" ]}
    (ConstraintCollection.addPositionConstraint
       (PositionConstraint.Build 0 "C" true) ConstraintCollection.empty)
  ∧ @ConstraintCollection.processNewConstraints elements_order
      {[ "CRATE"; "CRANE"; "GRADE" ]}
      (ConstraintCollection.addPositionConstraint
         (PositionConstraint.Build 0 "C" true) ConstraintCollection.empty)
    = @ConstraintCollection.processNewConstraints reverse_order
        {[ "CRATE"; "CRANE"; "GRADE" ]}
        (ConstraintCollection.addPositionConstraint
           (PositionConstraint.Build 0 "C" true) ConstraintCollection.empty).
Proof.
  assert (wordsOfLength {[ "CRATE"; "CRANE"; "GRADE" ]}) as Hwords.
  { intros word Hword. set_unfold in Hword. destruct_or!; subst word; reflexivity. }
  assert (consistent {[ "CRATE"; "CRANE"; "GRADE" ]}
            (ConstraintCollection.addPositionConstraint
               (PositionConstraint.Build 0 "C" true) ConstraintCollection.empty))
    as Hcons.
  { apply addPositionConstraint_consistent; [reflexivity |].
    by apply consistent_empty. }
  split; [exact Hcons |].
  exact (proj2 (proj2 (ledger_order_independent elements_order reverse_order))
           _ _ Hcons).
Defined.
